(** * Continuum: turn-delivery queue and escalation coordinator

  A shallow embedding of the browser extension's three scripts:

  - [Background]: [extension/src/background/background.ts], the service
    worker that serialises turn submissions per conversation through a
    chain of promises ([processingQueues], [handleNewTurns],
    [analyzeTurn]);
  - [ContentScript]: the content script ([extractTurnsFromDOM],
    [sendTurnsToBackground], [onConversationChanged]);
  - [Sidebar]: the React component [Sidebar] with its metrics poll, its
    K2 verification poll and the conversation-change reset;
  - [Debounce]: the debounced [observeDOM] of the content script;
  - [EscalationCard] and [Panel]: the escalation card and the
    properties the sidebar passes to it.

  [Scans], [Text], [Ledger], [Pipeline] and [Schedule] hold the
  vocabulary of the statements about runs of the content script, the
  text of a turn, the trace of the worker, the path from the page to
  the backend and the timers of the panel.

  JavaScript is single threaded: a handler runs to completion, then the
  microtask queue is drained, then the next task (message, network
  completion, timer) is taken.  Each script is therefore modelled as a
  deterministic machine whose input alphabet is the set of tasks the
  runtime can deliver, with the promise heap, the pending network
  requests and the armed timers as explicit state. *)

From Stdlib Require Import ZArith QArith Ascii.
From stdpp Require Import gmap strings list.

Local Open Scope Z_scope.

(** ** Turns (shared by the content script and the service worker) *)

Inductive Speaker := user | model.

Record Turn := { id : Z; speaker : Speaker; text : string; ts : string }.

#[global] Instance Speaker_eq_dec : EqDecision Speaker.
Proof. solve_decision. Defined.

#[global] Instance Turn_eq_dec : EqDecision Turn.
Proof. solve_decision. Defined.

(** ** Conversation identifiers

  [url.match(/\/c\/([a-zA-Z0-9-]+)/)], used by the content script
  ([getConversationId]) and by the sidebar ([extractConversationId]):
  the capture of the leftmost match, or ['default']. *)

Definition is_id_char (a : ascii) : bool :=
let n := nat_of_ascii a in
((97 <=? n) && (n <=? 122) || (65 <=? n) && (n <=? 90) ||
 (48 <=? n) && (n <=? 57) || (n =? 45))%nat.

Fixpoint id_run (s : string) : string :=
match s with
| String a r => if is_id_char a then String a (id_run r) else EmptyString
| EmptyString => EmptyString
end.

Definition after_prefix (s : string) : option string :=
match s with
| String "/" (String "c" (String "/" r)) => Some r
| _ => None
end.

Fixpoint match_id (s : string) : option string :=
match s with
| EmptyString => None
| String _ r =>
    match id_run <$> after_prefix s with
    | Some (String a m) => Some (String a m)
    | _ => match_id r
    end
end.

Definition extractConversationId (url : string) : string :=
match match_id url with
| Some m => m
| None => "default"
end.

(** ** The service worker *)

Module Background.

Definition MAX_RETRIES : Z := 3.

(** An alert of the analysis result; the worker only reads its
    [message] and [severity] when it builds the notification. *)
Record Alert := { message : string; severity : string }.

(** What [await fetch(...)] followed by [await response.json()] can
    yield.  [NetworkError]: [fetch] rejects.  [HttpResponse ok body]:
    [response.ok] is [ok]; [body = None] when [response.json()] rejects
    or the parsed value cannot be dereferenced; [Some None] when
    [result.alerts] is absent; [Some (Some l)] otherwise. *)
Inductive FetchResult :=
| NetworkError
| HttpResponse (ok : bool) (body : option (option (list Alert))).

(** Effects visible outside the worker, in the order they are issued.
    [ObsSettled] marks the point where the promise of the outermost
    [analyzeTurn] call for a turn settles ([true]: delivered, [false]:
    given up after the last retry). *)
Inductive Obs :=
| ObsFetch (c : string) (t : Turn)
| ObsSetTimeout (c : string) (ms : Z)
| ObsNotification (a : Alert)
| ObsStoreAlerts (l : list Alert)
| ObsBadge (n : nat)
| ObsSettled (c : string) (t : Turn) (delivered : bool)
| ObsSendResponse (p : nat).

(** Promise reactions.  [RBatch next c turns] is the callback of
    [prev.then(async () => { for (const turn of turns) ... })] whose
    result is the promise [next]; [RCleanup c next] is the callback of
    [next.finally(...)] in [handleNewTurns]; [RRespond next] is the
    listener's [.finally(() => sendResponse(...))]. *)
Inductive Reaction :=
| RBatch (next : nat) (c : string) (turns : list Turn)
| RCleanup (c : string) (next : nat)
| RRespond (next : nat).

Inductive PromiseState :=
| Pending (reactions : list Reaction)
| Fulfilled.

(** A suspended [analyzeTurn(c, turn, retries)] together with the rest
    of the [for] loop of the batch whose promise is [k_next]. *)
Record Frame := {
  k_next : nat;
  k_conv : string;
  k_turn : Turn;
  k_retries : Z;
  k_rest : list Turn
}.

(** Operations handed to the runtime: a [fetch] awaiting its response,
    a [setTimeout] awaiting its expiry, or one that has completed. *)
Inductive Op :=
| OpFetch (k : Frame)
| OpTimer (k : Frame)
| OpDone.

(** The worker's state.  Promises, like operations, are named by their
    allocation index. *)
Record State := {
  processingQueues : gmap string nat;
  promises : list PromiseState;
  microtasks : list Reaction;
  ops : list Op;
  trace : list Obs
}.

Definition initial : State :=
  {| processingQueues := ∅; promises := []; microtasks := []; ops := []; trace := [] |}.

Definition set_queues (q : gmap string nat) (s : State) : State :=
  {| processingQueues := q; promises := promises s; microtasks := microtasks s;
     ops := ops s; trace := trace s |}.
Definition set_promises (p : list PromiseState) (s : State) : State :=
  {| processingQueues := processingQueues s; promises := p; microtasks := microtasks s;
     ops := ops s; trace := trace s |}.
Definition set_microtasks (m : list Reaction) (s : State) : State :=
  {| processingQueues := processingQueues s; promises := promises s; microtasks := m;
     ops := ops s; trace := trace s |}.
Definition set_ops (o : list Op) (s : State) : State :=
  {| processingQueues := processingQueues s; promises := promises s;
     microtasks := microtasks s; ops := o; trace := trace s |}.
Definition emit (o : list Obs) (s : State) : State :=
  {| processingQueues := processingQueues s; promises := promises s;
     microtasks := microtasks s; ops := ops s; trace := trace s ++ o |}.

(** [new Promise] in state [st]; the result is its name. *)
Definition new_promise (st : PromiseState) (s : State) : nat * State :=
  (length (promises s), set_promises (promises s ++ [st]) s).

(** [p.then(r)] / [p.finally(r)]: the reaction is stored while [p] is
    pending and queued as a microtask when [p] is already fulfilled. *)
Definition react (p : nat) (r : Reaction) (s : State) : State :=
  match promises s !! p with
  | Some (Pending rs) => set_promises (<[p := Pending (rs ++ [r])]> (promises s)) s
  | Some Fulfilled => set_microtasks (microtasks s ++ [r]) s
  | None => s
  end.

(** Fulfilment of [p]: its reactions become microtasks, in the order
    they were registered. *)
Definition resolve (p : nat) (s : State) : State :=
  match promises s !! p with
  | Some (Pending rs) =>
      set_microtasks (microtasks s ++ rs) (set_promises (<[p := Fulfilled]> (promises s)) s)
  | _ => s
  end.

(** [handleNewTurns]: lines 57-79. *)
Definition handleNewTurns (c : string) (turns : list Turn) (s : State) : nat * State :=
  let '(prev, s) :=
    match processingQueues s !! c with
    | Some p => (p, s)
    | None => new_promise Fulfilled s          (* Promise.resolve() *)
    end in
  let '(next, s) := new_promise (Pending []) s in
  let s := react prev (RBatch next c turns) s in
  let s := set_queues (<[c := next]> (processingQueues s)) s in
  let s := react next (RCleanup c next) s in
  (next, s).

(** The [NEW_TURNS] branch of the [onMessage] listener: lines 33-40. *)
Definition onMessage (c : string) (turns : list Turn) (s : State) : State :=
  let '(next, s) := handleNewTurns c turns s in
  react next (RRespond next) s.

(** [analyzeTurn] up to its [await fetch(...)]. *)
Definition analyzeTurn (next : nat) (c : string) (turn : Turn) (retries : Z)
    (rest : list Turn) (s : State) : State :=
  let k := {| k_next := next; k_conv := c; k_turn := turn;
              k_retries := retries; k_rest := rest |} in
  set_ops (ops s ++ [OpFetch k]) (emit [ObsFetch c turn] s).

(** The [for (const turn of turns) await analyzeTurn(...)] loop of the
    batch callback; when it runs off the end the batch promise is
    fulfilled. *)
Definition batchLoop (next : nat) (c : string) (turns : list Turn) (s : State) : State :=
  match turns with
  | [] => resolve next s
  | t :: rest => analyzeTurn next c t 0 rest s
  end.

Definition showNotification (a : Alert) : Obs := ObsNotification a.
Definition updateBadge (count : nat) : Obs := ObsBadge count.

(** The part of [analyzeTurn]'s [try] block after a parsed result. *)
Definition onResult (alerts : option (list Alert)) : list Obs :=
  match alerts with
  | Some (a :: l) => [showNotification a; ObsStoreAlerts (a :: l); updateBadge (length (a :: l))]
  | _ => [updateBadge 0]
  end.

(** [analyzeTurn] from the completion of its [fetch] on. *)
Definition afterFetch (k : Frame) (r : FetchResult) (s : State) : State :=
  match r with
  | HttpResponse true (Some alerts) =>
      batchLoop (k_next k) (k_conv k) (k_rest k)
        (emit (onResult alerts ++ [ObsSettled (k_conv k) (k_turn k) true]) s)
  | _ =>
      if k_retries k <? MAX_RETRIES then
        set_ops (ops s ++ [OpTimer k])
          (emit [ObsSetTimeout (k_conv k) (2000 * (k_retries k + 1))] s)
      else
        batchLoop (k_next k) (k_conv k) (k_rest k)
          (emit [ObsSettled (k_conv k) (k_turn k) false] s)
  end.

(** [analyzeTurn] from the expiry of its back-off timer on:
    [return analyzeTurn(conversationId, turn, retries + 1)]. *)
Definition afterTimer (k : Frame) (s : State) : State :=
  analyzeTurn (k_next k) (k_conv k) (k_turn k) (k_retries k + 1) (k_rest k) s.

Definition runReaction (r : Reaction) (s : State) : State :=
  match r with
  | RBatch next c turns => batchLoop next c turns s
  | RCleanup c next =>
      if decide (processingQueues s !! c = Some next)
      then set_queues (delete c (processingQueues s)) s
      else s
  | RRespond next => emit [ObsSendResponse next] s
  end.

(** The microtask checkpoint. *)
Fixpoint drain (fuel : nat) (s : State) : State :=
  match fuel with
  | O => s
  | S fuel =>
      match microtasks s with
      | [] => s
      | r :: q => drain fuel (runReaction r (set_microtasks q s))
      end
  end.

Definition reactions_of (p : PromiseState) : nat :=
  match p with Pending rs => length rs | Fulfilled => O end.

(** Every reaction runs at most once, so the number of queued plus
    stored reactions bounds the length of a checkpoint. *)
Definition work (s : State) : nat :=
  (length (microtasks s) + sum_list (reactions_of <$> promises s))%nat.

Definition settle (s : State) : State := drain (work s) s.

(** Tasks delivered by the runtime. *)
Inductive Event :=
| EvMessage (c : string) (turns : list Turn)
| EvFetchDone (op : nat) (r : FetchResult)
| EvTimer (op : nat).

Definition handle (ev : Event) (s : State) : State :=
  match ev with
  | EvMessage c turns => onMessage c turns s
  | EvFetchDone op r =>
      match ops s !! op with
      | Some (OpFetch k) => afterFetch k r (set_ops (<[op := OpDone]> (ops s)) s)
      | _ => s
      end
  | EvTimer op =>
      match ops s !! op with
      | Some (OpTimer k) => afterTimer k (set_ops (<[op := OpDone]> (ops s)) s)
      | _ => s
      end
  end.

(** One turn of the event loop: the handler, then the checkpoint. *)
Definition step (s : State) (ev : Event) : State := settle (handle ev s).

Definition run (s : State) (evs : list Event) : State := fold_left step evs s.

(** A submission fails when [fetch] rejects, the status is not a
    success, or the body cannot be used: everything that lands in the
    [catch] block of [analyzeTurn]. *)
Definition failed (r : FetchResult) : bool :=
  match r with
  | HttpResponse true (Some _) => false
  | _ => true
  end.

(** *** Per-conversation order *)

Definition frame_of (o : Op) : option Frame :=
  match o with OpFetch k | OpTimer k => Some k | OpDone => None end.

Definition owned (c : string) (o : Op) : option Frame :=
  match frame_of o with
  | Some k => if decide (k_conv k = c) then Some k else None
  | None => None
  end.

(** The operations of conversation [c] that the runtime still holds. *)
Definition active (c : string) (s : State) : list Frame := omap (owned c) (ops s).

(** [fifo c backlog cur tr] replays the trace [tr] against the turns
    enqueued for [c]: [cur] is the turn whose submission has started
    and not yet settled.  A network attempt must be for the turn in
    hand, or, when none is in hand, for the head of the backlog; a
    settlement must be for the turn in hand.  The result is what is
    left of the backlog and the turn in hand, or [None] when the trace
    breaks the discipline. *)
Fixpoint fifo (c : string) (backlog : list Turn) (cur : option Turn) (tr : list Obs)
    : option (list Turn * option Turn) :=
  match tr with
  | [] => Some (backlog, cur)
  | ObsFetch c' t :: tr' =>
      if decide (c' = c) then
        match cur, backlog with
        | Some t', _ => if decide (t = t') then fifo c backlog cur tr' else None
        | None, t' :: b => if decide (t = t') then fifo c b (Some t) tr' else None
        | None, [] => None
        end
      else fifo c backlog cur tr'
  | ObsSettled c' t _ :: tr' =>
      if decide (c' = c) then
        match cur with
        | Some t' => if decide (t = t') then fifo c backlog None tr' else None
        | None => None
        end
      else fifo c backlog cur tr'
  | _ :: tr' => fifo c backlog cur tr'
  end.

(** The turns enqueued for [c] by a sequence of tasks, in order. *)
Definition enqueued_by (c : string) (ev : Event) : list Turn :=
  match ev with
  | EvMessage c' turns => if decide (c' = c) then turns else []
  | _ => []
  end.

Definition enqueued (c : string) (evs : list Event) : list Turn :=
  evs ≫= enqueued_by c.

(** *** Invariants of the promise chains *)

(** Observations that say nothing about conversation [c]. *)
Definition silent (c : string) (o : Obs) : Prop :=
  match o with
  | ObsFetch c' _ | ObsSettled c' _ _ => c' ≠ c
  | _ => True
  end.

(** The promises of conversation [c] still to be fulfilled: [p] is the
    promise of the running batch, [waiting] lists the batches chained
    behind it (their promise and their turns), and the last promise
    of the chain is the one stored in [processingQueues]. *)
Fixpoint chain (s : State) (c : string) (p : nat) (waiting : list (nat * list Turn)) : Prop :=
  match waiting with
  | [] =>
      promises s !! p = Some (Pending [RCleanup c p; RRespond p]) ∧
      processingQueues s !! c = Some p
  | (n, turns) :: waiting =>
      promises s !! p = Some (Pending [RCleanup c p; RRespond p; RBatch n c turns]) ∧
      (p < n)%nat ∧ chain s c n waiting
  end.

Definition turns_of (waiting : list (nat * list Turn)) : list Turn := waiting ≫= snd.

(** State of conversation [c] between two tasks, [b] being the turns
    enqueued for it so far. *)
Inductive conv_ok (b : list Turn) (s : State) (c : string) : Prop :=
| conv_idle :
    active c s = [] →
    processingQueues s !! c = None →
    fifo c b None (trace s) = Some ([], None) →
    conv_ok b s c
| conv_busy k tl :
    active c s = [k] →
    chain s c (k_next k) tl →
    fifo c b None (trace s) = Some (k_rest k ++ turns_of tl, Some (k_turn k)) →
    conv_ok b s c.

(** [s'] agrees with [s] on everything that belongs to [c]. *)
Record same_for (c : string) (s s' : State) : Prop := {
  sf_active : active c s' = active c s;
  sf_queue : processingQueues s' !! c = processingQueues s !! c;
  sf_promises : ∀ p rs,
    promises s !! p = Some (Pending (RCleanup c p :: rs)) →
    promises s' !! p = Some (Pending (RCleanup c p :: rs));
  sf_trace : ∀ b cur, fifo c b cur (trace s') = fifo c b cur (trace s)
}.

(** A promise that [c] does not own. *)
Definition foreign (c : string) (s : State) (p : nat) : Prop :=
  ∀ rs, promises s !! p ≠ Some (Pending (RCleanup c p :: rs)).


End Background.
(** ** The content script *)

Module ContentScript.

(** A message element as the script reads it: the
    [data-message-author-role] attribute, the text of the
    [.markdown, .whitespace-pre-wrap] descendant when there is one, and
    the element's own [textContent]. *)
Record Node := {
  author_role : option string;
  container_text : option string;
  node_text : string
}.

(** The result of [document.querySelectorAll] for each of the three
    selectors, in the order the script tries them. *)
Record Document := {
  by_author_role : list Node;
  by_testid : list Node;
  by_group : list Node
}.

(** [String.prototype.trim] and [replace(/\s+/g, ' ')] on the ASCII
    white space characters. *)
Definition is_space (a : ascii) : bool :=
  let n := nat_of_ascii a in ((9 <=? n) && (n <=? 13) || (n =? 32))%nat.

Fixpoint trim_start (s : string) : string :=
  match s with
  | String a r => if is_space a then trim_start r else s
  | EmptyString => EmptyString
  end.

(** Collapses every run of white space into one space; a run at the
    end of the string is dropped instead, which is [trimEnd]. *)
Fixpoint squeeze (gap : bool) (s : string) : string :=
  match s with
  | EmptyString => EmptyString
  | String a r =>
      if is_space a then squeeze true r
      else if gap then String " " (String a (squeeze false r))
      else String a (squeeze false r)
  end.

Definition normalize (s : string) : string := squeeze false (trim_start s).

Definition selectMessages (d : Document) : list Node :=
  match by_author_role d, by_testid d with
  | _ :: _, _ => by_author_role d
  | [], _ :: _ => by_testid d
  | [], [] => by_group d
  end.

(** The body of the [forEach] callback for the node at [index]. *)
Definition extractTurn (lastSeenTurnId : Z) (now : string) (index : nat) (node : Node)
    : option Turn :=
  let id := Z.of_nat index + 1 in
  if id <=? lastSeenTurnId then None
  else
    let speaker := if decide (author_role node = Some "user") then user else model in
    let raw := match container_text node with
               | Some (String a r) => String a r
               | _ => node_text node
               end in
    let text := normalize raw in
    if (String.length text <? 2)%nat then None
    else Some {| id := id; speaker := speaker; text := text; ts := now |}.

(** [extractTurnsFromDOM]: lines 30-91; [now] is [new Date().toISOString()]. *)
Definition extractTurnsFromDOM (lastSeenTurnId : Z) (now : string) (d : Document)
    : list Turn :=
  omap (λ '(index, node), extractTurn lastSeenTurnId now index node)
       (imap pair (selectMessages d)).

(** The message [{type: 'NEW_TURNS', payload: {conversationId, turns}}]. *)
Record Message := { conversationId : string; turns : list Turn }.

Record State := {
  lastSeenTurnId : Z;
  currentConversationId : string;
  href : string;
  sent : list Message
}.

(** The script once [waitForChatGPT] has run on the page at [url]. *)
Definition initial (url : string) : State :=
  {| lastSeenTurnId := 0; currentConversationId := extractConversationId url;
     href := url; sent := [] |}.

Definition getConversationId (s : State) : string := extractConversationId (href s).

(** [Math.max(...turns.map(t => t.id))] for a non-empty list. *)
Definition max_id (t : Turn) (l : list Turn) : Z := foldr (λ x m, Z.max (id x) m) (id t) l.

(** [sendTurnsToBackground]: lines 97-133.  [alive] is false when the
    extension context has been invalidated, in which case nothing is
    sent and [lastSeenTurnId] is left alone. *)
Definition sendTurnsToBackground (alive : bool) (l : list Turn) (s : State) : State :=
  match l with
  | [] => s
  | t :: l' =>
      if alive then
        {| lastSeenTurnId := max_id t l';
           currentConversationId := currentConversationId s;
           href := href s;
           sent := sent s ++ [{| conversationId := getConversationId s; turns := l |}] |}
      else s
  end.

(** Tasks: the debounce timer of [observeDOM] fires; the page
    navigates ([pushState] / [popstate]); the settle timer armed by
    [onConversationChanged] fires. *)
Inductive Event :=
| EvObserve (alive : bool) (now : string) (d : Document)
| EvNavigate (url : string)
| EvSettled (alive : bool) (now : string) (d : Document).

(** [onConversationChanged]: lines 189-209, up to the [setTimeout]. *)
Definition onConversationChanged (s : State) : State :=
  let newId := getConversationId s in
  if decide (newId = currentConversationId s) then s
  else {| lastSeenTurnId := 0; currentConversationId := newId;
          href := href s; sent := sent s |}.

Definition step (s : State) (ev : Event) : State :=
  match ev with
  | EvObserve alive now d | EvSettled alive now d =>
      sendTurnsToBackground alive (extractTurnsFromDOM (lastSeenTurnId s) now d) s
  | EvNavigate url =>
      onConversationChanged
        {| lastSeenTurnId := lastSeenTurnId s;
           currentConversationId := currentConversationId s;
           href := url; sent := sent s |}
  end.

End ContentScript.
(** ** The sidebar

The component [Sidebar] (the state machine of the escalation card and
the two polls).  The model is the component's hooks made explicit:
the values of [useState] are the [view], those of [useRef] the
[refs]; each [useEffect] is a body and a cleanup, run when its
dependency array differs from that of the last commit; [let isMounted]
of an effect run is a cell of [isMounted]; [setInterval],
[setTimeout] and [fetch] allocate entries in the tables [timers] and
[requests].

Two things the source leaves to its environment are fixed here.  Time
is a number [now] that tasks carry forward, and a timer expires at
its due time, never later: no other task is taken at a time past an
armed timer's due time.  And state updates made by a task are
rendered, with the cleanups and bodies of the effects they trigger,
before the next task is taken. *)

Module Sidebar.

Definition METRICS_POLL_INTERVAL : Z := 1500.
Definition K2_POLL_INTERVAL : Z := 2000.
Definition K2_TIMEOUT : Z := 90000.

Inductive EscalationState :=
| idle | escalated_pending | k2_confirmed | k2_overridden | k2_failed.

#[global] Instance EscalationState_eq_dec : EqDecision EscalationState.
Proof. solve_decision. Defined.

(** *** Wire formats ([types.ts]); a field read through [?.] or
    defaulted with [||] is optional *)

Record DriftMetrics := {
  cumulative_drift_score : option Q;
  drift_velocity : option Q;
  is_recovering : option bool
}.

Record MetricsResponse := {
  drift : option DriftMetrics;
  commitments_active : option Z;        (* commitments?.active *)
  contradictions_count : option Z;      (* contradictions?.count *)
  total_escalations : option Z          (* escalation?.total_escalations *)
}.

Record K2StatusResponse := {
  status : option string;
  result_type : option string;
  k2_confidence : option Q;
  k2_explanation : option string
}.

(** Outcome of [await fetch(url)] followed by [await response.json()]:
    [fetch] rejects; or a response with [response.ok = ok] whose body
    parses to [Some data], or cannot be used ([None]: [json()] rejects,
    or the first property access on the parsed value throws). *)
Inductive Reply (A : Type) :=
| NetworkError
| Http (ok : bool) (body : option A).
Arguments NetworkError {A}.
Arguments Http {A} ok body.

(** [x || d] on numbers, strings and booleans. *)
Definition num_or (x : option Q) (d : Q) : Q :=
  match x with Some v => if Qeq_bool v 0%Q then d else v | None => d end.
Definition int_or (x : option Z) (d : Z) : Z :=
  match x with Some v => if v =? 0 then d else v | None => d end.
Definition str_or (x : option string) (d : string) : string :=
  match x with Some (String a r) => String a r | _ => d end.
Definition bool_or (x : option bool) (d : bool) : bool :=
  match x with Some true => true | _ => d end.

(** *** Component state *)

(** The [useState] cells.  [driftEvents] (a mock list derived from
    [driftScore] with [Math.random]) and [activeTab] feed the
    presentation only and are left out. *)
Record View := {
  conversationId : string;
  driftScore : Q;
  driftVelocity : Q;
  isRecovering : bool;
  activeCommitments : Z;
  contradictions : Z;
  escalationState : EscalationState;
  escalationReason : string;
  k2Confidence : Q;
  k2Explanation : string
}.

(** The [useRef] cells. *)
Record Refs := {
  escalationStartTimeRef : Z;
  escalationStateRef : EscalationState;
  prevConversationIdRef : string
}.

(** A timer callback with the variables it closes over: the
    [isMounted] variable of the effect run that created it (named by
    its allocation index) and that run's [conversationId]. *)
Inductive Callback :=
| MetricsInterval (mounted : nat) (c : string)
| K2Interval (mounted : nat) (c : string)
| K2TimeoutCb (mounted : nat).

Record Timer := { callback : Callback; due : Z }.

(** A [fetch] in flight, with the closure that awaits it. *)
Inductive Request :=
| MetricsRequest (mounted : nat) (c : string)
| K2Request (mounted : nat) (c : string).

Inductive Obs :=
| ObsMetricsFetch (at_ : Z) (c : string)
| ObsK2Fetch (at_ : Z) (c : string)
| ObsSetEscalation (at_ : Z) (e : EscalationState).

Record State := {
  view : View;
  refs : Refs;
  (** [conversationId, escalationState] as of the last commit: the
      dependency arrays React compares against. *)
  deps : string * EscalationState;
  (** The cleanup closures returned by the last run of the metrics
      effect ([isMounted], [intervalId]) and of the K2 effect
      ([isMounted], [intervalId], [timeoutId]). *)
  metricsCleanup : option (nat * nat);
  k2Cleanup : option (nat * nat * nat);
  (** The [let isMounted] variables, the timer table and the request
      table, each indexed by allocation order; a cleared or expired
      timer and an answered request are [None]. *)
  isMounted : list bool;
  timers : list (option Timer);
  requests : list (option Request);
  now : Z;
  trace : list Obs
}.

Definition set_view (v : View) (s : State) : State :=
  {| view := v; refs := refs s; deps := deps s; metricsCleanup := metricsCleanup s;
     k2Cleanup := k2Cleanup s; isMounted := isMounted s; timers := timers s;
     requests := requests s; now := now s; trace := trace s |}.
Definition set_refs (r : Refs) (s : State) : State :=
  {| view := view s; refs := r; deps := deps s; metricsCleanup := metricsCleanup s;
     k2Cleanup := k2Cleanup s; isMounted := isMounted s; timers := timers s;
     requests := requests s; now := now s; trace := trace s |}.
Definition set_deps (d : string * EscalationState) (s : State) : State :=
  {| view := view s; refs := refs s; deps := d; metricsCleanup := metricsCleanup s;
     k2Cleanup := k2Cleanup s; isMounted := isMounted s; timers := timers s;
     requests := requests s; now := now s; trace := trace s |}.
Definition set_metricsCleanup (c : option (nat * nat)) (s : State) : State :=
  {| view := view s; refs := refs s; deps := deps s; metricsCleanup := c;
     k2Cleanup := k2Cleanup s; isMounted := isMounted s; timers := timers s;
     requests := requests s; now := now s; trace := trace s |}.
Definition set_k2Cleanup (c : option (nat * nat * nat)) (s : State) : State :=
  {| view := view s; refs := refs s; deps := deps s; metricsCleanup := metricsCleanup s;
     k2Cleanup := c; isMounted := isMounted s; timers := timers s;
     requests := requests s; now := now s; trace := trace s |}.
Definition set_isMounted (m : list bool) (s : State) : State :=
  {| view := view s; refs := refs s; deps := deps s; metricsCleanup := metricsCleanup s;
     k2Cleanup := k2Cleanup s; isMounted := m; timers := timers s;
     requests := requests s; now := now s; trace := trace s |}.
Definition set_timers (t : list (option Timer)) (s : State) : State :=
  {| view := view s; refs := refs s; deps := deps s; metricsCleanup := metricsCleanup s;
     k2Cleanup := k2Cleanup s; isMounted := isMounted s; timers := t;
     requests := requests s; now := now s; trace := trace s |}.
Definition set_requests (r : list (option Request)) (s : State) : State :=
  {| view := view s; refs := refs s; deps := deps s; metricsCleanup := metricsCleanup s;
     k2Cleanup := k2Cleanup s; isMounted := isMounted s; timers := timers s;
     requests := r; now := now s; trace := trace s |}.
Definition set_now (t : Z) (s : State) : State :=
  {| view := view s; refs := refs s; deps := deps s; metricsCleanup := metricsCleanup s;
     k2Cleanup := k2Cleanup s; isMounted := isMounted s; timers := timers s;
     requests := requests s; now := t; trace := trace s |}.
Definition emit (o : list Obs) (s : State) : State :=
  {| view := view s; refs := refs s; deps := deps s; metricsCleanup := metricsCleanup s;
     k2Cleanup := k2Cleanup s; isMounted := isMounted s; timers := timers s;
     requests := requests s; now := now s; trace := trace s ++ o |}.

(** The state after the first render: every [useState] at its initial
    value, no effect armed ([conversationId] is still empty). *)
Definition initial : State :=
  {| view := {| conversationId := ""; driftScore := 0%Q; driftVelocity := 0%Q;
                isRecovering := false; activeCommitments := 0; contradictions := 0;
                escalationState := idle; escalationReason := "";
                k2Confidence := 0%Q; k2Explanation := "" |};
     refs := {| escalationStartTimeRef := 0; escalationStateRef := idle;
                prevConversationIdRef := "" |};
     deps := ("", idle);
     metricsCleanup := None; k2Cleanup := None;
     isMounted := []; timers := []; requests := []; now := 0; trace := [] |}.

(** *** State setters *)

Definition setConversationId (c : string) (s : State) : State :=
  let v := view s in
  set_view {| conversationId := c; driftScore := driftScore v;
              driftVelocity := driftVelocity v; isRecovering := isRecovering v;
              activeCommitments := activeCommitments v;
              contradictions := contradictions v;
              escalationState := escalationState v;
              escalationReason := escalationReason v;
              k2Confidence := k2Confidence v; k2Explanation := k2Explanation v |} s.

(** [setDriftScore], [setDriftVelocity], [setIsRecovering],
    [setActiveCommitments], [setContradictions] in one go. *)
Definition setMetrics (d v : Q) (r : bool) (a c : Z) (s : State) : State :=
  let w := view s in
  set_view {| conversationId := conversationId w; driftScore := d;
              driftVelocity := v; isRecovering := r;
              activeCommitments := a; contradictions := c;
              escalationState := escalationState w;
              escalationReason := escalationReason w;
              k2Confidence := k2Confidence w; k2Explanation := k2Explanation w |} s.

Definition setEscalationState (e : EscalationState) (s : State) : State :=
  let v := view s in
  emit [ObsSetEscalation (now s) e]
    (set_view {| conversationId := conversationId v; driftScore := driftScore v;
                 driftVelocity := driftVelocity v; isRecovering := isRecovering v;
                 activeCommitments := activeCommitments v;
                 contradictions := contradictions v;
                 escalationState := e;
                 escalationReason := escalationReason v;
                 k2Confidence := k2Confidence v; k2Explanation := k2Explanation v |} s).

Definition setEscalationReason (r : string) (s : State) : State :=
  let v := view s in
  set_view {| conversationId := conversationId v; driftScore := driftScore v;
              driftVelocity := driftVelocity v; isRecovering := isRecovering v;
              activeCommitments := activeCommitments v;
              contradictions := contradictions v;
              escalationState := escalationState v;
              escalationReason := r;
              k2Confidence := k2Confidence v; k2Explanation := k2Explanation v |} s.

Definition setK2Confidence (q : Q) (s : State) : State :=
  let v := view s in
  set_view {| conversationId := conversationId v; driftScore := driftScore v;
              driftVelocity := driftVelocity v; isRecovering := isRecovering v;
              activeCommitments := activeCommitments v;
              contradictions := contradictions v;
              escalationState := escalationState v;
              escalationReason := escalationReason v;
              k2Confidence := q; k2Explanation := k2Explanation v |} s.

Definition setK2Explanation (x : string) (s : State) : State :=
  let v := view s in
  set_view {| conversationId := conversationId v; driftScore := driftScore v;
              driftVelocity := driftVelocity v; isRecovering := isRecovering v;
              activeCommitments := activeCommitments v;
              contradictions := contradictions v;
              escalationState := escalationState v;
              escalationReason := escalationReason v;
              k2Confidence := k2Confidence v; k2Explanation := x |} s.

(** *** Runtime services *)

Definition mounted (cell : nat) (s : State) : bool :=
  match isMounted s !! cell with Some b => b | None => false end.

(** [let isMounted = true] of a new effect run. *)
Definition new_cell (s : State) : nat * State :=
  (length (isMounted s), set_isMounted (isMounted s ++ [true]) s).

(** [setInterval(cb, ms)] and [setTimeout(cb, ms)]. *)
Definition setTimer (cb : Callback) (ms : Z) (s : State) : nat * State :=
  (length (timers s),
   set_timers (timers s ++ [Some {| callback := cb; due := now s + ms |}]) s).

(** [clearInterval(h)] and [clearTimeout(h)]. *)
Definition clearTimer (h : nat) (s : State) : State :=
  set_timers (<[h := None]> (timers s)) s.

Definition sendRequest (r : Request) (s : State) : State :=
  set_requests (requests s ++ [Some r]) s.

(** *** The metrics poll: lines 1060-1114 *)

(** [pollMetrics] up to [await fetch(url)]. *)
Definition pollMetrics (cell : nat) (c : string) (s : State) : State :=
  if bool_decide (c = "") || negb (mounted cell s) then s
  else sendRequest (MetricsRequest cell c) (emit [ObsMetricsFetch (now s) c] s).

(** [pollMetrics] from the completion of its [fetch] on. *)
Definition afterMetrics (cell : nat) (r : Reply MetricsResponse) (s : State) : State :=
  match r with
  | Http true (Some data) =>
      if negb (mounted cell s) then s
      else
        let d := drift data in
        let s := setMetrics
                   (num_or (d ≫= cumulative_drift_score) 0%Q)
                   (num_or (d ≫= drift_velocity) 0%Q)
                   (bool_or (d ≫= is_recovering) false)
                   (int_or (commitments_active data) 0)
                   (int_or (contradictions_count data) 0) s in
        if match total_escalations data with Some n => 0 <? n | None => false end
           && bool_decide (escalationStateRef (refs s) = idle)
        then
          let s := setEscalationState escalated_pending s in
          let s := setEscalationReason "Cumulative Drift > Threshold" s in
          set_refs {| escalationStartTimeRef := now s;
                      escalationStateRef := escalationStateRef (refs s);
                      prevConversationIdRef := prevConversationIdRef (refs s) |} s
        else s
  | _ => s
  end.

(** *** The K2 poll: lines 1117-1193 *)

Definition pollK2 (cell : nat) (c : string) (s : State) : State :=
  if negb (mounted cell s) then s
  else sendRequest (K2Request cell c) (emit [ObsK2Fetch (now s) c] s).

Definition afterK2 (cell : nat) (r : Reply K2StatusResponse) (s : State) : State :=
  match r with
  | Http true (Some data) =>
      if negb (mounted cell s) then s
      else if decide (status data = Some "completed") then
        if decide (result_type data = Some "confirmed") then
          let s := setEscalationState k2_confirmed s in
          let s := setK2Confidence (num_or (k2_confidence data) 0%Q) s in
          setK2Explanation
            (str_or (k2_explanation data) "Contradiction confirmed by K2 reasoning") s
        else if decide (result_type data = Some "overridden") then
          let s := setEscalationState k2_overridden s in
          setK2Explanation
            (str_or (k2_explanation data)
               "Heuristic false positive - no actual contradiction") s
        else s
      else if decide (status data = Some "failed") then
        let s := setEscalationState k2_failed s in
        setK2Explanation "K2 reasoning failed. Heuristic result retained." s
      else s
  | _ => s
  end.

(** The callback of [setTimeout(..., K2_TIMEOUT)]. *)
Definition k2Timeout (cell : nat) (s : State) : State :=
  if mounted cell s then
    let s := setEscalationState k2_failed s in
    setK2Explanation "K2 reasoning timed out. Heuristic result retained." s
  else s.

(** *** Effects *)

(** The reset effect, lines 1042-1057, for a render with
    [conversationId = c]. *)
Definition resetEffect (c : string) (s : State) : State :=
  if bool_decide (c = "") || bool_decide (c = prevConversationIdRef (refs s)) then s
  else
    let s := set_refs {| escalationStartTimeRef := escalationStartTimeRef (refs s);
                         escalationStateRef := escalationStateRef (refs s);
                         prevConversationIdRef := c |} s in
    let s := setMetrics 0%Q 0%Q false 0 0 s in
    let s := setEscalationState idle s in
    let s := setEscalationReason "" s in
    let s := setK2Confidence 0%Q s in
    setK2Explanation "" s.

Definition metricsEffect (c : string) (s : State) : State :=
  if decide (c = "") then set_metricsCleanup None s
  else
    let '(cell, s) := new_cell s in
    let s := pollMetrics cell c s in
    let '(intervalId, s) := setTimer (MetricsInterval cell c) METRICS_POLL_INTERVAL s in
    set_metricsCleanup (Some (cell, intervalId)) s.

Definition runMetricsCleanup (s : State) : State :=
  match metricsCleanup s with
  | Some (cell, intervalId) =>
      clearTimer intervalId (set_isMounted (<[cell := false]> (isMounted s)) s)
  | None => s
  end.

Definition k2Effect (c : string) (e : EscalationState) (s : State) : State :=
  if bool_decide (c = "") || negb (bool_decide (e = escalated_pending))
  then set_k2Cleanup None s
  else
    let '(cell, s) := new_cell s in
    let s := pollK2 cell c s in
    let '(intervalId, s) := setTimer (K2Interval cell c) K2_POLL_INTERVAL s in
    let '(timeoutId, s) := setTimer (K2TimeoutCb cell) K2_TIMEOUT s in
    set_k2Cleanup (Some (cell, intervalId, timeoutId)) s.

Definition runK2Cleanup (s : State) : State :=
  match k2Cleanup s with
  | Some (cell, intervalId, timeoutId) =>
      clearTimer timeoutId
        (clearTimer intervalId (set_isMounted (<[cell := false]> (isMounted s)) s))
  | None => s
  end.

(** One render and commit.  The function body assigns
    [escalationStateRef.current]; then, for the effects whose
    dependencies differ from those of the last commit, the cleanups
    run in declaration order, followed by the effect bodies in
    declaration order.  The bodies see the values of this render. *)
Definition render (s : State) : State :=
  let c := conversationId (view s) in
  let e := escalationState (view s) in
  let byConv := negb (bool_decide (c = (deps s).1)) in
  let byEsc := byConv || negb (bool_decide (e = (deps s).2)) in
  let s := set_refs {| escalationStartTimeRef := escalationStartTimeRef (refs s);
                       escalationStateRef := e;
                       prevConversationIdRef := prevConversationIdRef (refs s) |} s in
  let s := if byConv then runMetricsCleanup s else s in
  let s := if byEsc then runK2Cleanup s else s in
  let s := if byConv then resetEffect c s else s in
  let s := if byConv then metricsEffect c s else s in
  let s := if byEsc then k2Effect c e s else s in
  set_deps (c, e) s.

(** A state update made by an effect schedules another render. *)
Definition dirty (s : State) : bool :=
  negb (bool_decide (deps s = (conversationId (view s), escalationState (view s)))).

Definition commit (s : State) : State :=
  let s := render s in
  if dirty s then render s else s.

(** *** Tasks *)

(** Timers expire at their due time, earliest first; anything else
    happens at a time [at_] no later than the next expiry. *)
Inductive Event :=
| EvTimer (h : nat)
| EvMetricsReply (at_ : Z) (req : nat) (r : Reply MetricsResponse)
| EvK2Reply (at_ : Z) (req : nat) (r : Reply K2StatusResponse)
| EvTabUrl (at_ : Z) (url : string).

Definition dues (s : State) : list Z := omap (fmap due) (timers s).

Definition can_be (t : Z) (s : State) : bool :=
  bool_decide (now s ≤ t ∧ Forall (λ d, t ≤ d) (dues s)).

Definition period (cb : Callback) : option Z :=
  match cb with
  | MetricsInterval _ _ => Some METRICS_POLL_INTERVAL
  | K2Interval _ _ => Some K2_POLL_INTERVAL
  | K2TimeoutCb _ => None
  end.

Definition invoke (cb : Callback) (s : State) : State :=
  match cb with
  | MetricsInterval cell c => pollMetrics cell c s
  | K2Interval cell c => pollK2 cell c s
  | K2TimeoutCb cell => k2Timeout cell s
  end.

Definition fire (h : nat) (t : Timer) (s : State) : State :=
  let rearmed := match period (callback t) with
                 | Some p => Some {| callback := callback t; due := due t + p |}
                 | None => None
                 end in
  invoke (callback t) (set_timers (<[h := rearmed]> (timers s)) (set_now (due t) s)).

Definition step (s : State) (ev : Event) : option State :=
  match ev with
  | EvTimer h =>
      match timers s !! h with
      | Some (Some t) =>
          if can_be (due t) s then Some (commit (fire h t s)) else None
      | _ => None
      end
  | EvMetricsReply at_ req r =>
      match requests s !! req with
      | Some (Some (MetricsRequest cell _)) =>
          if can_be at_ s then
            Some (commit (afterMetrics cell r
                            (set_requests (<[req := None]> (requests s)) (set_now at_ s))))
          else None
      | _ => None
      end
  | EvK2Reply at_ req r =>
      match requests s !! req with
      | Some (Some (K2Request cell _)) =>
          if can_be at_ s then
            Some (commit (afterK2 cell r
                            (set_requests (<[req := None]> (requests s)) (set_now at_ s))))
          else None
      | _ => None
      end
  | EvTabUrl at_ url =>
      if can_be at_ s then
        Some (commit (setConversationId (extractConversationId url) (set_now at_ s)))
      else None
  end.

Fixpoint run (s : State) (evs : list Event) : option State :=
  match evs with
  | [] => Some s
  | ev :: evs => s' ← step s ev; run s' evs
  end.

(** *** Invariant of the states between two tasks *)

(** The dependency arrays and the state ref are up to date. *)
Definition synced (s : State) : Prop :=
  deps s = (conversationId (view s), escalationState (view s)) ∧
  escalationStateRef (refs s) = escalationState (view s).

Record wf (s : State) : Prop := {
  wf_synced : synced s;
  wf_prev : prevConversationIdRef (refs s) = conversationId (view s);
  (** The metrics effect is armed exactly when there is a conversation. *)
  wf_metrics :
    match metricsCleanup s with
    | Some (g, h) =>
        conversationId (view s) ≠ "" ∧ isMounted s !! g = Some true ∧
        ∃ d, timers s !! h =
             Some (Some {| callback := MetricsInterval g (conversationId (view s));
                           due := d |})
    | None => conversationId (view s) = ""
    end;
  (** The K2 effect is armed exactly when the state is pending, and its
      timeout is due [K2_TIMEOUT] after the state became pending. *)
  wf_k2 :
    match k2Cleanup s with
    | Some (g, hi, ht) =>
        escalationState (view s) = escalated_pending ∧ isMounted s !! g = Some true ∧
        (∃ d, timers s !! hi =
              Some (Some {| callback := K2Interval g (conversationId (view s));
                            due := d |})) ∧
        timers s !! ht =
          Some (Some {| callback := K2TimeoutCb g;
                        due := escalationStartTimeRef (refs s) + K2_TIMEOUT |})
    | None => escalationState (view s) ≠ escalated_pending
    end;
  (** Only the current effect runs are mounted, only their timers are
      armed, and no timer is overdue. *)
  wf_cells : ∀ g, isMounted s !! g = Some true →
    (∃ h, metricsCleanup s = Some (g, h)) ∨ (∃ hi ht, k2Cleanup s = Some (g, hi, ht));
  wf_timers : ∀ h t, timers s !! h = Some (Some t) →
    match callback t with
    | MetricsInterval g _ => metricsCleanup s = Some (g, h)
    | K2Interval g _ => ∃ ht, k2Cleanup s = Some (g, h, ht)
    | K2TimeoutCb g => ∃ hi, k2Cleanup s = Some (g, hi, h)
    end;
  wf_now : ∀ h t, timers s !! h = Some (Some t) → now s ≤ due t;
  (** A request belongs to a run of the effect that issued it. *)
  wf_requests : ∀ r q, requests s !! r = Some (Some q) →
    match q with
    | MetricsRequest g _ =>
        (g < length (isMounted s))%nat ∧ ∀ hi ht, k2Cleanup s ≠ Some (g, hi, ht)
    | K2Request g _ =>
        (g < length (isMounted s))%nat ∧ ∀ h, metricsCleanup s ≠ Some (g, h)
    end;
  wf_apart : ∀ g h g' hi ht,
    metricsCleanup s = Some (g, h) → k2Cleanup s = Some (g', hi, ht) → g ≠ g'
}.

(** The same bookkeeping stated on the tables alone, with the metrics
    run [m] and the K2 run [k] given from outside; it also holds in
    the middle of a commit, when a cleanup has run and the effect body
    has not yet stored its new cleanup. *)
Record live (m : option (nat * nat)) (k : option (nat * nat * nat))
    (cells : list bool) (tm : list (option Timer)) (rq : list (option Request))
    (t : Z) : Prop := {
  live_cells : ∀ g, cells !! g = Some true →
    (∃ h, m = Some (g, h)) ∨ (∃ hi ht, k = Some (g, hi, ht));
  live_timers : ∀ h x, tm !! h = Some (Some x) →
    t ≤ due x ∧
    match callback x with
    | MetricsInterval g _ => m = Some (g, h)
    | K2Interval g _ => ∃ ht, k = Some (g, h, ht)
    | K2TimeoutCb g => ∃ hi, k = Some (g, hi, h)
    end;
  live_requests : ∀ r q, rq !! r = Some (Some q) →
    match q with
    | MetricsRequest g _ => (g < length cells)%nat ∧ ∀ hi ht, k ≠ Some (g, hi, ht)
    | K2Request g _ => (g < length cells)%nat ∧ ∀ h, m ≠ Some (g, h)
    end;
  live_bound_m : ∀ g h, m = Some (g, h) → (g < length cells)%nat;
  live_bound_k : ∀ g hi ht, k = Some (g, hi, ht) → (g < length cells)%nat;
  live_apart : ∀ g h g' hi ht, m = Some (g, h) → k = Some (g', hi, ht) → g ≠ g'
}.

Definition has_metrics (g h : nat) (c : string)
    (cells : list bool) (tm : list (option Timer)) : Prop :=
  cells !! g = Some true ∧
  ∃ d, tm !! h = Some (Some {| callback := MetricsInterval g c; due := d |}).

Definition has_k2 (g hi ht : nat) (c : string) (expiry : Z)
    (cells : list bool) (tm : list (option Timer)) : Prop :=
  cells !! g = Some true ∧
  (∃ d, tm !! hi = Some (Some {| callback := K2Interval g c; due := d |})) ∧
  tm !! ht = Some (Some {| callback := K2TimeoutCb g; due := expiry |}).

Definition reachable (s : State) : Prop := ∃ evs, run initial evs = Some s.

(** Occurrences of [setEscalationState(e)] in a trace. *)
Definition is_set_to (e : EscalationState) (o : Obs) : bool :=
  match o with ObsSetEscalation _ e' => bool_decide (e' = e) | _ => false end.

Definition sets_to (e : EscalationState) (tr : list Obs) : nat :=
  length (filter (λ o, is_set_to e o) tr).

Definition is_navigation (ev : Event) : bool :=
  match ev with EvTabUrl _ _ => true | _ => false end.


(** Lists of tasks with no change of conversation among them. *)
Definition steady (evs : list Event) : bool :=
  forallb (λ ev, negb (is_navigation ev)) evs.

(** *** Vocabulary of the statements *)

(** The view a new conversation starts from. *)
Definition fresh_view (c : string) : View :=
  {| conversationId := c; driftScore := 0%Q; driftVelocity := 0%Q; isRecovering := false;
     activeCommitments := 0; contradictions := 0; escalationState := idle;
     escalationReason := ""; k2Confidence := 0%Q; k2Explanation := "" |}.

(** The view after [setEscalationState(e)] and [setK2Explanation(x)]. *)
Definition resolved (e : EscalationState) (q : Q) (x : string) (v : View) : View :=
  {| conversationId := conversationId v; driftScore := driftScore v;
     driftVelocity := driftVelocity v; isRecovering := isRecovering v;
     activeCommitments := activeCommitments v; contradictions := contradictions v;
     escalationState := e; escalationReason := escalationReason v;
     k2Confidence := q; k2Explanation := x |}.

(** The view after the escalation trigger of [pollMetrics]. *)
Definition triggered (v : View) : View :=
  {| conversationId := conversationId v; driftScore := driftScore v;
     driftVelocity := driftVelocity v; isRecovering := isRecovering v;
     activeCommitments := activeCommitments v; contradictions := contradictions v;
     escalationState := escalated_pending;
     escalationReason := "Cumulative Drift > Threshold";
     k2Confidence := k2Confidence v; k2Explanation := k2Explanation v |}.

Definition escalated (data : MetricsResponse) : bool :=
  match total_escalations data with Some n => 0 <? n | None => false end.

Definition stored (data : MetricsResponse) (s : State) : State :=
  setMetrics (num_or (drift data ≫= cumulative_drift_score) 0%Q)
    (num_or (drift data ≫= drift_velocity) 0%Q)
    (bool_or (drift data ≫= is_recovering) false)
    (int_or (commitments_active data) 0)
    (int_or (contradictions_count data) 0) s.

(** What a parsed K2 status asks for: the new state with the
    confidence and the explanation to store, or nothing. *)
Definition verdict (data : K2StatusResponse) (q0 : Q)
    : option (EscalationState * Q * string) :=
  if decide (status data = Some "completed") then
    if decide (result_type data = Some "confirmed") then
      Some (k2_confirmed, num_or (k2_confidence data) 0%Q,
            str_or (k2_explanation data) "Contradiction confirmed by K2 reasoning")
    else if decide (result_type data = Some "overridden") then
      Some (k2_overridden, q0,
            str_or (k2_explanation data)
              "Heuristic false positive - no actual contradiction")
    else None
  else if decide (status data = Some "failed") then
    Some (k2_failed, q0, "K2 reasoning failed. Heuristic result retained.")
  else None.

(** What a task that is not a change of conversation can do to the
    escalation state machine. *)
Inductive move (s s' : State) : Prop :=
| move_none :
    escalationState (view s') = escalationState (view s) →
    escalationReason (view s') = escalationReason (view s) →
    k2Confidence (view s') = k2Confidence (view s) →
    k2Explanation (view s') = k2Explanation (view s) →
    escalationStartTimeRef (refs s') = escalationStartTimeRef (refs s) →
    (∀ e, sets_to e (trace s') = sets_to e (trace s)) →
    move s s'
| move_trigger :
    escalationState (view s) = idle →
    escalationState (view s') = escalated_pending →
    escalationStartTimeRef (refs s') = now s' →
    (∀ e, sets_to e (trace s') =
          ((if bool_decide (e = escalated_pending) then 1 else 0) + sets_to e (trace s))%nat) →
    move s s'
| move_resolve :
    escalationState (view s) = escalated_pending →
    escalationState (view s') ∈ [k2_confirmed; k2_overridden; k2_failed] →
    (∀ e, sets_to e (trace s') =
          ((if bool_decide (e = escalationState (view s')) then 1 else 0)
           + sets_to e (trace s))%nat) →
    move s s'.

End Sidebar.
(** ** The three programs side by side *)

Module System.

(** The content script of the tab, the service worker and the side
    panel run in three JavaScript contexts.  The content script talks
    to the worker through [chrome.runtime.sendMessage], whose messages
    reach the worker's listener in the order they were sent; the panel
    talks to neither of them.  [delivered] counts the messages of
    [sent (page)] that the worker has received. *)
Record State := {
  page : ContentScript.State;
  worker : Background.State;
  panel : Sidebar.State;
  delivered : nat
}.

Inductive Event :=
| Page (ev : ContentScript.Event)
| Deliver
| Worker (ev : Background.Event)
| Panel (ev : Sidebar.Event).

Definition initial (url : string) : State :=
  {| page := ContentScript.initial url; worker := Background.initial;
     panel := Sidebar.initial; delivered := 0 |}.

Definition step (s : State) (ev : Event) : option State :=
  match ev with
  | Page ev =>
      Some {| page := ContentScript.step (page s) ev; worker := worker s;
              panel := panel s; delivered := delivered s |}
  | Deliver =>
      match ContentScript.sent (page s) !! delivered s with
      | Some m =>
          Some {| page := page s;
                  worker := Background.step (worker s)
                              (Background.EvMessage (ContentScript.conversationId m)
                                 (ContentScript.turns m));
                  panel := panel s; delivered := S (delivered s) |}
      | None => None
      end
  | Worker (Background.EvMessage _ _) => None
  | Worker ev =>
      Some {| page := page s; worker := Background.step (worker s) ev;
              panel := panel s; delivered := delivered s |}
  | Panel ev =>
      match Sidebar.step (panel s) ev with
      | Some p =>
          Some {| page := page s; worker := worker s; panel := p;
                  delivered := delivered s |}
      | None => None
      end
  end.

Fixpoint run (s : State) (evs : list Event) : option State :=
  match evs with
  | [] => Some s
  | ev :: evs => s' ← step s ev; run s' evs
  end.

Definition reachable (s : State) : Prop := ∃ url evs, run (initial url) evs = Some s.


(** What holds of the worker and the panel between two tasks. *)
Definition inv (s : State) : Prop :=
  Sidebar.wf (panel s) ∧ Background.microtasks (worker s) = [] ∧
  ∃ B, ∀ c, Background.conv_ok (B c) (worker s) c.

End System.

(** ** Sample data for the worked examples *)

Module Samples.

Definition t1 : Turn := {| id := 1; speaker := user; text := "Is P true?"; ts := "t0" |}.
Definition t2 : Turn := {| id := 2; speaker := model; text := "P is true."; ts := "t0" |}.

Definition refused : Background.FetchResult := Background.HttpResponse false None.
Definition accepted : Background.FetchResult := Background.HttpResponse true (Some None).

(** The worker right after [abc] received the batch [t1, t2]. *)
Definition worker_busy : Background.State :=
  Background.run Background.initial [Background.EvMessage "abc" [t1; t2]].

Definition first_frame : Background.Frame :=
  {| Background.k_next := 1; Background.k_conv := "abc"; Background.k_turn := t1;
     Background.k_retries := 0; Background.k_rest := [t2] |}.

(** The panel: a tab on conversation [abc], and the replies of the
    backend. *)
Definition url_abc : string := "https://chatgpt.com/c/abc".
Definition url_xyz : string := "https://chatgpt.com/c/xyz".

Definition reading (n : Z) : Sidebar.Reply Sidebar.MetricsResponse :=
  Sidebar.Http true
    (Some {| Sidebar.drift :=
               Some {| Sidebar.cumulative_drift_score := Some (18 # 10)%Q;
                       Sidebar.drift_velocity := None;
                       Sidebar.is_recovering := None |};
             Sidebar.commitments_active := Some 2;
             Sidebar.contradictions_count := None;
             Sidebar.total_escalations := Some n |}).

Definition k2_status (st : string) (rt : option string)
    : Sidebar.Reply Sidebar.K2StatusResponse :=
  Sidebar.Http true
    (Some {| Sidebar.status := Some st; Sidebar.result_type := rt;
             Sidebar.k2_confidence := Some (91 # 100)%Q;
             Sidebar.k2_explanation := None |}).

Definition after (s : Sidebar.State) (evs : list Sidebar.Event) : Sidebar.State :=
  default s (Sidebar.run s evs).

(** The panel once the tab has reported its URL: the first metrics
    request (number 0) is out and the metrics interval (timer 0) is
    armed for 1500. *)
Definition panel_open : Sidebar.State :=
  after Sidebar.initial [Sidebar.EvTabUrl 0 url_abc].

(** Metrics polls answering 0, 0, 1, 1, 2 escalations; the third
    answer arms the K2 interval (timer 1) and timeout (timer 2). *)
Definition quiet_polls : list Sidebar.Event :=
  [Sidebar.EvMetricsReply 100 0 (reading 0); Sidebar.EvTimer 0;
   Sidebar.EvMetricsReply 1600 1 (reading 0); Sidebar.EvTimer 0].

Definition later_polls : list Sidebar.Event :=
  [Sidebar.EvTimer 0; Sidebar.EvMetricsReply 4600 4 (reading 1);
   Sidebar.EvTimer 1; Sidebar.EvTimer 0; Sidebar.EvMetricsReply 6100 6 (reading 2)].

Definition escalation_stream : list Sidebar.Event :=
  quiet_polls ++ [Sidebar.EvMetricsReply 3100 2 (reading 1)] ++ later_polls.

Definition panel_idle : Sidebar.State := after panel_open quiet_polls.

(** Pending since 3100, with K2 request number 3 out. *)
Definition panel_pending : Sidebar.State :=
  after panel_idle [Sidebar.EvMetricsReply 3100 2 (reading 1)].



(** A page with the two turns, the worker delivering them and the
    panel waiting for K2, all on conversation [abc]. *)
Definition doc_abc : ContentScript.Document :=
  {| ContentScript.by_author_role :=
       [{| ContentScript.author_role := Some "user";
           ContentScript.container_text := Some "Is P true?";
           ContentScript.node_text := "Is P true?" |};
        {| ContentScript.author_role := Some "assistant";
           ContentScript.container_text := None;
           ContentScript.node_text := "  P is   true. " |}];
     ContentScript.by_testid := []; ContentScript.by_group := [] |}.






End Samples.
(** ** Runs of the content script *)

Module Scans.

Import ContentScript.

Definition run (s : State) (evs : list Event) : State := fold_left step evs s.

(** The turns of a list of messages, in the order they were sent. *)
Definition turns_sent (l : list Message) : list Turn := l ≫= turns.

(** A task that keeps the script on conversation [c]: anything but a
    navigation to the URL of another conversation. *)
Definition stays (c : string) (ev : Event) : bool :=
  match ev with
  | EvNavigate url => bool_decide (extractConversationId url = c)
  | _ => true
  end.

(** [ascending lo l]: the numbers of [l] increase strictly, starting
    above [lo]. *)
Fixpoint ascending (lo : Z) (l : list Z) : bool :=
  match l with
  | [] => true
  | x :: r => (lo <? x) && ascending x r
  end.

(** The text the script reads from a message element. *)
Definition raw_text (node : Node) : string :=
  match container_text node with
  | Some (String a r) => String a r
  | _ => node_text node
  end.

End Scans.

Module MoreSamples.

(** The page of [abc] once a third message has appeared. *)
Definition doc_more : ContentScript.Document :=
  {| ContentScript.by_author_role :=
       ContentScript.by_author_role Samples.doc_abc ++
       [{| ContentScript.author_role := Some "user";
           ContentScript.container_text := None;
           ContentScript.node_text := "Why?" |}];
     ContentScript.by_testid := []; ContentScript.by_group := [] |}.

End MoreSamples.



(** ** Shapes of strings *)

Module Text.




Fixpoint all_id_chars (s : string) : bool :=
  match s with
  | EmptyString => true
  | String a r => is_id_char a && all_id_chars r
  end.

(** The first character of [s], if any, is not one of an id. *)
Definition ends_id (s : string) : bool :=
  match s with
  | EmptyString => true
  | String a _ => negb (is_id_char a)
  end.

End Text.


(** ** The debounced observer of the content script

[observeDOM] (called by the [MutationObserver] on every mutation of
the page): the pending timeout is cleared and a new one is set
[DEBOUNCE_MS] ahead, whose callback scans the page.  The handles of
the browser are positive numbers, so that the test [if (debounceTimer)]
is a test against [null]; here a handle is the index of the timeout in
the table.  Time and timers are as for the sidebar: a timeout expires at its due time, and
nothing else happens at a later time while it is armed. *)

Module Debounce.

Definition DEBOUNCE_MS : Z := 800.

Inductive Obs :=
| ObsMutation (at_ : Z)
| ObsScan (at_ : Z).

(** [debounceTimer] is the module variable of that name ([None] for
    [null]); [timers] holds, for every timeout ever set, its due time
    while it is armed. *)
Record State := {
  debounceTimer : option nat;
  timers : list (option Z);
  now : Z;
  trace : list Obs
}.

Definition initial : State :=
  {| debounceTimer := None; timers := []; now := 0; trace := [] |}.

Definition clearTimeout (h : nat) (s : State) : State :=
  {| debounceTimer := debounceTimer s; timers := <[h := None]> (timers s);
     now := now s; trace := trace s |}.

(** [observeDOM]: lines 147-158, up to the timeout's callback. *)
Definition observeDOM (s : State) : State :=
  let s := match debounceTimer s with
           | Some h => clearTimeout h s
           | None => s
           end in
  {| debounceTimer := Some (length (timers s));
     timers := timers s ++ [Some (now s + DEBOUNCE_MS)];
     now := now s; trace := trace s |}.

Inductive Event :=
| EvMutation (at_ : Z)
| EvTimeout (h : nat).

Definition dues (s : State) : list Z := omap (λ due, due) (timers s).

Definition can_be (t : Z) (s : State) : bool :=
  bool_decide (now s ≤ t ∧ Forall (λ d, t ≤ d) (dues s)).

Definition step (s : State) (ev : Event) : option State :=
  match ev with
  | EvMutation at_ =>
      if can_be at_ s then
        Some (observeDOM {| debounceTimer := debounceTimer s; timers := timers s;
                            now := at_; trace := trace s ++ [ObsMutation at_] |})
      else None
  | EvTimeout h =>
      match timers s !! h with
      | Some (Some d) =>
          if can_be d s then
            Some {| debounceTimer := debounceTimer s; timers := <[h := None]> (timers s);
                    now := d; trace := trace s ++ [ObsScan d] |}
          else None
      | _ => None
      end
  end.

Fixpoint run (s : State) (evs : list Event) : option State :=
  match evs with
  | [] => Some s
  | ev :: evs => s' ← step s ev; run s' evs
  end.

(** [replay pending tr] checks a trace against the debounce
    discipline: [pending] is the time of the latest mutation that no
    scan has followed yet; a scan must come [DEBOUNCE_MS] after that
    mutation, and it leaves nothing pending.  The result is what is
    pending at the end, or [None] when the trace breaks the
    discipline. *)
Fixpoint replay (pending : option Z) (tr : list Obs) : option (option Z) :=
  match tr with
  | [] => Some pending
  | ObsMutation t :: tr => replay (Some t) tr
  | ObsScan t :: tr =>
      match pending with
      | Some m => if decide (t = m + DEBOUNCE_MS) then replay None tr else None
      | None => None
      end
  end.

End Debounce.


(** ** Book-keeping over the worker's trace *)

Module Ledger.

Import Background.

(** How many observations of a trace satisfy [f]. *)
Definition tally (f : Obs → bool) (tr : list Obs) : nat :=
  length (filter (λ o, f o) tr).

Definition is_settled (c : string) (o : Obs) : bool :=
  match o with ObsSettled c' _ _ => bool_decide (c' = c) | _ => false end.
Definition is_delivery (o : Obs) : bool :=
  match o with ObsSettled _ _ true => true | _ => false end.
Definition is_badge (o : Obs) : bool :=
  match o with ObsBadge _ => true | _ => false end.
Definition is_notification (o : Obs) : bool :=
  match o with ObsNotification _ => true | _ => false end.
Definition is_store (o : Obs) : bool :=
  match o with ObsStoreAlerts _ => true | _ => false end.

(** The responses sent, by the promise of their batch. *)
Definition sent_id (o : Obs) : option nat :=
  match o with ObsSendResponse p => Some p | _ => None end.
Definition answered (s : State) : list nat := omap sent_id (trace s).

(** The [sendResponse] callbacks that wait on a pending promise. *)
Definition respond_id (r : Reaction) : option nat :=
  match r with RRespond p => Some p | _ => None end.
Definition responders (p : PromiseState) : list nat :=
  match p with Pending rs => omap respond_id rs | Fulfilled => [] end.
Definition registered (s : State) : list nat := promises s ≫= responders.

(** The responders that exist: those that have answered, those that
    wait on a promise and those queued as microtasks. *)
Definition responders_of (s : State) : list nat :=
  answered s ++ registered s ++ omap respond_id (microtasks s).

(** A piece of trace in which every delivery comes with one badge
    update, and every notification with one write of the alerts. *)
Definition accounted (tr : list Obs) : Prop :=
  tally is_badge tr = tally is_delivery tr ∧
  tally is_notification tr = tally is_store tr ∧
  (tally is_notification tr ≤ tally is_badge tr)%nat.

(** What the handlers and the microtask checkpoint keep: the
    responders (one may move from a promise to the queue and from the
    queue to the trace), the promises already allocated, and the
    accounts of the trace. *)
Record keeps (s s' : State) : Prop := {
  keeps_responders : responders_of s' ≡ₚ responders_of s;
  keeps_promises : (length (promises s) ≤ length (promises s'))%nat;
  keeps_trace : ∃ l, trace s' = trace s ++ l ∧ accounted l
}.

(** Who will fulfil a pending promise: the batch callback that owns
    it, queued as a microtask or registered on an earlier promise, or
    a suspended [analyzeTurn] of its loop held by the runtime. *)
Definition batch_of (r : Reaction) : option nat :=
  match r with RBatch next _ _ => Some next | _ => None end.
Definition batches (p : PromiseState) : list nat :=
  match p with Pending rs => omap batch_of rs | Fulfilled => [] end.
Definition in_flight (s : State) : list Frame := omap frame_of (ops s).
Definition resolvers (s : State) : list nat :=
  omap batch_of (microtasks s) ++ (promises s ≫= batches) ++ (k_next <$> in_flight s).

(** Every pending promise, [x] excepted, has a resolver; a batch is
    chained on a promise made before its own; the queue entries name
    promises that exist. *)
Record resolvable (x : option nat) (s : State) : Prop := {
  rv_queue : ∀ c q, processingQueues s !! c = Some q → (q < length (promises s))%nat;
  rv_pending : ∀ p rs,
    promises s !! p = Some (Pending rs) → Some p ≠ x → p ∈ resolvers s;
  rv_order : ∀ q rs n,
    promises s !! q = Some (Pending rs) → n ∈ omap batch_of rs → (q < n)%nat
}.

Definition is_message (ev : Event) : bool :=
  match ev with EvMessage _ _ => true | _ => false end.
Definition messages (evs : list Event) : nat := length (filter (λ ev, is_message ev) evs).

End Ledger.


(** ** The escalation card: [EscalationCard.tsx], lines 52-123 and 246 *)

Module EscalationCard.

Inductive Status := pending | confirmed | override | failed.

(** [EscalationCardProps]; the properties marked [?] may be absent. *)
Record Props := {
  isVisible : bool;
  status : option Status;
  reason : option string;
  k2Confidence : option Q;
  k2Explanation : option string
}.

Record Content := {
  icon : string;
  title : string;
  subtitle : string;
  message : string;
  color : string;
  showLoading : bool;
  showConfidence : bool
}.

(** [getContent]. *)
Definition getContent (p : Props) (st : Status) : Content :=
  match st with
  | pending =>
      {| icon := "⚡"; title := "Escalation Triggered";
         subtitle := Sidebar.str_or (reason p) "Cumulative Drift > Threshold";
         message := "Verifying with K2...";
         color := "#f1c40f"; showLoading := true; showConfidence := false |}
  | confirmed =>
      {| icon := "🧠"; title := "K2 Verification Complete";
         subtitle := "Contradiction Confirmed";
         message := Sidebar.str_or (k2Explanation p) "Epistemic tension verified";
         color := "#e74c3c"; showLoading := false; showConfidence := true |}
  | override =>
      {| icon := "🧠"; title := "K2 Override";
         subtitle := "Heuristic False Positive";
         message := Sidebar.str_or (k2Explanation p) "Escalation cancelled by K2 authority";
         color := "#2ecc71"; showLoading := false; showConfidence := false |}
  | failed =>
      {| icon := "⚠️"; title := "K2 Verification Timeout";
         subtitle := "Heuristic Result Retained";
         message := Sidebar.str_or (k2Explanation p)
                      "K2 reasoning timed out. Heuristic result retained.";
         color := "#95a5a6"; showLoading := false; showConfidence := false |}
  end.

(** What the component renders: nothing, or the texts of the card
    together with the confidence shown in the badge, if any
    ([content.showConfidence && k2Confidence !== undefined]).  The
    [hasAnimated] and [isHovered] cells only drive the styling. *)
Definition render (p : Props) : option (Content * option Q) :=
  if negb (isVisible p) then None
  else
    match status p with
    | None => None
    | Some st =>
        let content := getContent p st in
        Some (content, if showConfidence content then k2Confidence p else None)
    end.

End EscalationCard.

(** ** What the panel derives from its state when it renders *)

Module Panel.

Import Sidebar.






(** A request is for conversation [c], which is not the empty one. *)
Definition targets (c : string) (o : Obs) : Prop :=
  match o with
  | ObsMetricsFetch _ c' | ObsK2Fetch _ c' => c' = c ∧ c' ≠ ""
  | ObsSetEscalation _ _ => True
  end.


(** [s'] shows the conversation of [s] and has added to the trace
    only requests for [c]. *)
Record extends (c : string) (s s' : State) : Prop := {
  ex_conversation : conversationId (view s') = conversationId (view s);
  ex_trace : ∃ l, trace s' = trace s ++ l ∧ Forall (targets c) l
}.

End Panel.

(** ** From the page to the backend *)

Module Pipeline.

(** A task of the system that keeps the page on conversation [c]. *)
Definition on_conversation (c : string) (ev : System.Event) : bool :=
  match ev with
  | System.Page ev => Scans.stays c ev
  | _ => true
  end.

(** The messages of the page that the worker has received. *)
Definition received (s : System.State) : list ContentScript.Message :=
  take (System.delivered s) (ContentScript.sent (System.page s)).

(** The turns of the messages for conversation [c]. *)
Definition turns_for (c : string) (l : list ContentScript.Message) : list Turn :=
  l ≫= (λ m, if decide (ContentScript.conversationId m = c)
             then ContentScript.turns m else []).

(** What holds of a system whose page stays on conversation [c]:
    everything sent is labelled [c] and goes up the page, and the
    worker has been given exactly the messages received. *)
Record piped (c : string) (s : System.State) : Prop := {
  pp_conversation : ContentScript.currentConversationId (System.page s) = c;
  pp_href : extractConversationId (ContentScript.href (System.page s)) = c;
  pp_label : ∀ m, m ∈ ContentScript.sent (System.page s) →
             ContentScript.conversationId m = c;
  pp_order :
    Scans.ascending 0 (id <$> Scans.turns_sent (ContentScript.sent (System.page s))) = true;
  pp_mark :
    ContentScript.lastSeenTurnId (System.page s) =
    List.last (id <$> Scans.turns_sent (ContentScript.sent (System.page s))) 0;
  pp_bound : (System.delivered s ≤ length (ContentScript.sent (System.page s)))%nat;
  pp_worker : ∃ tasks,
    System.worker s = Background.run Background.initial tasks ∧
    ∀ c', Background.enqueued c' tasks = turns_for c' (received s)
}.

End Pipeline.

(** ** The schedule of the panel's timers *)

Module Schedule.

Import Sidebar.




End Schedule.

(** ** Lists used as allocation tables *)

Module ListFacts.

Lemma lookup_snoc {A} (l : list A) x n : n = length l → (l ++ [x]) !! n = Some x.
Proof. intros ->. by apply list_lookup_middle. Qed.

Lemma insert_snoc {A} (l : list A) x y n : n = length l → <[n := y]> (l ++ [x]) = l ++ [y].
Proof.
  intros ->. rewrite insert_app_r_alt by lia.
  by replace (length l - length l)%nat with O by lia.
Qed.

Lemma omap_insert_skip {A B} (f : A → option B) (l : list A) i x y :
  l !! i = Some y → f y = None → f x = None → omap f (<[i := x]> l) = omap f l.
Proof.
  revert i. induction l as [|a l IH]; intros [|i] Hi Hy Hx; simplify_eq/=.
  - by rewrite Hy, Hx.
  - by rewrite (IH i).
Qed.

Lemma omap_insert_single {A B} (f : A → option B) (l : list A) i x y k :
  l !! i = Some y → f y = Some k → omap f l = [k] → f x = None →
  omap f (<[i := x]> l) = [].
Proof.
  revert i. induction l as [|a l IH]; intros [|i] Hi Hy Hl Hx; simplify_eq/=.
  - rewrite Hy in Hl. rewrite Hx. by simplify_eq.
  - destruct (f a) eqn:Ha.
    + assert (omap f l = []) as Hnil by congruence.
      assert (k ∈ omap f l) as Hin.
      { apply list_elem_of_omap. exists y. split; [by eapply list_elem_of_lookup_2|done]. }
      rewrite Hnil in Hin. by apply elem_of_nil in Hin.
    + by apply (IH i).
Qed.


End ListFacts.

(** ** Facts about the service worker *)

Module BackgroundFacts.

Import Background ListFacts.

Section Checkpoint.

Lemma sum_reactions_insert (l : list PromiseState) p x y :
  l !! p = Some y →
  (sum_list (reactions_of <$> <[p := x]> l) + reactions_of y
   = sum_list (reactions_of <$> l) + reactions_of x)%nat.
Proof.
  revert p. induction l as [|a l IH]; intros [|p] Hp; simplify_eq/=; try lia.
  specialize (IH _ Hp). lia.
Qed.

Lemma work_resolve p s : work (resolve p s) = work s.
Proof.
  unfold resolve. destruct (promises s !! p) as [[rs|]|] eqn:Hp; try done.
  unfold work; cbn. rewrite length_app.
  pose proof (sum_reactions_insert _ p Fulfilled _ Hp) as H. cbn in H. lia.
Qed.

Lemma work_batchLoop next c turns s : work (batchLoop next c turns s) = work s.
Proof. destruct turns; cbn; [apply work_resolve | done]. Qed.

Lemma work_runReaction r s : work (runReaction r s) = work s.
Proof.
  destruct r; cbn; [apply work_batchLoop | | done].
  by case_decide.
Qed.

Lemma work_pop r q s :
  microtasks s = r :: q → work s = S (work (runReaction r (set_microtasks q s))).
Proof. intros H. rewrite work_runReaction. unfold work. rewrite H. done. Qed.

Lemma drain_enough n s : (work s ≤ n)%nat → drain n s = settle s.
Proof.
  unfold settle. revert s. induction n as [|n IH]; intros s Hn.
  - by replace (work s) with O by lia.
  - destruct (microtasks s) as [|r q] eqn:Hq.
    + cbn. rewrite Hq. destruct (work s); cbn; by rewrite ?Hq.
    + rewrite (work_pop _ _ _ Hq) in Hn |- *. cbn. rewrite Hq.
      rewrite IH by lia. done.
Qed.

Lemma settle_nil s : microtasks s = [] → settle s = s.
Proof. intros H. unfold settle. destruct (work s); cbn; by rewrite ?H. Qed.

Lemma settle_cons r q s :
  microtasks s = r :: q → settle s = settle (runReaction r (set_microtasks q s)).
Proof.
  intros H. unfold settle at 1. rewrite (work_pop _ _ _ H). cbn. rewrite H. done.
Qed.

(** The checkpoint always terminates with an empty microtask queue. *)
Lemma settle_quiet s : microtasks (settle s) = [].
Proof.
  remember (work s) as n eqn:Hn. revert s Hn.
  induction n as [|n IH]; intros s Hn.
  - destruct (microtasks s) as [|r q] eqn:Hq; [by rewrite settle_nil|].
    rewrite (work_pop _ _ _ Hq) in Hn. done.
  - destruct (microtasks s) as [|r q] eqn:Hq; [by rewrite settle_nil|].
    rewrite (settle_cons _ _ _ Hq). apply IH.
    rewrite (work_pop _ _ _ Hq) in Hn. lia.
Qed.

End Checkpoint.

Section Order.

#[local] Arguments settle : simpl never.

Lemma fifo_app c b cur l1 l2 :
  fifo c b cur (l1 ++ l2) = '(b', cur') ← fifo c b cur l1; fifo c b' cur' l2.
Proof.
  revert b cur. induction l1 as [|o l1 IH]; intros b cur; [done|].
  destruct o; cbn; try apply IH;
    repeat (case_decide || case_match); simplify_eq/=; try done; apply IH.
Qed.

Lemma fifo_more c b cur l b' cur' x :
  fifo c b cur l = Some (b', cur') → fifo c (b ++ x) cur l = Some (b' ++ x, cur').
Proof.
  revert b cur. induction l as [|o l IH]; intros b cur H; [by simplify_eq/=|].
  destruct o; cbn in *; try by apply IH.
  - case_decide; [|by apply IH].
    destruct cur as [t'|]; [case_decide; [by apply IH|done]|].
    destruct b as [|t' b]; [done|]. cbn. case_decide; [by apply IH|done].
  - case_decide; [|by apply IH].
    destruct cur as [t'|]; [case_decide; [by apply IH|done]|done].
Qed.

Lemma fifo_silent c b cur l : Forall (silent c) l → fifo c b cur l = Some (b, cur).
Proof.
  induction 1 as [|o l Ho _ IH]; [done|].
  destruct o; cbn in *; try done; by case_decide.
Qed.

Lemma fifo_snoc_silent c b cur tr l :
  Forall (silent c) l → fifo c b cur (tr ++ l) = fifo c b cur tr.
Proof.
  intros H. rewrite fifo_app. destruct (fifo c b cur tr) as [[b' cur']|]; [|done].
  cbn. by apply fifo_silent.
Qed.

Lemma active_app c o s : active c (set_ops (ops s ++ [o]) s) = active c s ++ option_list (owned c o).
Proof. unfold active; cbn. rewrite omap_app. cbn. by destruct (owned c o). Qed.


Lemma same_for_trans c s1 s2 s3 : same_for c s1 s2 → same_for c s2 s3 → same_for c s1 s3.
Proof.
  intros [A1 Q1 P1 T1] [A2 Q2 P2 T2]. split.
  - by rewrite A2.
  - by rewrite Q2.
  - eauto.
  - intros. by rewrite T2.
Qed.

Lemma chain_same c s s' p tl : same_for c s s' → chain s c p tl → chain s' c p tl.
Proof.
  intros [_ Q P _]. revert p. induction tl as [|[n turns] tl IH]; intros p; cbn.
  - intros [Hp Hq]. split; [by apply P | by rewrite Q].
  - intros (Hp & Hlt & Hc). eauto.
Qed.

Lemma conv_ok_same b c s s' : same_for c s s' → conv_ok b s c → conv_ok b s' c.
Proof.
  intros Hs [Ha Hq Hf|k tl Ha Hc Hf].
  - apply conv_idle; [by rewrite (sf_active _ _ _ Hs)|by rewrite (sf_queue _ _ _ Hs)|
                      by rewrite (sf_trace _ _ _ Hs)].
  - eapply conv_busy; [by rewrite (sf_active _ _ _ Hs)|by eapply chain_same|
                       by rewrite (sf_trace _ _ _ Hs)].
Qed.

Lemma same_for_emit c o s : Forall (silent c) o → same_for c s (emit o s).
Proof. intros H. split; try done. intros. cbn. by apply fifo_snoc_silent. Qed.

Lemma same_for_push c o s : owned c o = None → same_for c s (set_ops (ops s ++ [o]) s).
Proof. intros H. split; try done. rewrite active_app, H. apply app_nil_r. Qed.

Lemma same_for_done c op o s :
  ops s !! op = Some o → owned c o = None →
  same_for c s (set_ops (<[op := OpDone]> (ops s)) s).
Proof. intros Ho H. split; try done. unfold active; cbn. by eapply omap_insert_skip. Qed.

Lemma same_for_new_promise c st s : same_for c s (new_promise st s).2.
Proof. split; try done. intros p rs Hp. cbn. by apply lookup_app_l_Some. Qed.

Lemma same_for_set_queue c c0 v s :
  c0 ≠ c → same_for c s (set_queues (<[c0 := v]> (processingQueues s)) s).
Proof. intros H. split; try done. cbn. by rewrite lookup_insert_ne. Qed.

Lemma same_for_delete_queue c c0 s :
  c0 ≠ c → same_for c s (set_queues (delete c0 (processingQueues s)) s).
Proof. intros H. split; try done. cbn. by rewrite lookup_delete_ne. Qed.

Lemma same_for_react c p r s : foreign c s p → same_for c s (react p r s).
Proof.
  intros H. unfold react. destruct (promises s !! p) as [[rs|]|] eqn:Hp; split; try done.
  intros q rs' Hq. cbn. rewrite list_lookup_insert_ne; [done|].
  intros ->. by apply (H rs').
Qed.

Lemma same_for_resolve c p s : foreign c s p → same_for c s (resolve p s).
Proof.
  intros H. unfold resolve. destruct (promises s !! p) as [[rs|]|] eqn:Hp; split; try done.
  intros q rs' Hq. cbn. rewrite list_lookup_insert_ne; [done|].
  intros ->. by apply (H rs').
Qed.

Lemma same_for_set_microtasks c q s : same_for c s (set_microtasks q s).
Proof. by split. Qed.


Lemma chain_above c s s' p tl :
  (∀ q, (p ≤ q)%nat → promises s' !! q = promises s !! q) →
  processingQueues s' !! c = processingQueues s !! c →
  chain s c p tl → chain s' c p tl.
Proof.
  intros HP HQ. revert p HP. induction tl as [|[n turns] tl IH]; intros p HP; cbn.
  - intros [Hp Hq]. split; [by rewrite HP | by rewrite HQ].
  - intros (Hp & Hlt & Hc). split_and!; [by rewrite HP|done|].
    apply IH; [|done]. intros q Hq. apply HP. lia.
Qed.

Lemma chain_tail c s p tl :
  chain s c p tl → ∃ q, (p ≤ q)%nat ∧ processingQueues s !! c = Some q.
Proof.
  revert p. induction tl as [|[n turns] tl IH]; intros p; cbn.
  - intros [_ Hq]. eauto.
  - intros (_ & Hlt & Hc). destruct (IH _ Hc) as (q & Hq & HQ). exists q. split; [lia|done].
Qed.

Lemma chain_head c s p tl :
  chain s c p tl → ∃ rs, promises s !! p = Some (Pending (RCleanup c p :: rs)).
Proof. destruct tl as [|[n turns] tl]; cbn; intros H; destruct_and!; eauto. Qed.

Lemma owned_Some c o k : owned c o = Some k → frame_of o = Some k ∧ k_conv k = c.
Proof. unfold owned. destruct (frame_of o); [|done]. case_decide; naive_solver. Qed.

Lemma owned_frame o k : frame_of o = Some k → owned (k_conv k) o = Some k.
Proof. unfold owned. intros ->. by rewrite decide_True. Qed.

Lemma owned_other c o k : frame_of o = Some k → k_conv k ≠ c → owned c o = None.
Proof. unfold owned. intros ->. intros. by rewrite decide_False. Qed.

Lemma active_lookup c s op o k :
  ops s !! op = Some o → owned c o = Some k → k ∈ active c s.
Proof.
  intros Ho Hk. unfold active. apply list_elem_of_omap. exists o. split; [|done].
  by eapply list_elem_of_lookup_2.
Qed.

Lemma foreign_chain c c0 s p tl : c0 ≠ c → chain s c0 p tl → foreign c s p.
Proof.
  intros Hne Hc rs Hp. destruct (chain_head _ _ _ _ Hc) as [rs' Hp'].
  rewrite Hp in Hp'. naive_solver.
Qed.



(** A network attempt for the turn in hand keeps the conversation in
    order. *)
Lemma attempt_ok c0 b s n t retries rest tl :
  microtasks s = [] → active c0 s = [] → chain s c0 n tl →
  fifo c0 b None (trace s ++ [ObsFetch c0 t]) = Some (rest ++ turns_of tl, Some t) →
  let s' := settle (analyzeTurn n c0 t retries rest s) in
  conv_ok b s' c0 ∧ ∀ c, c0 ≠ c → same_for c s s'.
Proof.
  intros Hq Ha Hc Hf. cbn zeta. unfold analyzeTurn. rewrite settle_nil by done. split.
  - eapply conv_busy with (k := {| k_next := n |}) (tl := tl); [| |exact Hf].
    + unfold active in *; cbn. rewrite omap_app, Ha. cbn.
      unfold owned; cbn. by rewrite decide_True.
    + eapply chain_above; [| |exact Hc]; done.
  - intros c Hne. eapply same_for_trans;
      [apply same_for_emit|apply (same_for_push c _ (emit _ s))].
    + by repeat constructor.
    + cbn. unfold owned; cbn. by rewrite decide_False.
Qed.

(** Fulfilling the promise of a finished batch starts the next batch
    of the chain that has a turn, or leaves the conversation idle. *)
Lemma finish c0 b tl : ∀ s p,
  microtasks s = [] → active c0 s = [] → chain s c0 p tl →
  fifo c0 b None (trace s) = Some (turns_of tl, None) →
  conv_ok b (settle (resolve p s)) c0 ∧
  ∀ c, c0 ≠ c → same_for c s (settle (resolve p s)).
Proof.
  induction tl as [|[n turns] tl IH]; intros s p Hq Ha Hc Hf; cbn in Hc.
  - destruct Hc as [Hp HQ]. unfold resolve. rewrite Hp, Hq. cbn.
    erewrite settle_cons by (cbn; reflexivity). cbn. rewrite decide_True by done.
    erewrite settle_cons by reflexivity. cbn. rewrite settle_nil by done.
    split.
    + apply conv_idle; cbn; [done|by rewrite lookup_delete_eq|].
      rewrite fifo_snoc_silent; [done|]. by repeat constructor.
    + intros c Hne. split; cbn; [done|by rewrite lookup_delete_ne| |].
      * intros q rs Hq'. rewrite list_lookup_insert_ne; [done|].
        intros Heq. subst q. rewrite Hp in Hq'. congruence.
      * intros. apply fifo_snoc_silent. by repeat constructor.
  - destruct Hc as (Hp & Hlt & Hc).
    destruct (chain_tail _ _ _ _ Hc) as (q & Hle & HQ).
    unfold resolve. rewrite Hp, Hq. cbn.
    erewrite settle_cons by (cbn; reflexivity). cbn.
    rewrite decide_False by (rewrite HQ; intros [= Heq]; lia).
    erewrite settle_cons by reflexivity. cbn.
    erewrite settle_cons by reflexivity. cbn.
    match goal with |- context [batchLoop _ _ _ ?x] => set (s2 := x) end.
    assert (∀ c, c0 ≠ c → same_for c s s2) as Hs2.
    { intros c Hne. split; cbn; try done.
      - intros q' rs Hq'. rewrite list_lookup_insert_ne; [done|].
        intros Heq. subst q'. rewrite Hp in Hq'. congruence.
      - intros. apply fifo_snoc_silent. by repeat constructor. }
    assert (chain s2 c0 n tl) as Hc2.
    { eapply chain_above; [| |exact Hc]; cbn; [|done].
      intros q' Hq'. apply list_lookup_insert_ne. lia. }
    assert (fifo c0 b None (trace s2) = Some (turns ++ turns_of tl, None)) as Hf2.
    { subst s2; cbn. rewrite fifo_snoc_silent; [done|]. by repeat constructor. }
    assert (microtasks s2 = [] ∧ active c0 s2 = []) as [Hq2 Ha2] by done.
    clearbody s2.
    destruct turns as [|t rest]; cbn [batchLoop].
    + destruct (IH s2 n) as [Hok Hsame]; try done.
      split; [done|]. intros c Hne. eapply same_for_trans; eauto.
    + destruct (attempt_ok c0 b s2 n t 0 rest tl) as [Hok Hsame]; try done.
      { rewrite fifo_app, Hf2. cbn. by rewrite !decide_True. }
      split; [done|]. intros c Hne. eapply same_for_trans; eauto.
Qed.

(** The batch loop after the turn in hand has settled. *)
Lemma continue_ok c0 b s n rest tl :
  microtasks s = [] → active c0 s = [] → chain s c0 n tl →
  fifo c0 b None (trace s) = Some (rest ++ turns_of tl, None) →
  let s' := settle (batchLoop n c0 rest s) in
  conv_ok b s' c0 ∧ ∀ c, c0 ≠ c → same_for c s s'.
Proof.
  intros Hq Ha Hc Hf. destruct rest as [|t rest]; cbn [batchLoop].
  - by apply (finish c0 b tl).
  - apply (attempt_ok c0 b s n t 0 rest tl); try done. rewrite fifo_app, Hf. cbn. by rewrite !decide_True.
Qed.

Lemma active_busy c b s op o k :
  conv_ok b s c → ops s !! op = Some o → owned c o = Some k →
  ∃ tl, active c s = [k] ∧ chain s c (k_next k) tl ∧
        fifo c b None (trace s) = Some (k_rest k ++ turns_of tl, Some (k_turn k)).
Proof.
  intros Hok Ho Hk. pose proof (active_lookup _ _ _ _ _ Ho Hk) as Hin.
  destruct Hok as [Ha _ _|k' tl Ha Hc Hf]; rewrite Ha in Hin.
  - by apply elem_of_nil in Hin.
  - apply list_elem_of_singleton in Hin. subst k'. eauto.
Qed.

Lemma active_done c s op o k :
  ops s !! op = Some o → owned c o = Some k → active c s = [k] →
  active c (set_ops (<[op := OpDone]> (ops s)) s) = [].
Proof. intros Ho Hk Ha. unfold active in *; cbn. by eapply omap_insert_single. Qed.

Lemma timer_ok B s op :
  microtasks s = [] → (∀ c, conv_ok (B c) s c) →
  ∀ c, conv_ok (B c) (step s (EvTimer op)) c.
Proof.
  intros Hq Hok c. unfold step; cbn [handle].
  destruct (ops s !! op) as [[k|k|]|] eqn:Ho; try (by rewrite settle_nil).
  pose proof (owned_frame (OpTimer k) k eq_refl) as Hk.
  destruct (active_busy _ _ _ _ _ _ (Hok (k_conv k)) Ho Hk) as (tl & Ha & Hc & Hf).
  unfold afterTimer.
  destruct (attempt_ok (k_conv k) (B (k_conv k)) (set_ops (<[op := OpDone]> (ops s)) s)
              (k_next k) (k_turn k) (k_retries k + 1) (k_rest k) tl) as [H1 H2]; try done.
  { by eapply active_done. }
  { eapply chain_above; [| |exact Hc]; done. }
  { cbn. rewrite fifo_app, Hf. cbn. by rewrite !decide_True. }
  destruct (decide (k_conv k = c)) as [<-|Hne]; [done|].
  eapply conv_ok_same; [|apply Hok].
  eapply same_for_trans; [|by apply H2].
  eapply same_for_done; [done|]. by eapply owned_other.
Qed.

Lemma fetch_ok B s op r :
  microtasks s = [] → (∀ c, conv_ok (B c) s c) →
  ∀ c, conv_ok (B c) (step s (EvFetchDone op r)) c.
Proof.
  intros Hq Hok c. unfold step; cbn [handle].
  destruct (ops s !! op) as [[k|k|]|] eqn:Ho; try (by rewrite settle_nil).
  pose proof (owned_frame (OpFetch k) k eq_refl) as Hk.
  destruct (active_busy _ _ _ _ _ _ (Hok (k_conv k)) Ho Hk) as (tl & Ha & Hc & Hf).
  pose proof (active_done _ _ _ _ _ Ho Hk Ha) as Ha1.
  assert (∀ c, k_conv k ≠ c → same_for c s (set_ops (<[op := OpDone]> (ops s)) s)) as Hs1.
  { intros c' Hne. eapply same_for_done; [done|]. by eapply owned_other. }
  set (s1 := set_ops (<[op := OpDone]> (ops s)) s) in *.
  assert (microtasks s1 = [] ∧ chain s1 (k_conv k) (k_next k) tl ∧
          fifo (k_conv k) (B (k_conv k)) None (trace s1)
          = Some (k_rest k ++ turns_of tl, Some (k_turn k))) as (Hq1 & Hc1 & Hf1).
  { split_and!; try done. eapply chain_above; [| |exact Hc]; done. }
  clearbody s1.
  assert (∀ o d, Forall (λ x, ∀ c', silent c' x) o →
    let s' := settle (batchLoop (k_next k) (k_conv k) (k_rest k)
                (emit (o ++ [ObsSettled (k_conv k) (k_turn k) d]) s1)) in
    conv_ok (B c) s' c) as Hsettled.
  { intros o d Ho'. cbn zeta.
    destruct (continue_ok (k_conv k) (B (k_conv k))
                (emit (o ++ [ObsSettled (k_conv k) (k_turn k) d]) s1)
                (k_next k) (k_rest k) tl) as [H1 H2]; try done.
    { eapply chain_above; [| |exact Hc1]; done. }
    { cbn. rewrite fifo_app, Hf1. cbn. rewrite fifo_app, fifo_silent.
      - cbn. by rewrite !decide_True.
      - eapply Forall_impl; [exact Ho'|]. cbn. eauto. }
    destruct (decide (k_conv k = c)) as [<-|Hne]; [done|].
    eapply conv_ok_same; [|apply Hok].
    eapply same_for_trans; [by apply Hs1|].
    eapply same_for_trans; [|by apply H2].
    apply same_for_emit. apply Forall_app. split.
    - eapply Forall_impl; [exact Ho'|]. cbn. eauto.
    - by repeat constructor. }
  assert (conv_ok (B c)
    (settle (if k_retries k <? MAX_RETRIES
             then set_ops (ops s1 ++ [OpTimer k])
                    (emit [ObsSetTimeout (k_conv k) (2000 * (k_retries k + 1))] s1)
             else batchLoop (k_next k) (k_conv k) (k_rest k)
                    (emit [ObsSettled (k_conv k) (k_turn k) false] s1))) c) as Hfail.
  { destruct (k_retries k <? MAX_RETRIES).
    - rewrite settle_nil by done.
      destruct (decide (k_conv k = c)) as [<-|Hne].
      + eapply conv_busy with (k := k) (tl := tl).
        * unfold active in *; cbn. rewrite omap_app, Ha1. cbn.
          unfold owned; cbn. by rewrite decide_True.
        * eapply chain_above; [| |exact Hc1]; done.
        * cbn. rewrite fifo_snoc_silent; [done|]. by repeat constructor.
      + eapply conv_ok_same; [|apply Hok].
        eapply same_for_trans; [by apply Hs1|].
        eapply same_for_trans;
          [apply same_for_emit|apply (same_for_push c _ (emit _ s1))].
        * by repeat constructor.
        * by eapply owned_other.
    - apply (Hsettled [] false). constructor. }
  unfold afterFetch. destruct r as [|[] [alerts|]]; try exact Hfail.
  apply Hsettled. unfold onResult. destruct alerts as [[|a l]|]; by repeat constructor.
Qed.

Lemma react_pending p r s rs :
  promises s !! p = Some (Pending rs) →
  react p r s = set_promises (<[p := Pending (rs ++ [r])]> (promises s)) s.
Proof. intros H. unfold react. by rewrite H. Qed.

Lemma react_fulfilled p r s :
  promises s !! p = Some Fulfilled →
  react p r s = set_microtasks (microtasks s ++ [r]) s.
Proof. intros H. unfold react. by rewrite H. Qed.

Lemma onMessage_idle c turns s :
  processingQueues s !! c = None →
  let n := S (length (promises s)) in
  onMessage c turns s =
  {| processingQueues := <[c := n]> (processingQueues s);
     promises := promises s ++ [Fulfilled; Pending [RCleanup c n; RRespond n]];
     microtasks := microtasks s ++ [RBatch n c turns];
     ops := ops s; trace := trace s |}.
Proof.
  intros HQ. unfold onMessage, handleNewTurns, new_promise. rewrite HQ.
  cbn [promises set_promises].
  assert (length (promises s ++ [Fulfilled]) = S (length (promises s))) as Hl.
  { rewrite length_app. cbn. lia. }
  rewrite Hl.
  rewrite (react_fulfilled (length (promises s)) (RBatch _ _ _));
    [|cbn; rewrite lookup_app_l by lia; by apply lookup_snoc].
  rewrite (react_pending (S (length (promises s))) (RCleanup _ _) _ []);
    [|cbn; by apply lookup_snoc].
  cbn. rewrite insert_snoc by done.
  rewrite (react_pending (S (length (promises s))) _ _ [RCleanup c (S (length (promises s)))]);
    [|cbn; by apply lookup_snoc].
  cbn. rewrite insert_snoc by done. by rewrite <- app_assoc.
Qed.

Lemma onMessage_busy c turns s q rs :
  processingQueues s !! c = Some q →
  promises s !! q = Some (Pending rs) →
  let n := length (promises s) in
  onMessage c turns s =
  {| processingQueues := <[c := n]> (processingQueues s);
     promises := <[q := Pending (rs ++ [RBatch n c turns])]> (promises s)
                 ++ [Pending [RCleanup c n; RRespond n]];
     microtasks := microtasks s;
     ops := ops s; trace := trace s |}.
Proof.
  intros HQ Hq. unfold onMessage, handleNewTurns, new_promise. rewrite HQ.
  pose proof (lookup_lt_Some _ _ _ Hq) as Hlt.
  rewrite (react_pending q (RBatch _ _ _) _ rs); [|cbn; by rewrite lookup_app_l].
  cbn. rewrite insert_app_l by done.
  rewrite (react_pending (length (promises s)) (RCleanup _ _) _ []);
    [|cbn; apply lookup_snoc; by rewrite length_insert].
  cbn. rewrite insert_snoc by (by rewrite length_insert).
  rewrite (react_pending (length (promises s)) _ _ [RCleanup c (length (promises s))]);
    [|cbn; apply lookup_snoc; by rewrite length_insert].
  cbn. by rewrite insert_snoc by (by rewrite length_insert).
Qed.

Lemma chain_queue c s p tl q :
  chain s c p tl → processingQueues s !! c = Some q →
  promises s !! q = Some (Pending [RCleanup c q; RRespond q]).
Proof.
  revert p. induction tl as [|[n turns] tl IH]; intros p; cbn.
  - intros [Hp HQ] HQ'. congruence.
  - intros (_ & _ & Hc) HQ. eauto.
Qed.

Lemma chain_extend c s s' q n turns tl : ∀ p,
  chain s c p tl →
  processingQueues s !! c = Some q →
  (length (promises s) ≤ n)%nat →
  (∀ x, x ≠ q → (x < length (promises s))%nat → promises s' !! x = promises s !! x) →
  promises s' !! q = Some (Pending [RCleanup c q; RRespond q; RBatch n c turns]) →
  promises s' !! n = Some (Pending [RCleanup c n; RRespond n]) →
  processingQueues s' !! c = Some n →
  chain s' c p (tl ++ [(n, turns)]).
Proof.
  intros p Hc HQ Hn Hsame Hq' Hn' HQ'. revert p Hc.
  induction tl as [|[m ts] tl IH]; intros p; cbn.
  - intros [Hp HQp]. assert (p = q) as -> by congruence.
    split_and!; [done| |done|done]. apply lookup_lt_Some in Hp. lia.
  - intros (Hp & Hlt & Hc). pose proof (chain_queue _ _ _ _ _ Hc HQ) as Hq.
    split_and!; [|done|by apply IH].
    rewrite Hsame; [done| |by eapply lookup_lt_Some].
    intros ->. congruence.
Qed.

Lemma turns_of_snoc tl n turns : turns_of (tl ++ [(n, turns)]) = turns_of tl ++ turns.
Proof. unfold turns_of. rewrite bind_app. cbn. by rewrite app_nil_r. Qed.

Lemma message_ok B s c0 turns :
  microtasks s = [] → (∀ c, conv_ok (B c) s c) →
  ∀ c, conv_ok (B c ++ enqueued_by c (EvMessage c0 turns))
         (step s (EvMessage c0 turns)) c.
Proof.
  intros Hq Hok c. unfold step; cbn [handle enqueued_by].
  destruct (Hok c0) as [Ha HQ Hf|k tl Ha Hc Hf].
  - rewrite onMessage_idle by done. rewrite Hq. cbn.
    erewrite settle_cons by reflexivity. cbn [runReaction set_microtasks].
    match goal with |- context [batchLoop ?n _ _ ?x] => set (s1 := x); set (n1 := n) end.
    cbn in s1.
    assert (∀ c, c0 ≠ c → same_for c s s1) as Hs1.
    { intros c' Hne. split; cbn; try done.
      - by rewrite lookup_insert_ne.
      - intros p rs Hp. by apply lookup_app_l_Some. }
    destruct (continue_ok c0 (B c0 ++ turns) s1 n1 turns []) as [H1 H2]; try done.
    { cbn. split; [|by rewrite lookup_insert_eq].
      subst n1. rewrite lookup_app_r by lia.
      by replace (S (length (promises s)) - length (promises s))%nat with 1%nat by lia. }
    { cbn. rewrite app_nil_r. by apply (fifo_more _ _ _ _ _ _ turns) in Hf. }
    case_decide as Hd.
    + by subst c.
    + rewrite app_nil_r. eapply conv_ok_same; [|apply Hok].
      eapply same_for_trans; [by apply Hs1|by apply H2].
  - destruct (chain_tail _ _ _ _ Hc) as (q & Hle & HQ).
    pose proof (chain_queue _ _ _ _ _ Hc HQ) as Hpq.
    rewrite (onMessage_busy _ _ _ _ _ HQ Hpq). cbn. rewrite settle_nil by done.
    pose proof (lookup_lt_Some _ _ _ Hpq) as Hlt.
    case_decide as Hd.
    + subst c. eapply conv_busy with (k := k) (tl := tl ++ [(length (promises s), turns)]).
      * done.
      * eapply chain_extend; try done; cbn.
        -- intros x Hx Hxl. rewrite lookup_app_l by (by rewrite length_insert).
           by apply list_lookup_insert_ne.
        -- rewrite lookup_app_l by (by rewrite length_insert).
           by apply list_lookup_insert_eq.
        -- apply list_lookup_middle. by rewrite length_insert.
        -- by rewrite lookup_insert_eq.
      * cbn. rewrite turns_of_snoc, app_assoc. by apply fifo_more.
    + rewrite app_nil_r. eapply conv_ok_same; [|apply Hok].
      split; cbn; try done.
      * by rewrite lookup_insert_ne.
      * intros p rs Hp. apply lookup_app_l_Some.
        rewrite list_lookup_insert_ne; [done|]. intros ->. congruence.
Qed.

(** *** Tasks of one conversation leave the others alone *)





(** The order invariant is kept by every task. *)
Lemma step_ok B s ev :
  microtasks s = [] → (∀ c, conv_ok (B c) s c) →
  microtasks (step s ev) = [] ∧
  ∀ c, conv_ok (B c ++ enqueued_by c ev) (step s ev) c.
Proof.
  intros Hq Hok. split; [apply settle_quiet|]. intros c. destruct ev; cbn [enqueued_by].
  - by apply message_ok.
  - rewrite app_nil_r. by apply fetch_ok.
  - rewrite app_nil_r. by apply timer_ok.
Qed.

Lemma run_snoc s evs ev : run s (evs ++ [ev]) = step (run s evs) ev.
Proof. unfold run. by rewrite fold_left_app. Qed.

Lemma enqueued_snoc c evs ev : enqueued c (evs ++ [ev]) = enqueued c evs ++ enqueued_by c ev.
Proof. unfold enqueued. rewrite bind_app. cbn. by rewrite app_nil_r. Qed.

Lemma run_ok evs :
  microtasks (run initial evs) = [] ∧
  ∀ c, conv_ok (enqueued c evs) (run initial evs) c.
Proof.
  induction evs as [|ev evs IH] using rev_ind.
  - split; [done|]. intros c. by apply conv_idle.
  - destruct IH as [Hq Hok]. rewrite run_snoc.
    destruct (step_ok (λ c, enqueued c evs) _ ev Hq Hok) as [Hq' Hok'].
    split; [done|]. intros c. rewrite enqueued_snoc. apply Hok'.
Qed.

End Order.

Section Delivery.

#[local] Arguments settle : simpl never.

Lemma step_retry s op k r :
  microtasks s = [] → ops s !! op = Some (OpFetch k) →
  failed r = true → k_retries k < MAX_RETRIES →
  step s (EvFetchDone op r)
  = set_ops (<[op := OpDone]> (ops s) ++ [OpTimer k])
      (emit [ObsSetTimeout (k_conv k) (2000 * (k_retries k + 1))] s).
Proof.
  intros Hq Ho Hr Hlt. unfold step; cbn [handle]. rewrite Ho. unfold afterFetch.
  apply Z.ltb_lt in Hlt. rewrite Hlt.
  destruct r as [|[] [b|]]; try done; by rewrite settle_nil.
Qed.

Lemma step_give_up s op k r :
  microtasks s = [] → ops s !! op = Some (OpFetch k) →
  failed r = true → ¬ k_retries k < MAX_RETRIES →
  step s (EvFetchDone op r)
  = settle (batchLoop (k_next k) (k_conv k) (k_rest k)
              (emit [ObsSettled (k_conv k) (k_turn k) false]
                 (set_ops (<[op := OpDone]> (ops s)) s))).
Proof.
  intros Hq Ho Hr Hlt. unfold step; cbn [handle]. rewrite Ho. unfold afterFetch.
  apply Z.ltb_nlt in Hlt. rewrite Hlt.
  by destruct r as [|[] [b|]].
Qed.

Lemma step_timer s op k :
  microtasks s = [] → ops s !! op = Some (OpTimer k) →
  step s (EvTimer op)
  = analyzeTurn (k_next k) (k_conv k) (k_turn k) (k_retries k + 1) (k_rest k)
      (set_ops (<[op := OpDone]> (ops s)) s).
Proof.
  intros Hq Ho. unfold step; cbn [handle]. rewrite Ho. unfold afterTimer.
  by rewrite settle_nil.
Qed.

(** One failed attempt followed by the expiry of its back-off timer. *)
Lemma retry_round s op k r :
  microtasks s = [] → ops s !! op = Some (OpFetch k) →
  failed r = true → k_retries k < MAX_RETRIES →
  run s [EvFetchDone op r; EvTimer (length (ops s))]
  = {| processingQueues := processingQueues s; promises := promises s;
       microtasks := [];
       ops := (<[op := OpDone]> (ops s) ++ [OpDone]) ++
              [OpFetch {| k_next := k_next k; k_conv := k_conv k; k_turn := k_turn k;
                          k_retries := k_retries k + 1; k_rest := k_rest k |}];
       trace := (trace s ++ [ObsSetTimeout (k_conv k) (2000 * (k_retries k + 1))])
                ++ [ObsFetch (k_conv k) (k_turn k)] |}.
Proof.
  intros Hq Ho Hr Hlt. cbn [run fold_left]. rewrite (step_retry _ _ _ _ Hq Ho Hr Hlt).
  erewrite step_timer; [|done|cbn; apply lookup_snoc; by rewrite length_insert].
  unfold analyzeTurn, set_ops, emit. cbn. rewrite Hq.
  by rewrite insert_snoc by (by rewrite length_insert).
Qed.

Lemma run_two s e1 e2 evs : run s (e1 :: e2 :: evs) = run (run s [e1; e2]) evs.
Proof. done. Qed.

Lemma four_attempts s op k r1 r2 r3 r4 :
  microtasks s = [] → ops s !! op = Some (OpFetch k) → k_retries k = 0 →
  failed r1 = true → failed r2 = true → failed r3 = true → failed r4 = true →
  let n := length (ops s) in
  run s [EvFetchDone op r1; EvTimer n;
         EvFetchDone (n + 1) r2; EvTimer (n + 2);
         EvFetchDone (n + 3) r3; EvTimer (n + 4);
         EvFetchDone (n + 5) r4]
  = settle (batchLoop (k_next k) (k_conv k) (k_rest k)
      {| processingQueues := processingQueues s; promises := promises s;
         microtasks := [];
         ops := <[op := OpDone]> (ops s) ++ replicate 6 OpDone;
         trace := trace s ++
           [ObsSetTimeout (k_conv k) 2000; ObsFetch (k_conv k) (k_turn k);
            ObsSetTimeout (k_conv k) 4000; ObsFetch (k_conv k) (k_turn k);
            ObsSetTimeout (k_conv k) 6000; ObsFetch (k_conv k) (k_turn k);
            ObsSettled (k_conv k) (k_turn k) false] |}).
Proof.
  intros Hq Ho Hk H1 H2 H3 H4 n. subst n.
  pose proof (lookup_lt_Some _ _ _ Ho) as Hop.
  rewrite run_two, (retry_round _ _ _ _ Hq Ho H1) by (rewrite Hk; done).
  set (l0 := <[op := OpDone]> (ops s)).
  assert (length l0 = length (ops s)) as Hl0 by apply length_insert.
  rewrite <- Hl0. rewrite Hk.
  rewrite run_two.
  match goal with |- context [run ?x [EvFetchDone ?i r2; EvTimer ?j]] =>
    replace j with (length (ops x)) by (cbn; rewrite !length_app; cbn; lia);
    erewrite (retry_round x i _ r2); [|done|cbn; apply lookup_snoc; rewrite length_app; cbn; lia|done|done]
  end.
  cbn [k_next k_conv k_turn k_retries k_rest processingQueues promises ops trace].
  rewrite run_two.
  match goal with |- context [run ?x [EvFetchDone ?i r3; EvTimer ?j]] =>
    replace j with (length (ops x)) by (cbn; rewrite !length_app, length_insert, !length_app; cbn; lia);
    erewrite (retry_round x i _ r3); [|done|cbn; apply lookup_snoc; rewrite !length_app, length_insert, !length_app; cbn; lia|done|done]
  end.
  cbn [k_next k_conv k_turn k_retries k_rest processingQueues promises ops trace].
  cbn [run fold_left].
  erewrite step_give_up;
    [|done|cbn; apply lookup_snoc; rewrite !length_app, !length_insert, !length_app,
                length_insert, !length_app; cbn; lia|done|done].
  cbn [k_next k_conv k_turn k_retries k_rest processingQueues promises ops trace].
  f_equal. f_equal. unfold emit, set_ops. cbn. f_equal.
  - rewrite !insert_snoc by (rewrite ?length_app, ?length_insert, ?length_app, ?length_insert,
                               ?length_app; cbn; lia).
    rewrite <- !app_assoc. done.
  - rewrite <- !app_assoc. done.
Qed.

Lemma handleNewTurns_idle c turns s :
  processingQueues s !! c = None →
  let n := S (length (promises s)) in
  handleNewTurns c turns s =
  (n, {| processingQueues := <[c := n]> (processingQueues s);
         promises := promises s ++ [Fulfilled; Pending [RCleanup c n]];
         microtasks := microtasks s ++ [RBatch n c turns];
         ops := ops s; trace := trace s |}).
Proof.
  intros HQ. unfold handleNewTurns, new_promise. rewrite HQ.
  cbn [promises set_promises].
  assert (length (promises s ++ [Fulfilled]) = S (length (promises s))) as Hl.
  { rewrite length_app. cbn. lia. }
  rewrite Hl.
  rewrite (react_fulfilled (length (promises s)) (RBatch _ _ _));
    [|cbn; rewrite lookup_app_l by lia; by apply lookup_snoc].
  rewrite (react_pending (S (length (promises s))) (RCleanup _ _) _ []);
    [|cbn; by apply lookup_snoc].
  cbn. rewrite insert_snoc by done. by rewrite <- app_assoc.
Qed.

End Delivery.

Section Claims.

#[local] Arguments settle : simpl never.

(** The replay accepts what it should and nothing else: retries of the
    turn in hand are fine, skipping ahead and overlapping are not. *)
Example fifo_accepts :
  fifo "abc" [Samples.t1; Samples.t2] None
    [ObsFetch "abc" Samples.t1; ObsSetTimeout "abc" 2000; ObsFetch "abc" Samples.t1;
     ObsSettled "abc" Samples.t1 true; ObsFetch "abc" Samples.t2]
  = Some ([], Some Samples.t2).
Proof. reflexivity. Qed.

Example fifo_rejects_reordering :
  fifo "abc" [Samples.t1; Samples.t2] None [ObsFetch "abc" Samples.t2] = None.
Proof. reflexivity. Qed.

Example fifo_rejects_overlap :
  fifo "abc" [Samples.t1; Samples.t2] None
    [ObsFetch "abc" Samples.t1; ObsFetch "abc" Samples.t2] = None.
Proof. reflexivity. Qed.


(** C2. A submission that fails at every attempt: the first failure is
    followed by a 2000 ms timer and a second attempt, then 4000 ms and
    a third, then 6000 ms and a fourth; when the fourth fails no timer
    is armed, the turn settles as given up, and the batch loop goes on
    with the turns after it in the same task.  When the batch has a
    next turn, its first attempt is the next thing issued, and the
    dropped turn is in no pending operation. *)
Theorem bounded_retry s op k r1 r2 r3 r4 :
  microtasks s = [] → ops s !! op = Some (OpFetch k) → k_retries k = 0 →
  failed r1 = true → failed r2 = true → failed r3 = true → failed r4 = true →
  let n := length (ops s) in
  let c := k_conv k in
  let t := k_turn k in
  let attempts :=
    [ObsSetTimeout c 2000; ObsFetch c t; ObsSetTimeout c 4000; ObsFetch c t;
     ObsSetTimeout c 6000; ObsFetch c t; ObsSettled c t false] in
  let s' := run s [EvFetchDone op r1; EvTimer n;
                   EvFetchDone (n + 1) r2; EvTimer (n + 2);
                   EvFetchDone (n + 3) r3; EvTimer (n + 4);
                   EvFetchDone (n + 5) r4] in
  s' = settle (batchLoop (k_next k) c (k_rest k)
         {| processingQueues := processingQueues s; promises := promises s;
            microtasks := [];
            ops := <[op := OpDone]> (ops s) ++ replicate 6 OpDone;
            trace := trace s ++ attempts |}) ∧
  ∀ t' rest', k_rest k = t' :: rest' →
    trace s' = trace s ++ attempts ++ [ObsFetch c t'] ∧
    ops s' = <[op := OpDone]> (ops s) ++ replicate 6 OpDone ++
             [OpFetch {| k_next := k_next k; k_conv := c; k_turn := t';
                         k_retries := 0; k_rest := rest' |}] ∧
    microtasks s' = [].
Proof.
  intros Hq Ho Hk H1 H2 H3 H4 n c t attempts s'.
  assert (s' = settle (batchLoop (k_next k) c (k_rest k)
         {| processingQueues := processingQueues s; promises := promises s;
            microtasks := [];
            ops := <[op := OpDone]> (ops s) ++ replicate 6 OpDone;
            trace := trace s ++ attempts |})) as Hs'
    by (by apply four_attempts).
  split; [done|]. intros t' rest' Hrest. rewrite Hs', Hrest.
  cbn [batchLoop]. unfold analyzeTurn. rewrite settle_nil by done.
  cbn. by rewrite <- !app_assoc.
Qed.

Lemma bounded_retry_witness :
  trace (run Samples.worker_busy
           [EvFetchDone 0 Samples.refused; EvTimer 1;
            EvFetchDone 2 NetworkError; EvTimer 3;
            EvFetchDone 4 (HttpResponse true None); EvTimer 5;
            EvFetchDone 6 Samples.refused])
  = [ObsFetch "abc" Samples.t1;
     ObsSetTimeout "abc" 2000; ObsFetch "abc" Samples.t1;
     ObsSetTimeout "abc" 4000; ObsFetch "abc" Samples.t1;
     ObsSetTimeout "abc" 6000; ObsFetch "abc" Samples.t1;
     ObsSettled "abc" Samples.t1 false; ObsFetch "abc" Samples.t2].
Proof.
  refine (proj1 (proj2 (bounded_retry Samples.worker_busy 0 Samples.first_frame
                          Samples.refused NetworkError (HttpResponse true None)
                          Samples.refused _ _ _ _ _ _ _) Samples.t2 [] _));
    reflexivity.
Defined.

(** C9, as stated, fails: [handleNewTurns] hands its promise back to
    the listener with the batch callback still in the microtask queue
    and no network attempt issued. *)
Lemma handleNewTurns_returns_before_first_attempt :
  let s := (handleNewTurns "abc" [Samples.t1] initial).2 in
  processingQueues initial !! "abc" = None ∧
  (ObsFetch "abc" Samples.t1 ∉ trace s) ∧ ops s = [] ∧
  microtasks s = [RBatch 1 "abc" [Samples.t1]].
Proof. cbn. split_and!; try done. apply not_elem_of_nil. Qed.

(** C9, amended. With no delivery running for [c], [handleNewTurns]
    returns without having issued anything, leaving the batch callback
    as a microtask; the checkpoint that ends the same task runs it, so
    the first attempt is issued before the runtime takes any other
    task (timer, message or network completion). *)
Theorem first_attempt_in_same_task s c t rest :
  microtasks s = [] → processingQueues s !! c = None →
  let next := S (length (promises s)) in
  let returned := (handleNewTurns c (t :: rest) s).2 in
  let s' := step s (EvMessage c (t :: rest)) in
  (handleNewTurns c (t :: rest) s).1 = next ∧
  trace returned = trace s ∧ ops returned = ops s ∧
  microtasks returned = [RBatch next c (t :: rest)] ∧
  trace s' = trace s ++ [ObsFetch c t] ∧
  ops s' = ops s ++ [OpFetch {| k_next := next; k_conv := c; k_turn := t;
                                k_retries := 0; k_rest := rest |}] ∧
  microtasks s' = [].
Proof.
  intros Hq HQ next returned s'. subst returned s'.
  rewrite (handleNewTurns_idle _ _ _ HQ). cbn [fst snd trace ops microtasks].
  rewrite Hq. split_and!; try done;
    unfold step; cbn [handle]; rewrite (onMessage_idle _ _ _ HQ), Hq; cbn;
    (erewrite settle_cons by reflexivity); cbn; by rewrite settle_nil.
Qed.

Lemma first_attempt_in_same_task_witness :
  trace (step initial (EvMessage "abc" [Samples.t1; Samples.t2]))
  = [ObsFetch "abc" Samples.t1].
Proof.
  refine (proj1 (proj2 (proj2 (proj2 (proj2
            (first_attempt_in_same_task initial "abc" Samples.t1 [Samples.t2] _ _))))));
    reflexivity.
Defined.


End Claims.

End BackgroundFacts.
(** ** Facts about the content script *)

Module ContentScriptFacts.

Import ContentScript.

Lemma extractTurn_id last now index node t :
  extractTurn last now index node = Some t →
  id t = Z.of_nat index + 1 ∧ last < id t.
Proof.
  unfold extractTurn. destruct (Z.of_nat index + 1 <=? last) eqn:Hle; [done|].
  apply Z.leb_gt in Hle. case_match; [done|]. intros [= <-]. cbn. lia.
Qed.

Lemma extractTurns_new last now d t :
  t ∈ extractTurnsFromDOM last now d →
  last < id t ∧ id t ≤ Z.of_nat (length (selectMessages d)).
Proof.
  unfold extractTurnsFromDOM. intros Ht.
  apply list_elem_of_omap in Ht as ([index node] & Hin & Ht).
  apply list_elem_of_lookup in Hin as [i Hi].
  rewrite list_lookup_imap in Hi.
  destruct (selectMessages d !! i) as [x|] eqn:Hx; [|done].
  cbn in Hi. injection Hi as <- <-.
  apply extractTurn_id in Ht as [Hid Hlt]. apply lookup_lt_Some in Hx. lia.
Qed.




End ContentScriptFacts.
(** ** Facts about the sidebar *)

Module SidebarFacts.

Import Sidebar ListFacts.

Section Rendering.

Lemma match_id_nonempty s : match_id s ≠ Some "".
Proof.
  induction s as [|a r IH]; [done|]. cbn [match_id].
  destruct (id_run <$> after_prefix (String a r)) as [[|b m]|]; done.
Qed.

Lemma extractConversationId_nonempty url : extractConversationId url ≠ "".
Proof.
  unfold extractConversationId. destruct (match_id url) as [m|] eqn:Hm; [|done].
  intros ->. by apply match_id_nonempty in Hm.
Qed.

(** Two states with the same components are equal. *)
Lemma state_ext (a b : State) :
  view a = view b → refs a = refs b → deps a = deps b →
  metricsCleanup a = metricsCleanup b → k2Cleanup a = k2Cleanup b →
  isMounted a = isMounted b → timers a = timers b → requests a = requests b →
  now a = now b → trace a = trace b → a = b.
Proof. destruct a, b. cbn. by intros -> -> -> -> -> -> -> -> -> ->. Qed.

Lemma render_synced s : synced s → render s = s.
Proof.
  intros [Hd Hr]. unfold render. rewrite Hd. cbn.
  rewrite !bool_decide_eq_true_2 by done. cbn.
  destruct s as [v [st sr pr] d mc kc im tm rq nw tr]. cbn in *. by subst.
Qed.

Lemma dirty_synced s : synced s → dirty s = false.
Proof. intros [Hd _]. unfold dirty. by rewrite bool_decide_eq_true_2. Qed.

Lemma commit_synced s : synced s → commit s = s.
Proof. intros H. unfold commit. by rewrite render_synced, dirty_synced. Qed.

Lemma render_by_conv s :
  conversationId (view s) ≠ (deps s).1 →
  let c := conversationId (view s) in
  let e := escalationState (view s) in
  render s =
  set_deps (c, e)
    (k2Effect c e
       (metricsEffect c
          (resetEffect c
             (runK2Cleanup
                (runMetricsCleanup
                   (set_refs {| escalationStartTimeRef := escalationStartTimeRef (refs s);
                                escalationStateRef := e;
                                prevConversationIdRef := prevConversationIdRef (refs s) |}
                      s)))))).
Proof. intros H. unfold render. by rewrite (bool_decide_eq_false_2 _ H). Qed.

Lemma render_by_esc s :
  conversationId (view s) = (deps s).1 →
  escalationState (view s) ≠ (deps s).2 →
  let c := conversationId (view s) in
  let e := escalationState (view s) in
  render s =
  set_deps (c, e)
    (k2Effect c e
       (runK2Cleanup
          (set_refs {| escalationStartTimeRef := escalationStartTimeRef (refs s);
                       escalationStateRef := e;
                       prevConversationIdRef := prevConversationIdRef (refs s) |}
             s))).
Proof.
  intros Hc He. unfold render.
  by rewrite (bool_decide_eq_true_2 _ Hc), (bool_decide_eq_false_2 _ He).
Qed.


End Rendering.

Section Invariant.

Lemma due_in_dues s h t : timers s !! h = Some (Some t) → due t ∈ dues s.
Proof.
  intros H. unfold dues. apply list_elem_of_omap. exists (Some t).
  split; [by eapply list_elem_of_lookup_2|done].
Qed.

Lemma can_be_spec t s :
  can_be t s = true ↔
  now s ≤ t ∧ ∀ h x, timers s !! h = Some (Some x) → t ≤ due x.
Proof.
  unfold can_be. rewrite bool_decide_eq_true. split; intros [Hn Hd]; split; try done.
  - intros h x Hx. rewrite Forall_forall in Hd. apply Hd. by eapply due_in_dues.
  - apply Forall_forall. intros d Hd'. unfold dues in Hd'.
    apply list_elem_of_omap in Hd' as ([x|] & Hin & Hx); [|done].
    apply list_elem_of_lookup in Hin as [h Hh]. cbn in Hx. injection Hx as <-. eauto.
Qed.

Lemma initial_wf : wf initial.
Proof. split; cbn; try done. Qed.

Lemma wf_answer r s : wf s → wf (set_requests (<[r := None]> (requests s)) s).
Proof.
  intros [Hs Hp Hm Hk Hc Ht Hn Hr Ha]. split; try done. cbn.
  intros r' q Hq. apply list_lookup_insert_Some in Hq as [(_ & ? & _)|[_ Hq]]; [done|].
  by apply Hr in Hq.
Qed.

Lemma wf_advance t s : wf s → can_be t s = true → wf (set_now t s).
Proof.
  intros [Hs Hp Hm Hk Hc Ht Hn Hr Ha] [_ Hd]%can_be_spec. split; try done; cbn; eauto.
Qed.

Lemma wf_emit o s : wf s → wf (emit o s).
Proof. intros [Hs Hp Hm Hk Hc Ht Hn Hr Ha]. by split. Qed.

Lemma wf_send q s :
  wf s →
  match q with
  | MetricsRequest g _ => ∃ h, metricsCleanup s = Some (g, h)
  | K2Request g _ => ∃ hi ht, k2Cleanup s = Some (g, hi, ht)
  end →
  wf (sendRequest q s).
Proof.
  intros [Hs Hp Hm Hk Hc Ht Hn Hr Ha] Hq. split; try done. cbn.
  intros r' q' Hq'. apply lookup_snoc_Some in Hq' as [[_ Hq']|[_ [= <-]]];
    [by apply Hr in Hq'|].
  destruct q as [g c|g c].
  - destruct Hq as [h Hh]. rewrite Hh in Hm. destruct Hm as (_ & Hg & _).
    split; [by eapply lookup_lt_Some|]. intros hi ht Hk'. by eapply Ha.
  - destruct Hq as (hi & ht & Hh). rewrite Hh in Hk. destruct Hk as (_ & Hg & _).
    split; [by eapply lookup_lt_Some|]. intros h Hm'. by eapply Ha.
Qed.

Lemma wf_pollMetrics g h c s :
  wf s → metricsCleanup s = Some (g, h) → wf (pollMetrics g c s).
Proof.
  intros Hwf Hm. unfold pollMetrics. destruct (_ || _); [done|].
  apply wf_send; [by apply wf_emit|]. cbn. eauto.
Qed.

Lemma wf_pollK2 g hi ht c s :
  wf s → k2Cleanup s = Some (g, hi, ht) → wf (pollK2 g c s).
Proof.
  intros Hwf Hm. unfold pollK2. destruct (negb _); [done|].
  apply wf_send; [by apply wf_emit|]. cbn. eauto.
Qed.

Lemma wf_setMetrics d v r a c s : wf s → wf (setMetrics d v r a c s).
Proof. intros [Hs Hp Hm Hk Hc Ht Hn Hr Ha]. by split. Qed.

Lemma wf_same_conversation s : wf s → wf (setConversationId (conversationId (view s)) s).
Proof. intros [Hs Hp Hm Hk Hc Ht Hn Hr Ha]. by split. Qed.

Lemma wf_rearm h t p s :
  wf s → timers s !! h = Some (Some t) → period (callback t) = Some p → 0 ≤ p →
  can_be (due t) s = true →
  wf (set_timers (<[h := Some {| callback := callback t; due := due t + p |}]> (timers s))
        (set_now (due t) s)).
Proof.
  intros [Hs Hp Hm Hk Hc Ht Hn Hr Ha] Hh Hper Hp0 [_ Hd]%can_be_spec.
  pose proof (lookup_lt_Some _ _ _ Hh) as Hlt.
  split; try done; cbn.
  - destruct (metricsCleanup s) as [[g h']|]; [|done].
    destruct Hm as (? & ? & d & Hm). split_and!; try done.
    destruct (decide (h = h')) as [->|Hne].
    + rewrite list_lookup_insert_eq by done. simplify_eq/=. eauto.
    + rewrite list_lookup_insert_ne by done. eauto.
  - destruct (k2Cleanup s) as [[[g hi] ht]|]; [|done].
    destruct Hk as (? & ? & [d Hi] & Hto). split_and!; try done.
    + destruct (decide (h = hi)) as [->|Hne].
      * rewrite list_lookup_insert_eq by done. simplify_eq/=. eauto.
      * rewrite list_lookup_insert_ne by done. eauto.
    + destruct (decide (h = ht)) as [->|Hne].
      * simplify_eq/=.
      * by rewrite list_lookup_insert_ne.
  - intros h' t' Ht'. apply list_lookup_insert_Some in Ht' as [(<- & [= <-] & _)|[_ Ht']].
    + cbn. by apply Ht in Hh.
    + by apply Ht in Ht'.
  - intros h' t' Ht'. apply list_lookup_insert_Some in Ht' as [(<- & [= <-] & _)|[_ Ht']].
    + cbn. lia.
    + eauto.
Qed.

End Invariant.

Section Bookkeeping.

Lemma wf_live s :
  wf s → live (metricsCleanup s) (k2Cleanup s) (isMounted s) (timers s) (requests s) (now s).
Proof.
  intros [Hs Hp Hm Hk Hc Ht Hn Hr Ha]. split; try done.
  - intros h x Hx. split; [by eapply Hn|by apply Ht].
  - intros g h Hgh. rewrite Hgh in Hm. destruct Hm as (_ & Hg & _).
    by eapply lookup_lt_Some.
  - intros g hi ht Hgh. rewrite Hgh in Hk. destruct Hk as (_ & Hg & _).
    by eapply lookup_lt_Some.
Qed.

Lemma wf_intro s :
  synced s →
  prevConversationIdRef (refs s) = conversationId (view s) →
  live (metricsCleanup s) (k2Cleanup s) (isMounted s) (timers s) (requests s) (now s) →
  match metricsCleanup s with
  | Some (g, h) =>
      conversationId (view s) ≠ "" ∧
      has_metrics g h (conversationId (view s)) (isMounted s) (timers s)
  | None => conversationId (view s) = ""
  end →
  match k2Cleanup s with
  | Some (g, hi, ht) =>
      escalationState (view s) = escalated_pending ∧
      has_k2 g hi ht (conversationId (view s))
        (escalationStartTimeRef (refs s) + K2_TIMEOUT) (isMounted s) (timers s)
  | None => escalationState (view s) ≠ escalated_pending
  end →
  wf s.
Proof.
  intros Hs Hp [Hc Ht Hr Hbm Hbk Ha] Hm Hk. split.
  - done.
  - done.
  - destruct (metricsCleanup s) as [[g h]|]; [|done]. by destruct Hm as (? & ? & ?).
  - destruct (k2Cleanup s) as [[[g hi] ht]|]; [|done]. by destruct Hk as (? & ? & ? & ?).
  - done.
  - intros h x Hx. by apply Ht in Hx as [_ ?].
  - intros h x Hx. by apply Ht in Hx as [? _].
  - done.
  - done.
Qed.

Lemma live_unmount_m g h k cells tm rq t :
  live (Some (g, h)) k cells tm rq t →
  live None k (<[g := false]> cells) (<[h := None]> tm) rq t.
Proof.
  intros [Hc Ht Hr Hbm Hbk Ha]. split; try done.
  - intros g' Hg'. apply list_lookup_insert_Some in Hg' as [(_ & ? & _)|[Hne Hg']]; [done|].
    apply Hc in Hg' as [[h' [= <- <-]]|?]; [done|by right].
  - intros h' x Hx. apply list_lookup_insert_Some in Hx as [(_ & ? & _)|[Hne Hx]]; [done|].
    apply Ht in Hx as [? Hx]. split; [done|].
    destruct (callback x); [|done..]. by injection Hx as <- <-.
  - intros r q Hq. apply Hr in Hq. rewrite length_insert.
    destruct q; destruct Hq; split; done.
  - intros. rewrite length_insert. eauto.
Qed.

Lemma live_unmount_k g hi ht m cells tm rq t :
  live m (Some (g, hi, ht)) cells tm rq t →
  live m None (<[g := false]> cells) (<[ht := None]> (<[hi := None]> tm)) rq t.
Proof.
  intros [Hc Ht Hr Hbm Hbk Ha]. split; try done.
  - intros g' Hg'. apply list_lookup_insert_Some in Hg' as [(_ & ? & _)|[Hne Hg']]; [done|].
    apply Hc in Hg' as [?|(? & ? & [= <- <- <-])]; [by left|done].
  - intros h' x Hx. apply list_lookup_insert_Some in Hx as [(_ & ? & _)|[Hne Hx]]; [done|].
    apply list_lookup_insert_Some in Hx as [(_ & ? & _)|[Hne' Hx]]; [done|].
    apply Ht in Hx as [? Hx]. split; [done|].
    destruct (callback x); [done|..]; destruct Hx as [? [= <- <- <-]]; done.
  - intros r q Hq. apply Hr in Hq. rewrite length_insert.
    destruct q; destruct Hq; split; done.
  - intros. rewrite length_insert. eauto.
Qed.

Lemma live_none_k m cells tm rq t : live m None cells tm rq t → ∀ k, k = None → live m k cells tm rq t.
Proof. by intros ? ? ->. Qed.

Lemma live_arm_m c p k cells tm rq t :
  live None k cells tm rq t → 0 ≤ p →
  live (Some (length cells, length tm)) k
    (cells ++ [true])
    (tm ++ [Some {| callback := MetricsInterval (length cells) c; due := t + p |}])
    (rq ++ [Some (MetricsRequest (length cells) c)]) t.
Proof.
  intros [Hc Ht Hr Hbm Hbk Ha] Hp. split.
  - intros g Hg. apply lookup_snoc_Some in Hg as [[_ Hg]|[-> _]]; [|by eauto].
    apply Hc in Hg as [[? ?]|?]; [done|by right].
  - intros h x Hx. apply lookup_snoc_Some in Hx as [[_ Hx]|[-> [= <-]]].
    + apply Ht in Hx as [? Hx]. split; [done|]. by destruct (callback x).
    + cbn. split; [lia|done].
  - intros r q Hq.
    apply lookup_snoc_Some in Hq as [[_ Hq]|[-> [= <-]]].
    + apply Hr in Hq.
      destruct q as [g ?|g ?]; destruct Hq as [Hlt Hq]; rewrite length_app; cbn;
        (split; [lia|]); [done|].
      intros h [= <- <-]. lia.
    + rewrite length_app; cbn. split; [lia|]. intros hi ht Hk. apply Hbk in Hk. lia.
  - intros g h [= <- <-]. rewrite length_app. cbn. lia.
  - intros g hi ht Hk. apply Hbk in Hk. rewrite length_app. lia.
  - intros g h g' hi ht [= <- <-] Hk. apply Hbk in Hk. lia.
Qed.

Lemma live_arm_k c p q m cells tm rq t :
  live m None cells tm rq t → 0 ≤ p → 0 ≤ q →
  live m (Some (length cells, length tm, S (length tm)))
    (cells ++ [true])
    ((tm ++ [Some {| callback := K2Interval (length cells) c; due := t + p |}])
        ++ [Some {| callback := K2TimeoutCb (length cells); due := t + q |}])
    (rq ++ [Some (K2Request (length cells) c)]) t.
Proof.
  intros [Hc Ht Hr Hbm Hbk Ha] Hp Hq. split.
  - intros g Hg. apply lookup_snoc_Some in Hg as [[_ Hg]|[-> _]]; [|by eauto].
    apply Hc in Hg as [?|(? & ? & ?)]; [by left|done].
  - intros h x Hx. apply lookup_snoc_Some in Hx as [[_ Hx]|[Hh [= <-]]].
    + apply lookup_snoc_Some in Hx as [[_ Hx]|[-> [= <-]]].
      * apply Ht in Hx as [? Hx]. split; [done|].
        destruct (callback x); [done|..]; by destruct Hx.
      * cbn. split; [lia|eauto].
    + cbn. split; [lia|]. rewrite length_app in Hh. cbn in Hh.
      replace h with (S (length tm)) by lia. eauto.
  - intros r x Hx.
    apply lookup_snoc_Some in Hx as [[_ Hx]|[-> [= <-]]].
    + apply Hr in Hx.
      destruct x as [g ?|g ?]; destruct Hx as [Hlt Hx]; rewrite length_app; cbn;
        (split; [lia|]); [|done].
      intros hi ht [= <- <- <-]. lia.
    + rewrite length_app; cbn. split; [lia|]. intros h Hm. apply Hbm in Hm. lia.
  - intros g h Hm. apply Hbm in Hm. rewrite length_app. lia.
  - intros g hi ht [= <- <- <-]. rewrite length_app. cbn. lia.
  - intros g h g' hi ht Hm [= <- <- <-]. apply Hbm in Hm. lia.
Qed.

Lemma has_metrics_new c d cells tm :
  has_metrics (length cells) (length tm) c (cells ++ [true])
    (tm ++ [Some {| callback := MetricsInterval (length cells) c; due := d |}]).
Proof. split; [by apply lookup_snoc_Some; right|]. exists d. by apply lookup_snoc_Some; right. Qed.

Lemma has_metrics_grow g h c cells tm l1 l2 :
  has_metrics g h c cells tm → has_metrics g h c (cells ++ l1) (tm ++ l2).
Proof.
  intros [Hg [d Hh]]. split; [by apply lookup_app_l_Some|].
  exists d. by apply lookup_app_l_Some.
Qed.

Lemma has_k2_new c p q cells tm :
  has_k2 (length cells) (length tm) (S (length tm)) c q (cells ++ [true])
    ((tm ++ [Some {| callback := K2Interval (length cells) c; due := p |}])
        ++ [Some {| callback := K2TimeoutCb (length cells); due := q |}]).
Proof.
  split_and!.
  - by apply lookup_snoc_Some; right.
  - exists p. apply lookup_app_l_Some. by apply lookup_snoc_Some; right.
  - apply lookup_snoc_Some; right. split; [|done]. rewrite length_app. cbn. lia.
Qed.

Lemma has_metrics_unmount_k g h c gk hi ht ck T cells tm :
  has_metrics g h c cells tm → has_k2 gk hi ht ck T cells tm → g ≠ gk →
  has_metrics g h c (<[gk := false]> cells) (<[ht := None]> (<[hi := None]> tm)).
Proof.
  intros [Hg [d Hh]] (Hgk & [di Hi] & Ht) Hne. split.
  - by rewrite list_lookup_insert_ne.
  - exists d. rewrite !list_lookup_insert_ne; [done|..]; intros ->; congruence.
Qed.

Lemma clear_again {A} (l : list (option A)) hi ht :
  <[ht := None]> (<[hi := None]> (<[ht := None]> l)) = <[ht := None]> (<[hi := None]> l).
Proof.
  destruct (decide (hi = ht)) as [->|Hne].
  - by rewrite !list_insert_insert_eq.
  - by rewrite (list_insert_insert_ne _ hi ht), list_insert_insert_eq.
Qed.

Lemma runMetricsCleanup_some g h s :
  metricsCleanup s = Some (g, h) →
  runMetricsCleanup s = clearTimer h (set_isMounted (<[g := false]> (isMounted s)) s).
Proof. intros H. unfold runMetricsCleanup. by rewrite H. Qed.

Lemma runK2Cleanup_some g hi ht s :
  k2Cleanup s = Some (g, hi, ht) →
  runK2Cleanup s
  = clearTimer ht (clearTimer hi (set_isMounted (<[g := false]> (isMounted s)) s)).
Proof. intros H. unfold runK2Cleanup. by rewrite H. Qed.

Lemma runK2Cleanup_none s : k2Cleanup s = None → runK2Cleanup s = s.
Proof. intros H. unfold runK2Cleanup. by rewrite H. Qed.

Lemma mounted_new s :
  mounted (length (isMounted s)) (set_isMounted (isMounted s ++ [true]) s) = true.
Proof. unfold mounted. cbn. by rewrite lookup_snoc. Qed.

Lemma k2Effect_skip c e s :
  c = "" ∨ e ≠ escalated_pending → k2Effect c e s = set_k2Cleanup None s.
Proof.
  intros H. unfold k2Effect.
  destruct (bool_decide (c = "")) eqn:Hc; [done|]. apply bool_decide_eq_false in Hc.
  destruct H as [?|He]; [done|]. by rewrite bool_decide_eq_false_2.
Qed.

Lemma k2Effect_arm c s :
  c ≠ "" →
  k2Effect c escalated_pending s =
  {| view := view s; refs := refs s; deps := deps s;
     metricsCleanup := metricsCleanup s;
     k2Cleanup := Some (length (isMounted s), length (timers s), S (length (timers s)));
     isMounted := isMounted s ++ [true];
     timers := (timers s ++
                [Some {| callback := K2Interval (length (isMounted s)) c;
                         due := now s + K2_POLL_INTERVAL |}]) ++
               [Some {| callback := K2TimeoutCb (length (isMounted s));
                        due := now s + K2_TIMEOUT |}];
     requests := requests s ++ [Some (K2Request (length (isMounted s)) c)];
     now := now s;
     trace := trace s ++ [ObsK2Fetch (now s) c] |}.
Proof.
  intros Hc. unfold k2Effect. rewrite bool_decide_eq_false_2 by done. cbn.
  unfold pollK2. rewrite mounted_new. cbn. rewrite length_app. cbn.
  by replace (length (timers s) + 1)%nat with (S (length (timers s))) by lia.
Qed.

Lemma metricsEffect_arm c s :
  c ≠ "" →
  metricsEffect c s =
  {| view := view s; refs := refs s; deps := deps s;
     metricsCleanup := Some (length (isMounted s), length (timers s));
     k2Cleanup := k2Cleanup s;
     isMounted := isMounted s ++ [true];
     timers := timers s ++
               [Some {| callback := MetricsInterval (length (isMounted s)) c;
                        due := now s + METRICS_POLL_INTERVAL |}];
     requests := requests s ++ [Some (MetricsRequest (length (isMounted s)) c)];
     now := now s;
     trace := trace s ++ [ObsMetricsFetch (now s) c] |}.
Proof.
  intros Hc. unfold metricsEffect. rewrite decide_False by done. cbn.
  unfold pollMetrics. rewrite mounted_new, bool_decide_eq_false_2 by done. done.
Qed.

End Bookkeeping.

Section Transitions.

#[local] Arguments sets_to : simpl never.

Ltac fields := apply state_ext; cbn; try done.

Lemma wf_pending_cleanup s :
  wf s → escalationState (view s) = escalated_pending ↔ is_Some (k2Cleanup s).
Proof.
  intros Hwf. pose proof (wf_k2 _ Hwf) as Hk.
  destruct (k2Cleanup s) as [[[g hi] ht]|].
  - split; [by eauto|]. intros _. by destruct Hk.
  - split; [done|]. by intros [? ?].
Qed.

(** Leaving [escalated_pending]: the commit unmounts the K2 run and
    clears its two timers.  [tm'] is the timer table at the time of
    the state update: the one of [s], or that with the expired
    timeout removed. *)
Lemma commit_stop g hi ht v o tm' s :
  wf s → k2Cleanup s = Some (g, hi, ht) →
  conversationId v = conversationId (view s) →
  escalationState v ≠ escalated_pending →
  tm' = timers s ∨ tm' = <[ht := None]> (timers s) →
  commit (emit o (set_view v (set_timers tm' s))) =
  {| view := v;
     refs := {| escalationStartTimeRef := escalationStartTimeRef (refs s);
                escalationStateRef := escalationState v;
                prevConversationIdRef := prevConversationIdRef (refs s) |};
     deps := (conversationId v, escalationState v);
     metricsCleanup := metricsCleanup s; k2Cleanup := None;
     isMounted := <[g := false]> (isMounted s);
     timers := <[ht := None]> (<[hi := None]> (timers s));
     requests := requests s; now := now s; trace := trace s ++ o |}.
Proof.
  intros Hwf Hk Hc He Htm.
  destruct (wf_synced _ Hwf) as [Hd _]. pose proof (wf_k2 _ Hwf) as Hk2.
  rewrite Hk in Hk2. destruct Hk2 as (Hpend & _).
  match goal with |- commit ?x = ?y => assert (render x = y) as Hrender end.
  { rewrite render_by_esc; cbn [view deps emit set_view set_timers]; rewrite ?Hd; cbn [fst snd];
      [|done|congruence].
    rewrite (runK2Cleanup_some g hi ht) by done.
    rewrite k2Effect_skip by (by right).
    fields. destruct Htm as [->| ->]; [done|apply clear_again]. }
  unfold commit. rewrite Hrender. cbn zeta. unfold dirty.
  cbn [deps view]. by rewrite bool_decide_eq_true_2.
Qed.

Lemma wf_stop g hi ht v o tm' s :
  wf s → k2Cleanup s = Some (g, hi, ht) →
  conversationId v = conversationId (view s) →
  escalationState v ≠ escalated_pending →
  tm' = timers s ∨ tm' = <[ht := None]> (timers s) →
  wf (commit (emit o (set_view v (set_timers tm' s)))).
Proof.
  intros Hwf Hk Hc He Htm. rewrite (commit_stop g hi ht) by done.
  pose proof (wf_live _ Hwf) as Hl. rewrite Hk in Hl.
  pose proof (wf_k2 _ Hwf) as Hk2. rewrite Hk in Hk2. destruct Hk2 as (_ & Hk2).
  pose proof (wf_metrics _ Hwf) as Hm.
  apply wf_intro; cbn.
  - by split.
  - rewrite Hc. apply (wf_prev _ Hwf).
  - by apply live_unmount_k.
  - destruct (metricsCleanup s) as [[gm hm]|] eqn:Hmc; [|congruence].
    destruct Hm as (Hne & Hm). split; [congruence|]. rewrite Hc.
    eapply has_metrics_unmount_k; [done|split_and!; try apply Hk2|]; eauto.
    eapply (live_apart _ _ _ _ _ _ Hl); eauto.
  - done.
Qed.

(** Entering [escalated_pending]: the commit starts a K2 run. *)
Lemma commit_trigger v o s :
  wf s → escalationState (view s) ≠ escalated_pending →
  conversationId v = conversationId (view s) → conversationId v ≠ "" →
  escalationState v = escalated_pending →
  commit (set_refs {| escalationStartTimeRef := now s;
                      escalationStateRef := escalationStateRef (refs s);
                      prevConversationIdRef := prevConversationIdRef (refs s) |}
            (emit o (set_view v s))) =
  {| view := v;
     refs := {| escalationStartTimeRef := now s;
                escalationStateRef := escalated_pending;
                prevConversationIdRef := prevConversationIdRef (refs s) |};
     deps := (conversationId v, escalated_pending);
     metricsCleanup := metricsCleanup s;
     k2Cleanup := Some (length (isMounted s), length (timers s), S (length (timers s)));
     isMounted := isMounted s ++ [true];
     timers := (timers s ++
                [Some {| callback := K2Interval (length (isMounted s)) (conversationId v);
                         due := now s + K2_POLL_INTERVAL |}]) ++
               [Some {| callback := K2TimeoutCb (length (isMounted s));
                        due := now s + K2_TIMEOUT |}];
     requests := requests s ++ [Some (K2Request (length (isMounted s)) (conversationId v))];
     now := now s;
     trace := (trace s ++ o) ++ [ObsK2Fetch (now s) (conversationId v)] |}.
Proof.
  intros Hwf Hidle Hc Hne He.
  destruct (wf_synced _ Hwf) as [Hd _].
  assert (k2Cleanup s = None) as Hk.
  { destruct (k2Cleanup s) eqn:Hk; [|done]. exfalso. apply Hidle.
    apply wf_pending_cleanup; [done|]. rewrite Hk. eauto. }
  match goal with |- commit ?x = ?y => assert (render x = y) as Hrender end.
  { rewrite render_by_esc; cbn [view deps refs emit set_view set_refs]; rewrite ?Hd;
      cbn [fst snd]; [|done|congruence].
    rewrite runK2Cleanup_none by done.
    rewrite He, k2Effect_arm by done. fields. }
  unfold commit. rewrite Hrender. cbn zeta. unfold dirty.
  cbn [deps view]. by rewrite He, bool_decide_eq_true_2.
Qed.

Lemma wf_trigger v o s :
  wf s → escalationState (view s) ≠ escalated_pending →
  conversationId v = conversationId (view s) → conversationId v ≠ "" →
  escalationState v = escalated_pending →
  wf (commit (set_refs {| escalationStartTimeRef := now s;
                          escalationStateRef := escalationStateRef (refs s);
                          prevConversationIdRef := prevConversationIdRef (refs s) |}
                (emit o (set_view v s)))).
Proof.
  intros Hwf Hidle Hc Hne He. rewrite commit_trigger by done.
  assert (k2Cleanup s = None) as Hk.
  { destruct (k2Cleanup s) eqn:Hk; [|done]. exfalso. apply Hidle.
    apply wf_pending_cleanup; [done|]. rewrite Hk. eauto. }
  pose proof (wf_live _ Hwf) as Hl. rewrite Hk in Hl.
  pose proof (wf_metrics _ Hwf) as Hm.
  apply wf_intro; cbn.
  - split; cbn; by rewrite ?He.
  - rewrite Hc. apply (wf_prev _ Hwf).
  - by apply live_arm_k.
  - destruct (metricsCleanup s) as [[gm hm]|] eqn:Hmc; [|congruence].
    destruct Hm as (_ & Hm1 & Hm2). split; [done|]. rewrite Hc.
    rewrite <- app_assoc. by apply has_metrics_grow.
  - split; [done|]. rewrite Hc. apply has_k2_new.
Qed.


Lemma resetEffect_run c s :
  conversationId (view s) = c → c ≠ "" → c ≠ prevConversationIdRef (refs s) →
  resetEffect c s =
  {| view := fresh_view c;
     refs := {| escalationStartTimeRef := escalationStartTimeRef (refs s);
                escalationStateRef := escalationStateRef (refs s);
                prevConversationIdRef := c |};
     deps := deps s; metricsCleanup := metricsCleanup s; k2Cleanup := k2Cleanup s;
     isMounted := isMounted s; timers := timers s; requests := requests s;
     now := now s; trace := trace s ++ [ObsSetEscalation (now s) idle] |}.
Proof.
  intros Hv Hc Hp. unfold resetEffect.
  rewrite (bool_decide_eq_false_2 _ Hc), (bool_decide_eq_false_2 _ Hp). cbn [orb].
  fields. by rewrite Hv.
Qed.

Lemma sets_to_cons e o l :
  sets_to e (o :: l) = ((if is_set_to e o then 1 else 0) + sets_to e l)%nat.
Proof.
  unfold sets_to. rewrite filter_cons.
  destruct (is_set_to e o) eqn:Ho; [rewrite decide_True by done|rewrite decide_False by (cbn; tauto)]; done.
Qed.

Lemma sets_to_nil e : sets_to e [] = O.
Proof. done. Qed.

Lemma sets_to_app e l1 l2 : sets_to e (l1 ++ l2) = (sets_to e l1 + sets_to e l2)%nat.
Proof. unfold sets_to. by rewrite filter_app, length_app. Qed.


(** The first render after a change of conversation. *)
Lemma render_navigate c' s :
  wf s → c' ≠ "" → c' ≠ conversationId (view s) →
  let e0 := escalationState (view s) in
  let s' := render (setConversationId c' s) in
  view s' = fresh_view c' ∧
  refs s' = {| escalationStartTimeRef := escalationStartTimeRef (refs s);
               escalationStateRef := e0; prevConversationIdRef := c' |} ∧
  deps s' = (c', e0) ∧
  metricsCleanup s' = Some (length (isMounted s), length (timers s)) ∧
  live (metricsCleanup s') (k2Cleanup s') (isMounted s') (timers s') (requests s') (now s') ∧
  has_metrics (length (isMounted s)) (length (timers s)) c' (isMounted s') (timers s') ∧
  match k2Cleanup s' with
  | Some (g, hi, ht) =>
      e0 = escalated_pending ∧ has_k2 g hi ht c' (now s + K2_TIMEOUT) (isMounted s') (timers s')
  | None => e0 ≠ escalated_pending
  end ∧
  now s' = now s ∧
  sets_to escalated_pending (trace s') = sets_to escalated_pending (trace s).
Proof.
  intros Hwf Hc' Hne.
  pose proof (wf_live _ Hwf) as Hl.
  pose proof (wf_pending_cleanup _ Hwf) as Hpc.
  destruct (wf_synced _ Hwf) as [Hd Hr]. pose proof (wf_prev _ Hwf) as Hp.
  cbn zeta. rewrite render_by_conv by (cbn; rewrite Hd; done).
  cbn [view setConversationId set_view conversationId escalationState refs].
  set (e0 := escalationState (view s)) in *.
  match goal with |- context [runMetricsCleanup ?x] => set (s1 := x) end.
  assert (live None (k2Cleanup s) (isMounted (runMetricsCleanup s1))
            (timers (runMetricsCleanup s1)) (requests s) (now s)) as Hl2.
  { unfold runMetricsCleanup. subst s1. cbn.
    destruct (metricsCleanup s) as [[gm hm]|]; [by apply live_unmount_m|done]. }
  assert (length (isMounted (runMetricsCleanup s1)) = length (isMounted s) ∧
          length (timers (runMetricsCleanup s1)) = length (timers s)) as [Hlm2 Hlt2].
  { unfold runMetricsCleanup. subst s1. cbn.
    destruct (metricsCleanup s) as [[gm hm]|]; cbn; by rewrite ?length_insert. }
  assert (∀ s2, k2Cleanup s2 = k2Cleanup s →
            isMounted s2 = isMounted (runMetricsCleanup s1) →
            timers s2 = timers (runMetricsCleanup s1) →
            live None None (isMounted (runK2Cleanup s2)) (timers (runK2Cleanup s2))
              (requests s) (now s) ∧
            length (isMounted (runK2Cleanup s2)) = length (isMounted s) ∧
            length (timers (runK2Cleanup s2)) = length (timers s)) as Hstage3.
  { intros s2 Hk2 Him Htm. unfold runK2Cleanup. rewrite Hk2.
    destruct (k2Cleanup s) as [[[gk hi] ht]|]; cbn; rewrite Him, Htm, ?length_insert.
    - split; [by apply live_unmount_k|done].
    - done. }
  destruct (Hstage3 (runMetricsCleanup s1)) as (Hl3 & Hlm3 & Hlt3); try done.
  { unfold runMetricsCleanup. subst s1. cbn. by destruct (metricsCleanup s) as [[? ?]|]. }
  clear Hstage3.
  assert (view (runK2Cleanup (runMetricsCleanup s1)) = view s1 ∧
          refs (runK2Cleanup (runMetricsCleanup s1)) = refs s1 ∧
          requests (runK2Cleanup (runMetricsCleanup s1)) = requests s ∧
          now (runK2Cleanup (runMetricsCleanup s1)) = now s ∧
          trace (runK2Cleanup (runMetricsCleanup s1)) = trace s) as (Hv3 & Hr3 & Hq3 & Hn3 & Ht3).
  { unfold runK2Cleanup, runMetricsCleanup. subst s1. cbn.
    destruct (metricsCleanup s) as [[? ?]|]; cbn;
      destruct (k2Cleanup s) as [[[? ?] ?]|]; done. }
  set (s3 := runK2Cleanup (runMetricsCleanup s1)) in *.
  rewrite (resetEffect_run c' s3) by (rewrite ?Hv3, ?Hr3; subst s1; cbn; congruence).
  rewrite metricsEffect_arm by done.
  cbn [view refs deps metricsCleanup k2Cleanup isMounted timers requests now trace].
  rewrite Hr3, Hq3, Hn3, Ht3, Hlm3, Hlt3. subst s1.
  cbn [refs set_refs escalationStartTimeRef escalationStateRef prevConversationIdRef].
  pose proof (live_arm_m c' METRICS_POLL_INTERVAL _ _ _ _ _ Hl3 ltac:(done)) as Hl5.
  rewrite Hlm3, Hlt3 in Hl5.
  pose proof (has_metrics_new c' (now s + METRICS_POLL_INTERVAL) (isMounted s3) (timers s3))
    as Hm5.
  rewrite Hlm3, Hlt3 in Hm5.
  assert (sets_to escalated_pending
            ((trace s ++ [ObsSetEscalation (now s) idle]) ++ [ObsMetricsFetch (now s) c'])
          = sets_to escalated_pending (trace s)) as Htr.
  { rewrite !sets_to_app, !sets_to_cons, !sets_to_nil. unfold is_set_to.
    rewrite bool_decide_eq_false_2 by done. lia. }
  destruct (decide (e0 = escalated_pending)) as [He|He].
  - rewrite He, k2Effect_arm by done. cbn.
    split_and!; try done.
    + by apply live_arm_k.
    + rewrite <- (app_assoc (timers s3 ++ [_])). apply has_metrics_grow, Hm5.
    + apply has_k2_new.
    + rewrite sets_to_app, Htr, sets_to_cons, sets_to_nil. unfold is_set_to. lia.
  - rewrite k2Effect_skip by (by right). cbn.
    split_and!; done.
Qed.


Lemma runK2Cleanup_set_refs r s :
  runK2Cleanup (set_refs r s) = set_refs r (runK2Cleanup s).
Proof.
  unfold runK2Cleanup. cbn [k2Cleanup set_refs].
  destruct (k2Cleanup s) as [[[g hi] ht]|]; [|done]. fields.
Qed.

(** A change of conversation, through both renders. *)
Lemma navigate_spec c' s :
  wf s → c' ≠ "" → c' ≠ conversationId (view s) →
  let s' := commit (setConversationId c' s) in
  wf s' ∧ view s' = fresh_view c' ∧
  metricsCleanup s' = Some (length (isMounted s), length (timers s)) ∧
  now s' = now s ∧
  sets_to escalated_pending (trace s') = sets_to escalated_pending (trace s).
Proof.
  intros Hwf Hc' Hne. cbn zeta.
  destruct (render_navigate c' s Hwf Hc' Hne)
    as (Hv & Hr & Hd & Hm & Hl & Hhm & Hk & Hn & Htr).
  unfold commit. cbn zeta.
  set (s7 := render (setConversationId c' s)) in *. clearbody s7.
  unfold dirty. rewrite Hd, Hv. cbn [conversationId escalationState fresh_view].
  destruct (decide (escalationState (view s) = idle)) as [He|He].
  - rewrite He, bool_decide_eq_true_2 by done. cbn [negb].
    split_and!; try done. apply wf_intro.
    + split; [by rewrite Hd, Hv, He|by rewrite Hr, Hv].
    + by rewrite Hr, Hv.
    + done.
    + rewrite Hm, Hv. done.
    + destruct (k2Cleanup s7) as [[[g hi] ht]|]; [|by rewrite Hv].
      destruct Hk as [Hk _]. congruence.
  - rewrite bool_decide_eq_false_2 by congruence. cbn [negb].
    rewrite render_by_esc by (rewrite ?Hd, ?Hv; cbn; congruence).
    rewrite Hv. cbn [conversationId escalationState fresh_view].
    rewrite k2Effect_skip by (by right).
    assert (live (Some (length (isMounted s), length (timers s))) None
              (isMounted (runK2Cleanup s7)) (timers (runK2Cleanup s7))
              (requests s7) (now s7) ∧
            has_metrics (length (isMounted s)) (length (timers s)) c'
              (isMounted (runK2Cleanup s7)) (timers (runK2Cleanup s7)) ∧
            view (runK2Cleanup s7) = view s7 ∧ refs (runK2Cleanup s7) = refs s7 ∧
            metricsCleanup (runK2Cleanup s7) = metricsCleanup s7 ∧
            requests (runK2Cleanup s7) = requests s7 ∧
            now (runK2Cleanup s7) = now s7 ∧ trace (runK2Cleanup s7) = trace s7)
      as (Hl' & Hhm' & Hv' & Hr' & Hm' & Hq' & Hn' & Htr').
    { unfold runK2Cleanup. rewrite Hm in Hl.
      destruct (k2Cleanup s7) as [[[g hi] ht]|]; cbn; [|done].
      destruct Hk as [_ Hk]. split_and!; try done.
      - by apply live_unmount_k.
      - eapply has_metrics_unmount_k; [done..|].
        eapply (live_apart _ _ _ _ _ _ Hl); eauto. }
    rewrite runK2Cleanup_set_refs.
    cbn. rewrite ?Hv', ?Hm', ?Hn', ?Htr', ?Hr', ?Hr, ?Hv, ?Hm, ?Hn, ?Htr. cbn.
    split_and!; try done.
    apply wf_intro; unfold synced; cbn;
      rewrite ?Hv', ?Hm', ?Hn', ?Hq', ?Hr', ?Hr, ?Hv, ?Hm; cbn; done.
Qed.

End Transitions.

Section Steps.

#[local] Arguments sets_to : simpl never.

Ltac fields := apply state_ext; cbn; try done.

Lemma move_refl s : move s s.
Proof. by apply move_none. Qed.

Lemma sets_to_snoc_other e tr o :
  match o with ObsSetEscalation _ _ => False | _ => True end →
  sets_to e (tr ++ [o]) = sets_to e tr.
Proof.
  intros Ho. rewrite sets_to_app, sets_to_cons, sets_to_nil.
  destruct o; try done; cbn; lia.
Qed.

Lemma sets_to_snoc_set e tr t e' :
  sets_to e (tr ++ [ObsSetEscalation t e']) =
  ((if bool_decide (e = e') then 1 else 0) + sets_to e tr)%nat.
Proof.
  rewrite sets_to_app, sets_to_cons, sets_to_nil. cbn.
  destruct (decide (e = e')) as [->|Hne].
  - rewrite !bool_decide_eq_true_2 by done. lia.
  - rewrite !bool_decide_eq_false_2 by congruence. lia.
Qed.

Lemma pollMetrics_move g c s :
  view (pollMetrics g c s) = view s ∧ refs (pollMetrics g c s) = refs s ∧
  deps (pollMetrics g c s) = deps s ∧ now (pollMetrics g c s) = now s ∧
  ∀ e, sets_to e (trace (pollMetrics g c s)) = sets_to e (trace s).
Proof.
  unfold pollMetrics. destruct (_ || _); [done|]. cbn. split_and!; try done.
  intros e. by apply sets_to_snoc_other.
Qed.

Lemma pollK2_move g c s :
  view (pollK2 g c s) = view s ∧ refs (pollK2 g c s) = refs s ∧
  deps (pollK2 g c s) = deps s ∧ now (pollK2 g c s) = now s ∧
  ∀ e, sets_to e (trace (pollK2 g c s)) = sets_to e (trace s).
Proof.
  unfold pollK2. destruct (negb _); [done|]. cbn. split_and!; try done.
  intros e. by apply sets_to_snoc_other.
Qed.

Lemma mounted_true g s : mounted g s = true ↔ isMounted s !! g = Some true.
Proof. unfold mounted. destruct (isMounted s !! g) as [[]|]; naive_solver. Qed.

(** A mounted metrics request belongs to the current metrics run. *)
Lemma mounted_metrics_request s r g c :
  wf s → requests s !! r = Some (Some (MetricsRequest g c)) → mounted g s = true →
  ∃ h, metricsCleanup s = Some (g, h).
Proof.
  intros Hwf Hr Hg. apply mounted_true in Hg.
  apply (wf_cells _ Hwf) in Hg as [?|(hi & ht & Hk)]; [done|].
  apply (wf_requests _ Hwf) in Hr as [_ Hr]. by apply Hr in Hk.
Qed.

Lemma mounted_k2_request s r g c :
  wf s → requests s !! r = Some (Some (K2Request g c)) → mounted g s = true →
  ∃ hi ht, k2Cleanup s = Some (g, hi, ht).
Proof.
  intros Hwf Hr Hg. apply mounted_true in Hg.
  apply (wf_cells _ Hwf) in Hg as [[h Hm]|?]; [|done].
  apply (wf_requests _ Hwf) in Hr as [_ Hr]. by apply Hr in Hm.
Qed.

(** An interval expires: the poll is issued at the due time and the
    interval is re-armed one period later. *)
Lemma tick_metrics h g c d s :
  wf s → timers s !! h = Some (Some {| callback := MetricsInterval g c; due := d |}) →
  can_be d s = true →
  commit (fire h {| callback := MetricsInterval g c; due := d |} s) =
  sendRequest (MetricsRequest g c)
    (emit [ObsMetricsFetch d c]
       (set_timers (<[h := Some {| callback := MetricsInterval g c;
                                   due := d + METRICS_POLL_INTERVAL |}]> (timers s))
          (set_now d s))) ∧
  wf (commit (fire h {| callback := MetricsInterval g c; due := d |} s)) ∧
  c = conversationId (view s).
Proof.
  intros Hwf Hh Hcan.
  pose proof (wf_timers _ Hwf _ _ Hh) as Hm. cbn in Hm.
  pose proof (wf_metrics _ Hwf) as Hm'. rewrite Hm in Hm'.
  destruct Hm' as (Hne & Hg & d' & Hh'). rewrite Hh in Hh'. injection Hh' as -> _.
  pose proof (wf_rearm h _ METRICS_POLL_INTERVAL s Hwf Hh eq_refl ltac:(done) Hcan) as Hwf1.
  cbn [callback due] in Hwf1.
  unfold fire. cbn [callback due period invoke].
  unfold pollMetrics. rewrite bool_decide_eq_false_2 by done.
  replace (mounted g _) with true by (symmetry; by apply mounted_true).
  cbn [negb orb].
  match goal with |- commit ?x = _ ∧ _ => assert (wf x) as Hwf2 end.
  { apply wf_send; [by apply wf_emit|]. cbn. eauto. }
  rewrite commit_synced by apply (wf_synced _ Hwf2). done.
Qed.

Lemma tick_k2 h g c d s :
  wf s → timers s !! h = Some (Some {| callback := K2Interval g c; due := d |}) →
  can_be d s = true →
  commit (fire h {| callback := K2Interval g c; due := d |} s) =
  sendRequest (K2Request g c)
    (emit [ObsK2Fetch d c]
       (set_timers (<[h := Some {| callback := K2Interval g c;
                                   due := d + K2_POLL_INTERVAL |}]> (timers s))
          (set_now d s))) ∧
  wf (commit (fire h {| callback := K2Interval g c; due := d |} s)) ∧
  c = conversationId (view s) ∧ escalationState (view s) = escalated_pending.
Proof.
  intros Hwf Hh Hcan.
  pose proof (wf_timers _ Hwf _ _ Hh) as [ht Hk]. cbn in Hk.
  pose proof (wf_k2 _ Hwf) as Hk'. rewrite Hk in Hk'.
  destruct Hk' as (Hpend & Hg & [d' Hh'] & _). rewrite Hh in Hh'. injection Hh' as -> _.
  pose proof (wf_rearm h _ K2_POLL_INTERVAL s Hwf Hh eq_refl ltac:(done) Hcan) as Hwf1.
  cbn [callback due] in Hwf1.
  unfold fire. cbn [callback due period invoke].
  unfold pollK2.
  replace (mounted g _) with true by (symmetry; by apply mounted_true).
  cbn [negb].
  match goal with |- commit ?x = _ ∧ _ => assert (wf x) as Hwf2 end.
  { apply wf_send; [by apply wf_emit|]. cbn. eauto. }
  rewrite commit_synced by apply (wf_synced _ Hwf2). done.
Qed.

(** The verification timeout expires. *)
Lemma timeout_fires h g d s :
  wf s → timers s !! h = Some (Some {| callback := K2TimeoutCb g; due := d |}) →
  can_be d s = true →
  ∃ hi,
    k2Cleanup s = Some (g, hi, h) ∧
    commit (fire h {| callback := K2TimeoutCb g; due := d |} s) =
    {| view := resolved k2_failed (k2Confidence (view s))
                 "K2 reasoning timed out. Heuristic result retained." (view s);
       refs := {| escalationStartTimeRef := escalationStartTimeRef (refs s);
                  escalationStateRef := k2_failed;
                  prevConversationIdRef := prevConversationIdRef (refs s) |};
       deps := (conversationId (view s), k2_failed);
       metricsCleanup := metricsCleanup s; k2Cleanup := None;
       isMounted := <[g := false]> (isMounted s);
       timers := <[h := None]> (<[hi := None]> (timers s));
       requests := requests s; now := d;
       trace := trace s ++ [ObsSetEscalation d k2_failed] |} ∧
    wf (commit (fire h {| callback := K2TimeoutCb g; due := d |} s)).
Proof.
  intros Hwf Hh Hcan.
  pose proof (wf_timers _ Hwf _ _ Hh) as [hi Hk]. cbn in Hk. exists hi. split; [done|].
  pose proof (wf_k2 _ Hwf) as Hk'. rewrite Hk in Hk'. destruct Hk' as (Hpend & Hg & _).
  pose proof (wf_advance d s Hwf Hcan) as Hwf1.
  unfold fire. cbn [callback due period invoke]. unfold k2Timeout.
  replace (mounted g _) with true by (symmetry; by apply mounted_true).
  match goal with |- commit ?x = _ ∧ _ =>
    replace x with
      (emit [ObsSetEscalation d k2_failed]
         (set_view (resolved k2_failed (k2Confidence (view s))
                      "K2 reasoning timed out. Heuristic result retained." (view s))
            (set_timers (<[h := None]> (timers (set_now d s))) (set_now d s))))
      by fields
  end.
  split.
  - rewrite (commit_stop g hi h) by (try done; by right). fields.
  - apply (wf_stop g hi h); try done. by right.
Qed.

Lemma metrics_reply at_ req r g c s :
  wf s → requests s !! req = Some (Some (MetricsRequest g c)) → can_be at_ s = true →
  let s0 := set_requests (<[req := None]> (requests s)) (set_now at_ s) in
  let s' := commit (afterMetrics g r s0) in
  wf s' ∧
  match r with
  | Http true (Some data) =>
      if mounted g s then
        if escalated data && bool_decide (escalationState (view s) = idle) then
          let s1 := stored data s0 in
          s' =
          {| view := triggered (view s1);
             refs := {| escalationStartTimeRef := at_;
                        escalationStateRef := escalated_pending;
                        prevConversationIdRef := prevConversationIdRef (refs s) |};
             deps := (conversationId (view s), escalated_pending);
             metricsCleanup := metricsCleanup s;
             k2Cleanup := Some (length (isMounted s), length (timers s),
                                S (length (timers s)));
             isMounted := isMounted s ++ [true];
             timers := (timers s ++
                [Some {| callback := K2Interval (length (isMounted s))
                                       (conversationId (view s));
                         due := at_ + K2_POLL_INTERVAL |}]) ++
                [Some {| callback := K2TimeoutCb (length (isMounted s));
                         due := at_ + K2_TIMEOUT |}];
             requests := requests s0 ++
                [Some (K2Request (length (isMounted s)) (conversationId (view s)))];
             now := at_;
             trace := (trace s ++ [ObsSetEscalation at_ escalated_pending]) ++
                      [ObsK2Fetch at_ (conversationId (view s))] |}
        else s' = stored data s0
      else s' = s0
  | _ => s' = s0
  end.
Proof.
  intros Hwf Hreq Hcan s0 s'.
  assert (wf s0) as Hwf0 by (by apply (wf_answer req (set_now at_ s)), wf_advance).
  assert (commit s0 = s0) as Hc0 by apply commit_synced, (wf_synced _ Hwf0).
  assert (wf (commit s0) ∧ commit s0 = s0) as Hsame by (by rewrite Hc0).
  subst s'. unfold afterMetrics.
  destruct r as [|[] [data|]]; try exact Hsame.
  change (mounted g s0) with (mounted g s).
  destruct (mounted g s) eqn:Hg; cbn [negb]; [|exact Hsame].
  fold (stored data s0).
  assert (wf (stored data s0)) as Hwf1 by apply wf_setMetrics, Hwf0.
  destruct (wf_synced _ Hwf) as [_ Href].
  change (escalationStateRef (refs (stored data s0))) with (escalationStateRef (refs s)).
  rewrite Href. fold (escalated data).
  destruct (escalated data && bool_decide (escalationState (view s) = idle)) eqn:Htrig.
  - apply andb_true_iff in Htrig as [_ Hidle%bool_decide_eq_true].
    destruct (mounted_metrics_request _ _ _ _ Hwf Hreq Hg) as [h Hm].
    pose proof (wf_metrics _ Hwf) as Hm'. rewrite Hm in Hm'. destruct Hm' as (Hne & _).
    match goal with |- wf (commit ?x) ∧ _ =>
      replace x with
        (set_refs {| escalationStartTimeRef := now (stored data s0);
                     escalationStateRef := escalationStateRef (refs (stored data s0));
                     prevConversationIdRef := prevConversationIdRef (refs (stored data s0)) |}
           (emit [ObsSetEscalation at_ escalated_pending]
              (set_view (triggered (view (stored data s0))) (stored data s0))))
        by fields
    end.
    split.
    + apply wf_trigger; try done. cbn. by rewrite Hidle.
    + rewrite commit_trigger by (try done; cbn; by rewrite Hidle). fields.
  - split; [|by apply commit_synced, (wf_synced _ Hwf1)].
    by rewrite commit_synced by apply (wf_synced _ Hwf1).
Qed.

Lemma verdict_terminal data q0 e q x :
  verdict data q0 = Some (e, q, x) → e ∈ [k2_confirmed; k2_overridden; k2_failed].
Proof.
  unfold verdict. repeat case_decide; intros [= <- <- <-];
    repeat first [by left | right].
Qed.

Lemma afterK2_verdict g data s :
  mounted g s = true →
  afterK2 g (Http true (Some data)) s =
  match verdict data (k2Confidence (view s)) with
  | Some (e, q, x) =>
      emit [ObsSetEscalation (now s) e] (set_view (resolved e q x (view s)) s)
  | None => s
  end.
Proof.
  intros Hg. unfold afterK2, verdict. rewrite Hg. cbn [negb].
  repeat case_decide; try done; fields.
Qed.

Lemma k2_reply at_ req r g c s :
  wf s → requests s !! req = Some (Some (K2Request g c)) → can_be at_ s = true →
  let s0 := set_requests (<[req := None]> (requests s)) (set_now at_ s) in
  let s' := commit (afterK2 g r s0) in
  wf s' ∧
  match r with
  | Http true (Some data) =>
      if mounted g s then
        match verdict data (k2Confidence (view s)) with
        | Some (e, q, x) =>
            escalationState (view s) = escalated_pending ∧
            ∃ hi ht, k2Cleanup s = Some (g, hi, ht) ∧
            s' =
            {| view := resolved e q x (view s);
               refs := {| escalationStartTimeRef := escalationStartTimeRef (refs s);
                          escalationStateRef := e;
                          prevConversationIdRef := prevConversationIdRef (refs s) |};
               deps := (conversationId (view s), e);
               metricsCleanup := metricsCleanup s; k2Cleanup := None;
               isMounted := <[g := false]> (isMounted s);
               timers := <[ht := None]> (<[hi := None]> (timers s));
               requests := requests s0; now := at_;
               trace := trace s ++ [ObsSetEscalation at_ e] |}
        | None => s' = s0
        end
      else s' = s0
  | _ => s' = s0
  end.
Proof.
  intros Hwf Hreq Hcan s0 s'.
  assert (wf s0) as Hwf0 by (by apply (wf_answer req (set_now at_ s)), wf_advance).
  assert (commit s0 = s0) as Hc0 by apply commit_synced, (wf_synced _ Hwf0).
  assert (wf (commit s0) ∧ commit s0 = s0) as Hsame by (by rewrite Hc0).
  subst s'.
  destruct r as [|[] [data|]]; try exact Hsame.
  destruct (mounted g s) eqn:Hg.
  - rewrite afterK2_verdict by done.
    change (k2Confidence (view s0)) with (k2Confidence (view s)).
    destruct (verdict data (k2Confidence (view s))) as [[[e q] x]|] eqn:Hv;
      [|exact Hsame].
    destruct (mounted_k2_request _ _ _ _ Hwf Hreq Hg) as (hi & ht & Hk).
    pose proof (wf_k2 _ Hwf) as Hk'. rewrite Hk in Hk'. destruct Hk' as (Hpend & _).
    assert (e ≠ escalated_pending) as He.
    { revert Hv. unfold verdict. repeat case_decide; by intros [= <- <- <-]. }
    match goal with |- wf (commit ?st) ∧ _ =>
      replace st with
        (emit [ObsSetEscalation at_ e]
           (set_view (resolved e q x (view s)) (set_timers (timers s0) s0)))
        by fields
    end.
    split.
    + apply (wf_stop g hi ht); try done. by left.
    + split; [done|]. exists hi, ht. split; [done|].
      rewrite (commit_stop g hi ht) by (try done; by left). fields.
  - unfold afterK2. change (mounted g s0) with (mounted g s). rewrite Hg. exact Hsame.
Qed.

Lemma tab_url at_ url s :
  wf s → can_be at_ s = true →
  let c' := extractConversationId url in
  let s' := commit (setConversationId c' (set_now at_ s)) in
  wf s' ∧ now s' = at_ ∧
  sets_to escalated_pending (trace s') = sets_to escalated_pending (trace s) ∧
  if decide (c' = conversationId (view s)) then
    view s' = view s ∧ refs s' = refs s ∧ metricsCleanup s' = metricsCleanup s ∧
    k2Cleanup s' = k2Cleanup s ∧ isMounted s' = isMounted s ∧ timers s' = timers s ∧
    requests s' = requests s ∧ trace s' = trace s
  else
    view s' = fresh_view c' ∧
    metricsCleanup s' = Some (length (isMounted s), length (timers s)).
Proof.
  intros Hwf Hcan c' s'.
  pose proof (wf_advance at_ s Hwf Hcan) as Hwf0.
  destruct (decide (c' = conversationId (view s))) as [Heq|Hne].
  - assert (wf (setConversationId c' (set_now at_ s))) as Hwf1.
    { rewrite Heq. apply (wf_same_conversation (set_now at_ s) Hwf0). }
    subst s'. rewrite commit_synced by apply (wf_synced _ Hwf1).
    split_and!; try done. cbn. rewrite Heq. by destruct (view s).
  - destruct (navigate_spec c' (set_now at_ s) Hwf0) as (Hwf1 & Hv & Hm & Hn & Htr);
      [apply extractConversationId_nonempty|done|].
    subst s'. split_and!; done.
Qed.

Theorem step_wf s ev s' : wf s → step s ev = Some s' → wf s'.
Proof.
  intros Hwf Hstep. destruct ev as [h|at_ req r|at_ req r|at_ url]; cbn in Hstep.
  - destruct (timers s !! h) as [[[cb d]|]|] eqn:Hh; try done.
    cbn [due] in Hstep. destruct (can_be d s) eqn:Hcan; [|done].
    injection Hstep as <-. destruct cb as [g c|g c|g].
    + by apply tick_metrics.
    + by apply tick_k2.
    + by destruct (timeout_fires h g d s Hwf Hh Hcan) as (hi & _ & _ & ?).
  - destruct (requests s !! req) as [[[g c|g c]|]|] eqn:Hreq; try done.
    destruct (can_be at_ s) eqn:Hcan; [|done]. injection Hstep as <-.
    by apply (metrics_reply at_ req r g c s).
  - destruct (requests s !! req) as [[[g c|g c]|]|] eqn:Hreq; try done.
    destruct (can_be at_ s) eqn:Hcan; [|done]. injection Hstep as <-.
    by apply (k2_reply at_ req r g c s).
  - destruct (can_be at_ s) eqn:Hcan; [|done]. injection Hstep as <-.
    by apply tab_url.
Qed.

Lemma run_wf evs : ∀ s s', wf s → run s evs = Some s' → wf s'.
Proof.
  induction evs as [|ev evs IH]; intros s s' Hwf Hrun; cbn in Hrun.
  - by injection Hrun as <-.
  - destruct (step s ev) as [s1|] eqn:Hstep; [|done]. cbn in Hrun.
    eapply IH; [|done]. by eapply step_wf.
Qed.

Theorem reachable_wf s : reachable s → wf s.
Proof. intros [evs Hrun]. eapply run_wf; [apply initial_wf|done]. Qed.

(** Tasks other than a change of conversation move the state machine
    along [idle → pending → terminal] or leave it where it is. *)
Lemma step_move s ev s' :
  wf s → step s ev = Some s' → is_navigation ev = false →
  conversationId (view s') = conversationId (view s) ∧ move s s'.
Proof.
  intros Hwf Hstep Hnav. destruct ev as [h|at_ req r|at_ req r|at_ url]; [| | |done];
    cbn in Hstep.
  - destruct (timers s !! h) as [[[cb d]|]|] eqn:Hh; try done.
    cbn [due] in Hstep. destruct (can_be d s) eqn:Hcan; [|done].
    injection Hstep as <-. destruct cb as [g c|g c|g].
    + destruct (tick_metrics h g c d s Hwf Hh Hcan) as (-> & _ & _).
      split; [done|]. apply move_none; try done.
      intros e. by apply sets_to_snoc_other.
    + destruct (tick_k2 h g c d s Hwf Hh Hcan) as (-> & _ & _).
      split; [done|]. apply move_none; try done.
      intros e. by apply sets_to_snoc_other.
    + destruct (timeout_fires h g d s Hwf Hh Hcan) as (hi & Hk & -> & _).
      pose proof (wf_k2 _ Hwf) as Hk'. rewrite Hk in Hk'. destruct Hk' as (Hpend & _).
      split; [done|]. apply move_resolve; cbn; [done|set_solver|].
      intros e. apply sets_to_snoc_set.
  - destruct (requests s !! req) as [[[g c|g c]|]|] eqn:Hreq; try done.
    destruct (can_be at_ s) eqn:Hcan; [|done]. injection Hstep as <-.
    destruct (metrics_reply at_ req r g c s Hwf Hreq Hcan) as [_ Hcase].
    cbn zeta in Hcase.
    destruct r as [|[] [data|]]; try (rewrite Hcase; split; [done|by apply move_none]).
    destruct (mounted g s); [|rewrite Hcase; split; [done|by apply move_none]].
    destruct (escalated data && bool_decide (escalationState (view s) = idle)) eqn:Htrig;
      rewrite Hcase; [|split; [done|by apply move_none]].
    apply andb_true_iff in Htrig as [_ Hidle%bool_decide_eq_true].
    split; [done|]. apply move_trigger; cbn; try done.
    intros e. rewrite sets_to_snoc_other by done. apply sets_to_snoc_set.
  - destruct (requests s !! req) as [[[g c|g c]|]|] eqn:Hreq; try done.
    destruct (can_be at_ s) eqn:Hcan; [|done]. injection Hstep as <-.
    destruct (k2_reply at_ req r g c s Hwf Hreq Hcan) as [_ Hcase].
    cbn zeta in Hcase.
    destruct r as [|[] [data|]]; try (rewrite Hcase; split; [done|by apply move_none]).
    destruct (mounted g s); [|rewrite Hcase; split; [done|by apply move_none]].
    destruct (verdict data (k2Confidence (view s))) as [[[e q] x]|] eqn:Hv;
      [|rewrite Hcase; split; [done|by apply move_none]].
    destruct Hcase as (Hpend & hi & ht & Hk & ->).
    split; [done|]. apply move_resolve; cbn; [done|by eapply verdict_terminal|].
    intros e'. apply sets_to_snoc_set.
Qed.

End Steps.

Section History.











(** A poll touches the trace and the table of requests only. *)
Lemma pollMetrics_frame g c s :
  timers (pollMetrics g c s) = timers s ∧ now (pollMetrics g c s) = now s ∧
  isMounted (pollMetrics g c s) = isMounted s ∧
  k2Cleanup (pollMetrics g c s) = k2Cleanup s.
Proof. unfold pollMetrics. by destruct (_ || _). Qed.

Lemma pollK2_frame g c s :
  timers (pollK2 g c s) = timers s ∧ now (pollK2 g c s) = now s ∧
  isMounted (pollK2 g c s) = isMounted s ∧
  metricsCleanup (pollK2 g c s) = metricsCleanup s.
Proof. unfold pollK2. by destruct (negb _). Qed.











End History.


Section Runs.

Lemma steady_cons ev evs :
  steady (ev :: evs) = true → is_navigation ev = false ∧ steady evs = true.
Proof.
  unfold steady. cbn. intros [H1 H2]%andb_true_iff.
  by apply negb_true_iff in H1.
Qed.

Lemma terminal_not_pending e :
  e ∈ [k2_confirmed; k2_overridden; k2_failed] → e ≠ escalated_pending ∧ e ≠ idle.
Proof.
  rewrite !elem_of_cons, elem_of_nil. intros [->|[->|[->|[]]]]; by split.
Qed.


(** The trigger fires at most once, and only from [idle]. *)
Lemma run_trigger evs : ∀ s s',
  wf s → steady evs = true → run s evs = Some s' →
  (escalationState (view s) ≠ idle →
     escalationState (view s') ≠ idle ∧
     sets_to escalated_pending (trace s') = sets_to escalated_pending (trace s)) ∧
  (escalationState (view s) = idle →
     (escalationState (view s') = idle ∧
      sets_to escalated_pending (trace s') = sets_to escalated_pending (trace s)) ∨
     (escalationState (view s') ≠ idle ∧
      sets_to escalated_pending (trace s') = S (sets_to escalated_pending (trace s)))).
Proof.
  induction evs as [|ev evs IH]; intros s s' Hwf Hst Hrun; cbn in Hrun.
  - injection Hrun as <-. split; [done|]. intros Hidle. by left.
  - destruct (step s ev) as [s1|] eqn:Hstep; [|done]. cbn in Hrun.
    apply steady_cons in Hst as [Hnav Hst].
    pose proof (step_wf _ _ _ Hwf Hstep) as Hwf1.
    destruct (step_move _ _ _ Hwf Hstep Hnav) as [_ Hmove].
    destruct (IH s1 s' Hwf1 Hst Hrun) as [IH1 IH2].
    destruct Hmove as [He Hr Hq Hx Hstart Htr|Hidle Hpend Hstart Htr|Hpend Hterm Htr].
    + rewrite He in IH1, IH2. rewrite Htr in IH1, IH2. done.
    + split; [done|]. intros _. right.
      destruct IH1 as [Hne Hcount]; [by rewrite Hpend|].
      split; [done|]. rewrite Hcount, Htr. by rewrite bool_decide_eq_true_2.
    + apply terminal_not_pending in Hterm as [Hnp Hni].
      split; [|by rewrite Hpend].
      intros _. destruct IH1 as [Hne Hcount]; [done|].
      split; [done|]. rewrite Hcount, Htr.
      by rewrite bool_decide_eq_false_2 by congruence.
Qed.



Lemma cleared {A} (l : list (option A)) hi ht x y :
  l !! hi = Some x → l !! ht = Some y →
  <[ht := None]> (<[hi := None]> l) !! hi = Some None ∧
  <[ht := None]> (<[hi := None]> l) !! ht = Some None.
Proof.
  intros Hi%lookup_lt_Some Ht%lookup_lt_Some.
  destruct (decide (hi = ht)) as [->|Hne].
  - split; apply list_lookup_insert_eq; by rewrite length_insert.
  - split.
    + rewrite list_lookup_insert_ne by done. by apply list_lookup_insert_eq.
    + apply list_lookup_insert_eq. by rewrite length_insert.
Qed.





(** An expiry of an interval, as a task. *)
Lemma metrics_tick_spec s h g c d s' :
  wf s → timers s !! h = Some (Some {| callback := MetricsInterval g c; due := d |}) →
  step s (EvTimer h) = Some s' →
  now s' = d ∧ view s' = view s ∧ trace s' = trace s ++ [ObsMetricsFetch d c] ∧
  requests s' = requests s ++ [Some (MetricsRequest g c)] ∧
  timers s' = <[h := Some {| callback := MetricsInterval g c;
                             due := d + METRICS_POLL_INTERVAL |}]> (timers s).
Proof.
  intros Hwf Hh Hstep. unfold step in Hstep. rewrite Hh in Hstep.
  cbn [due] in Hstep. destruct (can_be d s) eqn:Hcan; [|done].
  injection Hstep as <-.
  destruct (tick_metrics h g c d s Hwf Hh Hcan) as (-> & _). done.
Qed.

Lemma k2_tick_spec s h g c d s' :
  wf s → timers s !! h = Some (Some {| callback := K2Interval g c; due := d |}) →
  step s (EvTimer h) = Some s' →
  now s' = d ∧ view s' = view s ∧ trace s' = trace s ++ [ObsK2Fetch d c] ∧
  requests s' = requests s ++ [Some (K2Request g c)] ∧
  timers s' = <[h := Some {| callback := K2Interval g c;
                             due := d + K2_POLL_INTERVAL |}]> (timers s).
Proof.
  intros Hwf Hh Hstep. unfold step in Hstep. rewrite Hh in Hstep.
  cbn [due] in Hstep. destruct (can_be d s) eqn:Hcan; [|done].
  injection Hstep as <-.
  destruct (tick_k2 h g c d s Hwf Hh Hcan) as (-> & _). done.
Qed.

(** An answer that is dropped: the clock moves and the request is
    closed. *)
Lemma answered_frame req at_ s :
  let s' := set_requests (<[req := None]> (requests s)) (set_now at_ s) in
  view s' = view s ∧ refs s' = refs s ∧ timers s' = timers s ∧ trace s' = trace s ∧
  metricsCleanup s' = metricsCleanup s ∧ k2Cleanup s' = k2Cleanup s ∧
  isMounted s' = isMounted s ∧ now s' = at_.
Proof. done. Qed.

End Runs.

Section Claims.

#[local] Arguments sets_to : simpl never.

(** C3. Between two changes of conversation the escalation trigger is
    edge-triggered.  Over any run of tasks (timer expiries, metrics
    answers, K2 answers) from a reachable state: when the state is not
    [idle] at the start it is not [idle] at the end and
    [setEscalationState('escalated_pending')] has not been called;
    when it is [idle] at the start the call has been made at most once,
    and exactly once when the state has left [idle].  And the trigger
    does fire on the first occasion: a metrics answer of the mounted
    poll that reports [total_escalations > 0] while the state is
    [idle] makes the state [escalated_pending] with one call; any
    other metrics answer leaves the escalation state alone. *)
Theorem escalation_edge_triggered s evs s' :
  reachable s → steady evs = true → run s evs = Some s' →
  let fired (x : State) := sets_to escalated_pending (trace x) in
  (escalationState (view s) ≠ idle →
     escalationState (view s') ≠ idle ∧ fired s' = fired s) ∧
  (escalationState (view s) = idle →
     (escalationState (view s') = idle ∧ fired s' = fired s) ∨
     (escalationState (view s') ≠ idle ∧ fired s' = S (fired s))) ∧
  ∀ at_ req g c data s'',
    requests s' !! req = Some (Some (MetricsRequest g c)) → mounted g s' = true →
    step s' (EvMetricsReply at_ req (Http true (Some data))) = Some s'' →
    if escalated data && bool_decide (escalationState (view s') = idle) then
      escalationState (view s'') = escalated_pending ∧ fired s'' = S (fired s')
    else
      escalationState (view s'') = escalationState (view s') ∧ fired s'' = fired s'.
Proof.
  intros Hreach Hst Hrun fired. apply reachable_wf in Hreach as Hwf.
  destruct (run_trigger evs s s' Hwf Hst Hrun) as [H1 H2].
  split_and!; [done|done|].
  pose proof (run_wf _ _ _ Hwf Hrun) as Hwf'.
  intros at_ req g c data s'' Hreq Hg Hstep.
  remember (Http true (Some data)) as r eqn:Hr.
  unfold step in Hstep. rewrite Hreq in Hstep.
  destruct (can_be at_ s') eqn:Hcan; [|done]. injection Hstep as <-.
  destruct (metrics_reply at_ req r g c s' Hwf' Hreq Hcan) as [_ Hcase].
  rewrite Hr in Hcase. cbn zeta in Hcase. rewrite Hg in Hcase. rewrite <- Hr in Hcase.
  destruct (escalated data && _); rewrite Hcase; subst fired; cbn.
  - split; [done|]. rewrite sets_to_snoc_other by done.
    rewrite sets_to_snoc_set. by rewrite bool_decide_eq_true_2.
  - done.
Qed.

(** C3, the stream of the example: metrics answers reporting 0, 0, 1,
    1, 2 escalations, with the timer expiries between them, starting
    from [idle]. *)
Lemma escalation_stream_fires_once :
  run Samples.panel_open Samples.escalation_stream
    = Some (Samples.after Samples.panel_open Samples.escalation_stream) ∧
  escalationState (view Samples.panel_open) = idle ∧
  sets_to escalated_pending (trace Samples.panel_open) = 0%nat ∧
  sets_to escalated_pending
    (trace (Samples.after Samples.panel_open Samples.escalation_stream)) = 1%nat.
Proof.
  assert (reachable Samples.panel_open) as Hreach
    by (exists [EvTabUrl 0 Samples.url_abc]; vm_compute; reflexivity).
  assert (run Samples.panel_open Samples.escalation_stream
          = Some (Samples.after Samples.panel_open Samples.escalation_stream)) as Hrun
    by (vm_compute; reflexivity).
  destruct (escalation_edge_triggered Samples.panel_open Samples.escalation_stream _
              Hreach eq_refl Hrun) as (_ & H & _).
  split_and!; [exact Hrun|reflexivity|reflexivity|].
  destruct (H eq_refl) as [[Hidle _]|[_ Hcount]].
  - vm_compute in Hidle. discriminate Hidle.
  - rewrite Hcount. reflexivity.
Defined.





(** C8. A metrics poll that fails (the fetch rejects, the status is
    not a success, or the body does not parse) changes nothing but
    the clock and the table of pending requests: every displayed
    value, the escalation state, the timers and the trace are as
    before.  The metrics interval of the current conversation is
    still armed for the instant it was armed for, and its expiry
    issues the next poll and re-arms it [METRICS_POLL_INTERVAL] =
    1500 ms later. *)
Theorem metrics_failure_keeps_snapshot s at_ req r s' :
  reachable s → step s (EvMetricsReply at_ req r) = Some s' →
  match r with Http true (Some _) => False | _ => True end →
  view s' = view s ∧ refs s' = refs s ∧ timers s' = timers s ∧ trace s' = trace s ∧
  metricsCleanup s' = metricsCleanup s ∧ k2Cleanup s' = k2Cleanup s ∧
  isMounted s' = isMounted s ∧ now s' = at_ ∧
  ∀ g h, metricsCleanup s = Some (g, h) →
    mounted g s' = true ∧
    ∃ d, timers s' !! h =
           Some (Some {| callback := MetricsInterval g (conversationId (view s'));
                         due := d |}) ∧ at_ ≤ d ∧
      ∀ s'', step s' (EvTimer h) = Some s'' →
        now s'' = d ∧ view s'' = view s' ∧
        trace s'' = trace s' ++ [ObsMetricsFetch d (conversationId (view s'))] ∧
        requests s'' =
          requests s' ++ [Some (MetricsRequest g (conversationId (view s')))] ∧
        timers s'' =
          <[h := Some {| callback := MetricsInterval g (conversationId (view s'));
                         due := d + METRICS_POLL_INTERVAL |}]> (timers s').
Proof.
  intros Hreach Hstep Hfail. apply reachable_wf in Hreach as Hwf.
  pose proof (step_wf _ _ _ Hwf Hstep) as Hwf'.
  unfold step in Hstep.
  destruct (requests s !! req) as [[[g0 c0|g0 c0]|]|] eqn:Hreq; try done.
  destruct (can_be at_ s) eqn:Hcan; [|done]. injection Hstep as <-.
  destruct (metrics_reply at_ req r g0 c0 s Hwf Hreq Hcan) as [_ Hcase].
  cbn zeta in Hcase.
  assert (commit (afterMetrics g0 r
                    (set_requests (<[req := None]> (requests s)) (set_now at_ s)))
          = set_requests (<[req := None]> (requests s)) (set_now at_ s)) as Heq
    by (by destruct r as [|[] [data|]]).
  rewrite Heq in Hwf' |- *. clear Heq Hcase.
  destruct (answered_frame req at_ s) as (Hv & Hr & Htm & Htr & Hmc & Hkc & Him & Hnow).
  cbn zeta in *.
  remember (set_requests (<[req := None]> (requests s)) (set_now at_ s)) as s1 eqn:Hs1.
  clear Hs1. split_and!; try done.
  intros g h Hm. pose proof (wf_metrics _ Hwf') as Hw.
  rewrite Hmc, Hm in Hw. destruct Hw as (_ & Hg & d & Hd).
  split; [by apply mounted_true|]. exists d. split; [exact Hd|split].
  - rewrite <- Hnow. apply (wf_now _ Hwf' _ _ Hd).
  - intros s'' Hstep. by eapply metrics_tick_spec.
Qed.

(** C8, on the sample: the snapshot with drift 1.8 survives a reply
    with a status that is not a success. *)
Lemma snapshot_survives_http_error :
  let s := Samples.after Samples.panel_open
             [EvMetricsReply 100 0 (Samples.reading 0); EvTimer 0] in
  let s' := Samples.after s [EvMetricsReply 1600 1 (Http false None)] in
  driftScore (view s) = (18 # 10)%Q ∧ view s' = view s ∧ trace s' = trace s ∧
  timers s' !! 0%nat =
    Some (Some {| callback := MetricsInterval 0 "abc"; due := 3000 |}).
Proof.
  intros s s'.
  assert (reachable s) as Hreach.
  { exists [EvTabUrl 0 Samples.url_abc; EvMetricsReply 100 0 (Samples.reading 0);
            EvTimer 0].
    vm_compute. reflexivity. }
  assert (step s (EvMetricsReply 1600 1 (Http false None)) = Some s') as Hstep
    by (vm_compute; reflexivity).
  destruct (metrics_failure_keeps_snapshot s 1600 1 (Http false None) s' Hreach Hstep I)
    as (Hv & _ & Htm & Htr & _).
  split_and!; [vm_compute; reflexivity|exact Hv|exact Htr|].
  rewrite Htm. vm_compute. reflexivity.
Defined.

(** C10. While the state is [escalated_pending], a K2 answer with
    status "completed" whose [result_type] is absent, or is neither
    "confirmed" nor "overridden", changes nothing but the clock and
    the table of pending requests: the state stays pending, the
    confidence and the explanation are as before, no call of
    [setEscalationState] is made, and the K2 run stays mounted with
    its interval and its timeout armed as they were, so that the next
    expiry of the interval polls again. *)
Theorem unknown_result_type_is_ignored s at_ req data s' :
  reachable s → escalationState (view s) = escalated_pending →
  status data = Some "completed" →
  result_type data ≠ Some "confirmed" → result_type data ≠ Some "overridden" →
  step s (EvK2Reply at_ req (Http true (Some data))) = Some s' →
  view s' = view s ∧ refs s' = refs s ∧ trace s' = trace s ∧ timers s' = timers s ∧
  k2Cleanup s' = k2Cleanup s ∧ isMounted s' = isMounted s ∧ now s' = at_ ∧
  ∃ g hi ht d,
    k2Cleanup s' = Some (g, hi, ht) ∧ mounted g s' = true ∧
    timers s' !! hi =
      Some (Some {| callback := K2Interval g (conversationId (view s')); due := d |}) ∧
    at_ ≤ d ∧
    timers s' !! ht =
      Some (Some {| callback := K2TimeoutCb g;
                    due := escalationStartTimeRef (refs s) + K2_TIMEOUT |}) ∧
    ∀ s'', step s' (EvTimer hi) = Some s'' →
      escalationState (view s'') = escalated_pending ∧
      trace s'' = trace s' ++ [ObsK2Fetch d (conversationId (view s'))].
Proof.
  intros Hreach Hp Hst Hc Ho Hstep. apply reachable_wf in Hreach as Hwf.
  pose proof (step_wf _ _ _ Hwf Hstep) as Hwf'.
  remember (Http true (Some data)) as r eqn:Hr.
  unfold step in Hstep.
  destruct (requests s !! req) as [[[g0 c0|g0 c0]|]|] eqn:Hreq; try done.
  destruct (can_be at_ s) eqn:Hcan; [|done]. injection Hstep as <-.
  destruct (k2_reply at_ req r g0 c0 s Hwf Hreq Hcan) as [_ Hcase].
  cbn zeta in Hcase.
  assert (verdict data (k2Confidence (view s)) = None) as Hv.
  { unfold verdict. rewrite decide_True by done. by rewrite !decide_False by done. }
  assert (commit (afterK2 g0 r
                    (set_requests (<[req := None]> (requests s)) (set_now at_ s)))
          = set_requests (<[req := None]> (requests s)) (set_now at_ s)) as Heq.
  { rewrite Hr in Hcase. rewrite Hv in Hcase. rewrite <- Hr in Hcase.
    by destruct (mounted g0 s). }
  rewrite Heq in Hwf' |- *. clear Heq Hcase.
  destruct (answered_frame req at_ s) as (Hvw & Hrf & Htm & Htr & Hmc & Hkc & Him & Hnow).
  cbn zeta in *.
  remember (set_requests (<[req := None]> (requests s)) (set_now at_ s)) as s1 eqn:Hs1.
  clear Hs1. split_and!; try done.
  pose proof (wf_k2 _ Hwf') as Hk.
  destruct (k2Cleanup s1) as [[[g hi] ht]|] eqn:Hclean; [|by rewrite Hvw in Hk].
  destruct Hk as (_ & Hg & [d Hd] & Ht).
  exists g, hi, ht, d. split_and!; try done.
  - by apply mounted_true.
  - rewrite <- Hnow. apply (wf_now _ Hwf' _ _ Hd).
  - by rewrite <- Hrf.
  - intros s'' Hstep.
    destruct (k2_tick_spec _ _ _ _ _ _ Hwf' Hd Hstep) as (_ & Hv' & Htr' & _).
    split; [|done]. by rewrite Hv', Hvw.
Qed.

(** C10, on the sample: "completed" with no [result_type]. *)
Lemma completed_without_result_type :
  let s' := Samples.after Samples.panel_pending
              [EvK2Reply 3500 3 (Samples.k2_status "completed" None)] in
  view s' = view Samples.panel_pending ∧
  escalationState (view s') = escalated_pending ∧
  trace s' = trace Samples.panel_pending ∧
  timers s' = timers Samples.panel_pending.
Proof.
  intros s'.
  assert (reachable Samples.panel_pending) as Hreach.
  { exists (EvTabUrl 0 Samples.url_abc :: Samples.quiet_polls ++
            [EvMetricsReply 3100 2 (Samples.reading 1)]).
    vm_compute. reflexivity. }
  destruct (unknown_result_type_is_ignored Samples.panel_pending 3500 3
              {| status := Some "completed"; result_type := None;
                 k2_confidence := Some (91 # 100)%Q; k2_explanation := None |} s'
              Hreach eq_refl eq_refl)
    as (Hv & _ & Htr & Htm & _);
    [discriminate|discriminate|vm_compute; reflexivity|].
  split_and!; [exact Hv|rewrite Hv; vm_compute; reflexivity|exact Htr|exact Htm].
Defined.

End Claims.

Section Navigation.


End Navigation.

End SidebarFacts.
(** ** Facts about the three programs together *)

Module SystemFacts.

Import System.

Section Invariant.






End Invariant.

Section Claims.





End Claims.

End SystemFacts.

(** ** Facts about the runs of the content script *)

Module ScansFacts.

Import ContentScript Scans ContentScriptFacts.

Section Extraction.

Lemma extractTurn_fields last now index node t :
  extractTurn last now index node = Some t →
  id t = Z.of_nat index + 1 ∧ last < id t ∧
  speaker t = (if decide (author_role node = Some "user") then user else model) ∧
  text t = normalize (raw_text node) ∧ (2 ≤ String.length (text t))%nat ∧ ts t = now.
Proof.
  unfold extractTurn, raw_text.
  destruct (Z.of_nat index + 1 <=? last) eqn:Hle; [done|]. apply Z.leb_gt in Hle.
  destruct (String.length _ <? 2)%nat eqn:Hlen; [done|]. apply Nat.ltb_ge in Hlen.
  intros [= <-]. cbn. split_and!; try done; lia.
Qed.

Lemma last_cons (x : Z) r d : List.last (x :: r) d = List.last r x.
Proof.
  revert x d. induction r as [|z r IH]; intros x d; [done|].
  change (List.last (x :: z :: r) d) with (List.last (z :: r) d). by rewrite !IH.
Qed.

Lemma ascending_cons lo x r : ascending lo (x :: r) = true ↔ lo < x ∧ ascending x r = true.
Proof. cbn. rewrite andb_true_iff, Z.ltb_lt. done. Qed.

Lemma ascending_weaken lo lo' l : lo' ≤ lo → ascending lo l = true → ascending lo' l = true.
Proof.
  destruct l as [|x r]; [done|]. rewrite !ascending_cons. intros ? [? ?]. split; [lia|done].
Qed.

Lemma ascending_above lo l x : ascending lo l = true → x ∈ l → lo < x.
Proof.
  revert lo. induction l as [|y r IH]; intros lo Hs Hx; [by apply elem_of_nil in Hx|].
  apply ascending_cons in Hs as [Hlt Hs].
  apply elem_of_cons in Hx as [->|Hx]; [done|]. specialize (IH y Hs Hx). lia.
Qed.

Lemma ascending_last lo l x : ascending lo l = true → x ∈ l → x ≤ List.last l lo.
Proof.
  revert lo. induction l as [|y r IH]; intros lo Hs Hx; [by apply elem_of_nil in Hx|].
  apply ascending_cons in Hs as [Hlt Hs].
  rewrite last_cons.
  apply elem_of_cons in Hx as [->|Hx]; [|by apply IH].
  clear IH Hlt. revert y Hs. induction r as [|z r IH]; intros x Hs; [cbn; lia|].
  apply ascending_cons in Hs as [Hlt Hs]. specialize (IH z Hs).
  rewrite last_cons. lia.
Qed.

Lemma ascending_app lo l1 l2 :
  ascending lo l1 = true → ascending (List.last l1 lo) l2 = true →
  ascending lo (l1 ++ l2) = true ∧ List.last (l1 ++ l2) lo = List.last l2 (List.last l1 lo).
Proof.
  revert lo. induction l1 as [|x r IH]; intros lo H1 H2; [done|].
  apply ascending_cons in H1 as [Hlt H1].
  rewrite last_cons in H2. destruct (IH x H1 H2) as [Hs Hlast].
  split.
  - cbn [app]. apply ascending_cons. done.
  - change ((x :: r) ++ l2) with (x :: (r ++ l2)). by rewrite !last_cons.
Qed.

(** The ids of a scan of the nodes [l], the first of which is at
    position [k]. *)
Lemma scan_ascending last now (l : list Node) : ∀ k bound,
  bound < Z.of_nat k + 1 →
  ascending bound
    (id <$> omap (λ '(index, node), extractTurn last now index node)
              (imap (λ i, pair (k + i)%nat) l)) = true.
Proof.
  induction l as [|node l IH]; intros k bound Hb; cbn; [done|].
  assert (imap ((λ i, pair (k + i)%nat) ∘ S) l = imap (λ i, pair (S k + i)%nat) l) as ->.
  { apply imap_ext. intros i x _. cbn. f_equal. lia. }
  replace (k + 0)%nat with k by lia.
  destruct (extractTurn last now k node) as [t|] eqn:Ht; cbn.
  - apply extractTurn_fields in Ht as (Hid & _).
    rewrite andb_true_iff, Z.ltb_lt. split; [lia|]. apply (IH (S k)). lia.
  - apply (IH (S k)). lia.
Qed.

(** The highest id of a batch is its last one. *)
Lemma max_id_last t l :
  ascending (id t) (id <$> l) = true → max_id t l = List.last (id <$> l) (id t).
Proof.
  unfold max_id. revert t. induction l as [|x r IH]; intros t Hs; [done|].
  cbn [fmap list_fmap] in Hs. apply ascending_cons in Hs as [Hlt Hs]. cbn [foldr].
  assert (foldr (λ y m, Z.max (id y) m) (id t) r ≤ foldr (λ y m, Z.max (id y) m) (id x) r)
    as Hmono.
  { clear -Hlt. induction r as [|z r IH]; cbn; lia. }
  specialize (IH x Hs).
  assert (id x ≤ foldr (λ y m, Z.max (id y) m) (id x) r) as Hfirst
    by (clear; induction r; cbn; lia).
  assert (foldr (λ y m, Z.max (id y) m) (id x) r
          ≤ Z.max (id x) (foldr (λ y m, Z.max (id y) m) (id t) r)) as Hup
    by (clear; induction r; cbn; lia).
  cbn [fmap list_fmap]. rewrite last_cons, <- IH. lia.
Qed.

Lemma ascending_from b lo l :
  ascending b l = true → (∀ x, x ∈ l → lo < x) → ascending lo l = true.
Proof.
  destruct l as [|x r]; [done|]. rewrite !ascending_cons. intros [_ Hs] Hall.
  split; [|done]. apply Hall. left.
Qed.

Lemma extracted_ascending last now d :
  ascending last (id <$> extractTurnsFromDOM last now d) = true.
Proof.
  apply (ascending_from 0).
  - apply (scan_ascending last now (selectMessages d) 0 0). lia.
  - intros x (t & -> & Ht)%list_elem_of_fmap.
    by apply extractTurns_new in Ht as [? _].
Qed.

End Extraction.

Section Properties.


Lemma turns_sent_app l1 l2 : turns_sent (l1 ++ l2) = turns_sent l1 ++ turns_sent l2.
Proof. unfold turns_sent. by rewrite bind_app. Qed.

Lemma step_stays s ev :
  stays (currentConversationId s) ev = true →
  ∃ new,
    sent (step s ev) = sent s ++ new ∧
    ascending (lastSeenTurnId s) (id <$> turns_sent new) = true ∧
    lastSeenTurnId (step s ev) = List.last (id <$> turns_sent new) (lastSeenTurnId s) ∧
    currentConversationId (step s ev) = currentConversationId s.
Proof.
  intros Hst.
  assert (∀ alive now d,
    let p := sendTurnsToBackground alive (extractTurnsFromDOM (lastSeenTurnId s) now d) s in
    ∃ new,
      sent p = sent s ++ new ∧
      ascending (lastSeenTurnId s) (id <$> turns_sent new) = true ∧
      lastSeenTurnId p = List.last (id <$> turns_sent new) (lastSeenTurnId s) ∧
      currentConversationId p = currentConversationId s) as Hscan.
  { intros alive now d. cbn zeta.
    pose proof (extracted_ascending (lastSeenTurnId s) now d) as Hasc.
    destruct (extractTurnsFromDOM (lastSeenTurnId s) now d) as [|t l] eqn:Hl;
      [exists []; by rewrite app_nil_r|].
    destruct alive; [|exists []; by rewrite app_nil_r]. cbn.
    eexists [_]. split; [done|]. unfold turns_sent. cbn. rewrite app_nil_r.
    split_and!; [done| |done].
    cbn [fmap list_fmap] in Hasc. apply ascending_cons in Hasc as [_ Hasc].
    transitivity (max_id t l); [done|]. rewrite max_id_last by done.
    symmetry. exact (last_cons (id t) (id <$> l) (lastSeenTurnId s)). }
  destruct ev as [alive now d|url|alive now d]; cbn [step]; [apply Hscan| |apply Hscan].
  cbn in Hst. apply bool_decide_eq_true in Hst.
  unfold onConversationChanged, getConversationId. cbn. rewrite decide_True by done.
  exists []. cbn. by rewrite app_nil_r.
Qed.

(** As long as the script stays on one conversation, a position is
    sent at most once: over any sequence of scans (and navigations
    that keep the conversation), the ids of the turns sent, in the
    order they were sent, increase strictly and start above the
    [lastSeenTurnId] of the beginning, and [lastSeenTurnId] ends as
    the last id sent.  So a message sent while its text was still
    growing is not sent again when it is complete, and a message
    skipped as too short below one that was sent is never sent. *)
Theorem positions_are_sent_once s evs :
  forallb (stays (currentConversationId s)) evs = true →
  ∃ new,
    sent (run s evs) = sent s ++ new ∧
    ascending (lastSeenTurnId s) (id <$> turns_sent new) = true ∧
    lastSeenTurnId (run s evs) = List.last (id <$> turns_sent new) (lastSeenTurnId s) ∧
    (∀ t, t ∈ turns_sent new → lastSeenTurnId s < id t ≤ lastSeenTurnId (run s evs)).
Proof.
  intros Hst.
  assert (∃ new,
    sent (run s evs) = sent s ++ new ∧
    ascending (lastSeenTurnId s) (id <$> turns_sent new) = true ∧
    lastSeenTurnId (run s evs) = List.last (id <$> turns_sent new) (lastSeenTurnId s))
    as (new & Hsent & Hasc & Hlast).
  { revert s Hst. induction evs as [|ev evs IH]; intros s Hst.
    - exists []. by rewrite app_nil_r.
    - cbn in Hst. apply andb_true_iff in Hst as [Hev Hst].
      destruct (step_stays s ev Hev) as (new1 & Hs1 & Ha1 & Hl1 & Hc1).
      rewrite <- Hc1 in Hst.
      destruct (IH (step s ev) Hst) as (new2 & Hs2 & Ha2 & Hl2).
      exists (new1 ++ new2). change (run s (ev :: evs)) with (run (step s ev) evs).
      rewrite Hs2, Hs1, app_assoc. split; [done|].
      rewrite turns_sent_app, fmap_app. rewrite Hl1 in Ha2, Hl2.
      destruct (ascending_app _ _ _ Ha1 Ha2) as [Ha Hl]. by rewrite Hl. }
  exists new. split_and!; try done.
  intros t Ht. assert (id t ∈ id <$> turns_sent new) as Hin
    by (apply list_elem_of_fmap; eauto).
  split; [by eapply ascending_above|]. rewrite Hlast. by apply ascending_last.
Qed.

(** On the sample page: both messages are sent by the first scan, the
    second scan of the same page sends nothing, and when a third
    message appears only that one is sent. *)
Lemma positions_are_sent_once_witness :
  let evs := [EvObserve true "t0" Samples.doc_abc; EvObserve true "t1" Samples.doc_abc;
              EvObserve true "t2" MoreSamples.doc_more] in
  id <$> turns_sent (sent (run (initial Samples.url_abc) evs)) = [1; 2; 3].
Proof.
  intros evs.
  destruct (positions_are_sent_once (initial Samples.url_abc) evs eq_refl)
    as (new & Hsent & _).
  rewrite Hsent. vm_compute in Hsent. subst new. vm_compute. reflexivity.
Defined.

(** When the URL changes to another conversation the script forgets
    what it has sent: [lastSeenTurnId] is 0 again, nothing is sent by
    the navigation itself, and the next scan sends every message of
    the page that has a text, under the new conversation id, also the
    positions that were sent before the change. *)
Theorem change_of_conversation_resends_the_page s url now d :
  extractConversationId url ≠ currentConversationId s →
  let s1 := step s (EvNavigate url) in
  lastSeenTurnId s1 = 0 ∧ sent s1 = sent s ∧
  currentConversationId s1 = extractConversationId url ∧
  ∀ t l, extractTurnsFromDOM 0 now d = t :: l →
    sent (step s1 (EvSettled true now d)) =
      sent s ++ [{| conversationId := extractConversationId url; turns := t :: l |}].
Proof.
  intros Hne. cbn [step]. unfold onConversationChanged, getConversationId. cbn.
  rewrite decide_False by done. cbn. split_and!; try done.
  intros t l Hl. rewrite Hl. done.
Qed.

(** Going from [abc] to [xyz] and back: the two turns of [abc] are
    sent a second time. *)
Lemma change_of_conversation_resends_the_page_witness :
  let s := run (initial Samples.url_abc)
             [EvObserve true "t0" Samples.doc_abc; EvNavigate Samples.url_xyz] in
  let s' := run s [EvNavigate Samples.url_abc; EvSettled true "t5" Samples.doc_abc] in
  lastSeenTurnId s = 0 ∧
  (conversationId <$> sent s') = ["abc"; "abc"] ∧
  (id <$> turns_sent (sent s')) = [1; 2; 1; 2].
Proof.
  intros s s'.
  destruct (change_of_conversation_resends_the_page s Samples.url_abc "t5" Samples.doc_abc)
    as (_ & _ & _ & Hsend); [vm_compute; discriminate|].
  split; [reflexivity|]. subst s'. cbn [run fold_left].
  erewrite Hsend by (vm_compute; reflexivity). vm_compute. done.
Defined.

End Properties.

End ScansFacts.

(** ** Facts about the text of a turn and about conversation ids *)

Module TextFacts.

Import ContentScript Text.

Section Normalize.






End Normalize.

Section Properties.


End Properties.

Section ConversationId.

Lemma id_run_chars s : all_id_chars (id_run s) = true.
Proof. induction s as [|a r IH]; [done|]. cbn. destruct (is_id_char a) eqn:Ha; [|done]. cbn. by rewrite Ha. Qed.

Lemma match_id_chars s m : match_id s = Some m → m ≠ EmptyString ∧ all_id_chars m = true.
Proof.
  induction s as [|a r IH]; [cbn; done|]. cbn [match_id].
  destruct (after_prefix (String a r)) as [x|] eqn:Hx; cbn [fmap option_fmap option_map].
  - destruct (id_run x) as [|b m'] eqn:Hrun; [exact IH|].
    intros [= <-]. split; [done|]. rewrite <- Hrun. apply id_run_chars.
  - exact IH.
Qed.

Lemma app_empty (s : string) : "" +:+ s = s.
Proof. reflexivity. Qed.

Lemma app_String a (r s : string) : String a r +:+ s = String a (r +:+ s).
Proof. reflexivity. Qed.

Lemma id_run_whole m rest :
  all_id_chars m = true → ends_id rest = true → id_run (m ++ rest) = m.
Proof.
  intros Hm Hrest. induction m as [|a r IH].
  - rewrite app_empty. destruct rest as [|b rest]; [done|]. cbn in *.
    destruct (is_id_char b); cbn in *; done.
  - rewrite app_String. cbn in Hm |- *. apply andb_true_iff in Hm as [Ha Hm].
    rewrite Ha. by rewrite IH.
Qed.

Lemma string_app_assoc (x y z : string) : (x +:+ y) +:+ z = x +:+ (y +:+ z).
Proof. induction x as [|k x IH]; [done|]. rewrite !app_String. by rewrite IH. Qed.

(** [after_prefix] reads three characters. *)
Lemma after_prefix_three a b c (X Y : string) :
  match after_prefix (String a (String b (String c X))) with
  | Some x => x = X ∧ after_prefix (String a (String b (String c Y))) = Some Y
  | None => after_prefix (String a (String b (String c Y))) = None
  end.
Proof.
  destruct a as [[] [] [] [] [] [] [] []]; try done.
  destruct b as [[] [] [] [] [] [] [] []]; try done.
  destruct c as [[] [] [] [] [] [] [] []]; done.
Qed.

Lemma id_run_stop (x T : string) :
  x ≠ EmptyString → id_run x = EmptyString → id_run (x +:+ T) = EmptyString.
Proof.
  destruct x as [|a x]; [done|]. intros _. rewrite app_String. cbn.
  by destruct (is_id_char a).
Qed.

(** A non-empty text followed by [/c] has three characters. *)
Lemma three_chars a (p : string) :
  ∃ b c r, String a p +:+ "/c" = String a (String b (String c r)).
Proof.
  destruct p as [|b [|c r]].
  - by exists "/"%char, "c"%char, EmptyString.
  - by exists b, "/"%char, "c"%string.
  - by exists b, c, (r +:+ "/c").
Qed.

(** When no match of [/c/] followed by an id character begins in
    [p], the id that follows [p] and [/c/] is the one found. *)
Lemma match_id_after p : ∀ m rest,
  match_id (p +:+ "/c/") = None →
  m ≠ EmptyString → all_id_chars m = true → ends_id rest = true →
  match_id (p +:+ "/c/" +:+ m +:+ rest) = Some m.
Proof.
  induction p as [|a p IH]; intros m rest Hnone Hm Hchars Hrest.
  - rewrite !app_empty. destruct m as [|b m]; [done|].
    change ("/c/" +:+ String b m +:+ rest)
      with (String "/" (String "c" (String "/" (String b m +:+ rest)))).
    cbn [match_id after_prefix fmap option_fmap option_map].
    rewrite id_run_whole by done. done.
  - destruct (three_chars a p) as (b & c & r & Hu).
    assert (String a p +:+ "/c/" = String a (String b (String c (r +:+ "/")))) as Hshort.
    { change "/c/" with ("/c" +:+ "/"). by rewrite <- string_app_assoc, Hu. }
    assert (String a p +:+ "/c/" +:+ m +:+ rest
            = String a (String b (String c (r +:+ "/" +:+ m +:+ rest)))) as Hlong.
    { change ("/c/" +:+ m +:+ rest) with ("/c" +:+ ("/" +:+ m +:+ rest)).
      by rewrite <- string_app_assoc, Hu. }
    assert (match_id (p +:+ "/c/") = None ∧
            (id_run <$> after_prefix (String a p +:+ "/c/" +:+ m +:+ rest) = None ∨
             id_run <$> after_prefix (String a p +:+ "/c/" +:+ m +:+ rest)
             = Some EmptyString)) as [Hp Hhere].
    { rewrite app_String in Hnone. cbn [match_id] in Hnone. rewrite <- app_String in Hnone.
      rewrite Hshort in Hnone. rewrite Hlong.
      pose proof (after_prefix_three a b c (r +:+ "/") (r +:+ "/" +:+ m +:+ rest)) as H3.
      destruct (after_prefix (String a (String b (String c (r +:+ "/"))))) as [x|].
      - destruct H3 as [-> ->]. cbn [fmap option_fmap option_map] in Hnone |- *.
        destruct (id_run (r +:+ "/")) as [|k y] eqn:Hrun; [|done].
        split; [|right].
        + exact Hnone.
        + f_equal. destruct r as [|f r]; [done|]. rewrite !app_String in Hrun |- *.
          cbn in Hrun |- *. by destruct (is_id_char f).
      - rewrite H3. cbn [fmap option_fmap option_map] in Hnone |- *.
        split; [exact Hnone|by left]. }
    rewrite app_String. cbn [match_id]. rewrite <- app_String.
    destruct Hhere as [-> | ->]; by apply IH.
Qed.

(** The conversation id read from a URL is never empty and is made
    of letters, digits and hyphens only (the fallback ['default']
    included), whatever the URL. *)
Theorem conversation_id_is_a_path_segment url :
  extractConversationId url ≠ EmptyString ∧
  all_id_chars (extractConversationId url) = true.
Proof.
  unfold extractConversationId. destruct (match_id url) as [m|] eqn:Hm; [|done].
  by apply match_id_chars in Hm.
Qed.

(** Reading back an id: for a URL made of a part [p] in which no
    [/c/] is followed by a letter, digit or hyphen, then [/c/], then a
    non-empty id [m], then nothing or something that begins with
    another character, the id read is [m]. *)
Theorem conversation_id_round_trip p m rest :
  match_id (p +:+ "/c/") = None →
  m ≠ EmptyString → all_id_chars m = true → ends_id rest = true →
  extractConversationId (p +:+ "/c/" +:+ m +:+ rest) = m.
Proof.
  intros Hp Hm Hc Hr. unfold extractConversationId.
  by rewrite match_id_after.
Qed.

Lemma conversation_id_round_trip_witness :
  extractConversationId "https://chatgpt.com/c/67f1-abC9?model=gpt-4" = "67f1-abC9".
Proof.
  apply (conversation_id_round_trip "https://chatgpt.com" "67f1-abC9" "?model=gpt-4");
    [reflexivity|discriminate|reflexivity|reflexivity].
Defined.

End ConversationId.

End TextFacts.

(** ** Facts about the debounced observer *)

Module DebounceFacts.

Import Debounce.

Section Invariant.

Lemma replay_snoc p tr o :
  replay p (tr ++ [o]) = q ← replay p tr; replay q [o].
Proof.
  revert p. induction tr as [|x tr IH]; intros p; cbn.
  - by destruct (replay p [o]).
  - destruct x as [t|t]; [apply IH|].
    destruct p as [m|]; [|done]. case_decide; [apply IH|done].
Qed.

(** Between two tasks: the trace follows the discipline, and a
    timeout is armed exactly when a mutation is pending; it is the
    one named by [debounceTimer] and is due [DEBOUNCE_MS] after that
    mutation. *)
Record inv (s : State) (pending : option Z) : Prop := {
  inv_trace : replay None (trace s) = Some pending;
  inv_armed : ∀ h d, timers s !! h = Some (Some d) →
    debounceTimer s = Some h ∧ pending = Some (d - DEBOUNCE_MS);
  inv_pending : ∀ m, pending = Some m →
    ∃ h, debounceTimer s = Some h ∧ timers s !! h = Some (Some (m + DEBOUNCE_MS))
}.

Lemma observer_starts_idle : inv initial None.
Proof. split; done. Qed.

Lemma observer_step s p ev s' : inv s p → step s ev = Some s' → ∃ p', inv s' p'.
Proof.
  intros [Htr Harmed Hpend] Hstep. destruct ev as [at_|h]; cbn in Hstep.
  - destruct (can_be at_ s); [|done]. injection Hstep as <-.
    exists (Some at_). unfold observeDOM. cbn.
    assert (∀ tm, (∀ h d, tm !! h = Some (Some d) → False) →
            inv {| debounceTimer := Some (length tm);
                   timers := tm ++ [Some (at_ + DEBOUNCE_MS)];
                   now := at_; trace := trace s ++ [ObsMutation at_] |} (Some at_)) as Hnew.
    { intros tm Hnone. split; cbn.
      - rewrite replay_snoc, Htr. done.
      - intros h d Hh. apply lookup_app_Some in Hh as [Hh|[Hlen Hh]];
          [by apply Hnone in Hh|].
        apply list_lookup_singleton_Some in Hh as [Hz [= <-]].
        split; [f_equal; lia|f_equal; lia].
      - intros m [= <-]. exists (length tm). split; [done|].
        by apply list_lookup_middle. }
    destruct (debounceTimer s) as [h0|] eqn:Hd; cbn.
    + apply Hnew.
      intros h d Hh. destruct (decide (h = h0)) as [->|Hne].
      * apply list_lookup_insert_Some in Hh as [(_ & ? & _)|(? & _)]; done.
      * rewrite list_lookup_insert_ne in Hh by done.
        destruct (Harmed h d Hh) as [? _]. congruence.
    + apply Hnew. intros h d Hh. by destruct (Harmed h d Hh).
  - destruct (timers s !! h) as [[d|]|] eqn:Hh; try done.
    destruct (can_be d s); [|done]. injection Hstep as <-.
    destruct (Harmed h d Hh) as [Hd ->].
    exists None. split; cbn.
    + rewrite replay_snoc, Htr. cbn. rewrite decide_True by lia. done.
    + intros h' d' Hh'. destruct (decide (h' = h)) as [->|Hne].
      * apply list_lookup_insert_Some in Hh' as [(_ & ? & _)|(? & _)]; done.
      * rewrite list_lookup_insert_ne in Hh' by done.
        destruct (Harmed h' d' Hh') as [? _]. congruence.
    + done.
Qed.

Lemma observer_run evs : ∀ s p s', inv s p → run s evs = Some s' → ∃ p', inv s' p'.
Proof.
  induction evs as [|ev evs IH]; intros s p s' Hinv Hrun; cbn in Hrun.
  - injection Hrun as <-. eauto.
  - destruct (step s ev) as [s1|] eqn:Hstep; [|done]. cbn in Hrun.
    destruct (observer_step _ _ _ _ Hinv Hstep) as [p1 Hinv1]. eauto.
Qed.

End Invariant.

Section Properties.

(** Whatever the page does, the trace of the observer follows the
    debounce discipline: every scan comes exactly [DEBOUNCE_MS] = 800
    ms after the latest mutation, with no other scan in between, so a
    burst of mutations less than 800 ms apart is followed by one
    scan, 800 ms after its last mutation.  At most one timeout is
    armed at any time: there is one exactly when a mutation has not
    been followed by a scan yet, and it is the one [debounceTimer]
    names. *)
Theorem one_scan_after_a_burst evs s :
  run initial evs = Some s →
  ∃ pending,
    replay None (trace s) = Some pending ∧
    (∀ h d, timers s !! h = Some (Some d) →
       debounceTimer s = Some h ∧ pending = Some (d - DEBOUNCE_MS)) ∧
    (∀ m, pending = Some m →
       ∃ h, debounceTimer s = Some h ∧ timers s !! h = Some (Some (m + DEBOUNCE_MS))).
Proof.
  intros Hrun.
  destruct (observer_run _ _ _ _ observer_starts_idle Hrun) as [p [H1 H2 H3]]. eauto.
Qed.

(** Mutations at 0, 500 and 1000: the timeouts armed at 0 and 500
    never expire, and the page is scanned once, at 1800. *)
Lemma one_scan_after_a_burst_witness :
  ∃ s, run initial [EvMutation 0; EvMutation 500; EvMutation 1000; EvTimeout 2] = Some s ∧
       trace s = [ObsMutation 0; ObsMutation 500; ObsMutation 1000; ObsScan 1800] ∧
       timers s = [None; None; None] ∧
       step s (EvTimeout 0) = None ∧ step s (EvTimeout 1) = None.
Proof.
  eexists. split; [reflexivity|].
  destruct (one_scan_after_a_burst
              [EvMutation 0; EvMutation 500; EvMutation 1000; EvTimeout 2] _ eq_refl)
    as (p & Hp & _).
  vm_compute in Hp. injection Hp as <-. by vm_compute.
Defined.

End Properties.

End DebounceFacts.

(** ** More facts about the service worker *)

Module LedgerFacts.

Import Background ListFacts BackgroundFacts Ledger.

Section Queue.

#[local] Arguments settle : simpl never.

Lemma tally_app f l1 l2 : tally f (l1 ++ l2) = (tally f l1 + tally f l2)%nat.
Proof. unfold tally. by rewrite filter_app, length_app. Qed.

Lemma tally_cons f o l : tally f (o :: l) = ((if f o then 1 else 0) + tally f l)%nat.
Proof.
  unfold tally. rewrite filter_cons.
  destruct (f o) eqn:Hf;
    [rewrite decide_True by done|rewrite decide_False by (cbn; tauto)]; done.
Qed.

(** Every enqueued turn is waiting, in hand, or settled. *)
Lemma fifo_settled c tr : ∀ b cur b' cur',
  fifo c b cur tr = Some (b', cur') →
  (length b + length (option_list cur)
   = tally (is_settled c) tr + length b' + length (option_list cur'))%nat.
Proof.
  induction tr as [|o tr IH]; intros b cur b' cur' Hf; cbn in Hf.
  - injection Hf as <- <-. unfold tally. cbn. lia.
  - rewrite tally_cons. destruct o as [c' t|c' ms|a|l|n|c' t d|p]; cbn [is_settled];
      try (apply IH in Hf; lia).
    + case_decide; [|apply IH in Hf; lia].
      destruct cur as [t'|].
      * case_decide; [|done]. apply IH in Hf. lia.
      * destruct b as [|t' b0]; [done|]. case_decide; [|done].
        apply IH in Hf. cbn in *. lia.
    + case_decide as Hc.
      * rewrite bool_decide_eq_true_2 by done.
        destruct cur as [t'|]; [|done]. case_decide; [|done].
        apply IH in Hf. cbn in *. lia.
      * rewrite bool_decide_eq_false_2 by done. apply IH in Hf. lia.
Qed.

End Queue.

Section Accounts.

#[local] Arguments settle : simpl never.

Lemma accounted_nil : accounted [].
Proof. by split_and!. Qed.

Lemma accounted_app l1 l2 : accounted l1 → accounted l2 → accounted (l1 ++ l2).
Proof. unfold accounted. rewrite !tally_app. lia. Qed.

Lemma keeps_refl s : keeps s s.
Proof. split; [done|done|]. exists []. by rewrite app_nil_r. Qed.

Lemma keeps_trans s1 s2 s3 : keeps s1 s2 → keeps s2 s3 → keeps s1 s3.
Proof.
  intros [P1 L1 (l1 & T1 & A1)] [P2 L2 (l2 & T2 & A2)]. split.
  - by rewrite P2.
  - lia.
  - exists (l1 ++ l2). rewrite T2, T1, app_assoc. split; [done|by apply accounted_app].
Qed.

(** A change that touches neither the promises, the microtasks nor
    the trace. *)
Lemma keeps_same s s' :
  promises s' = promises s → microtasks s' = microtasks s → trace s' = trace s →
  keeps s s'.
Proof.
  intros Hp Hm Ht. split.
  - unfold responders_of, answered, registered. by rewrite Hp, Hm, Ht.
  - by rewrite Hp.
  - exists []. rewrite app_nil_r. done.
Qed.

Lemma keeps_set_ops o s : keeps s (set_ops o s).
Proof. by apply keeps_same. Qed.

Lemma keeps_set_queues q s : keeps s (set_queues q s).
Proof. by apply keeps_same. Qed.

Lemma keeps_emit o s : omap sent_id o = [] → accounted o → keeps s (emit o s).
Proof.
  intros Ho Ha. split; [|done|by exists o].
  unfold responders_of, answered. cbn. by rewrite omap_app, Ho, app_nil_r.
Qed.

Lemma registered_insert (ps : list PromiseState) p x y :
  ps !! p = Some y →
  (<[p := x]> ps ≫= responders) ++ responders y ≡ₚ (ps ≫= responders) ++ responders x.
Proof.
  revert p. induction ps as [|a ps IH]; intros [|p] Hp; simplify_eq/=.
  - rewrite <- !app_assoc. rewrite (Permutation_app_comm (ps ≫= responders) (responders y)).
    rewrite Permutation_app_swap_app. apply Permutation_app_head.
    apply Permutation_app_comm.
  - rewrite <- !app_assoc. apply Permutation_app_head. by apply IH.
Qed.

Lemma keeps_resolve p s : keeps s (resolve p s).
Proof.
  unfold resolve. destruct (promises s !! p) as [[rs|]|] eqn:Hp; try apply keeps_refl.
  split; cbn.
  - unfold responders_of, answered, registered. cbn. apply Permutation_app_head.
    rewrite omap_app.
    pose proof (registered_insert (promises s) p Fulfilled (Pending rs) Hp) as Hperm.
    cbn in Hperm. rewrite app_nil_r in Hperm.
    rewrite (Permutation_app_comm (omap respond_id (microtasks s))), app_assoc.
    rewrite Hperm. apply Permutation_app_head. done.
  - by rewrite length_insert.
  - exists []. by rewrite app_nil_r.
Qed.

Lemma react_responders p r s :
  is_Some (promises s !! p) →
  responders_of (react p r s) ≡ₚ option_list (respond_id r) ++ responders_of s ∧
  length (promises (react p r s)) = length (promises s) ∧
  trace (react p r s) = trace s.
Proof.
  intros [st Hp]. unfold react. rewrite Hp. destruct st as [rs|]; cbn.
  - split_and!; [|by rewrite length_insert|done].
    unfold responders_of, answered, registered. cbn.
    pose proof (registered_insert (promises s) p (Pending (rs ++ [r])) (Pending rs) Hp)
      as Hperm.
    cbn in Hperm. rewrite omap_app in Hperm. cbn in Hperm.
    rewrite (Permutation_app_comm (option_list _)), <- !app_assoc.
    apply Permutation_app_head.
    rewrite (Permutation_app_comm (omap respond_id (microtasks s))), !app_assoc.
    apply Permutation_app_tail.
    apply (Permutation_app_inv_r (omap respond_id rs)).
    rewrite Hperm. rewrite <- !app_assoc. apply Permutation_app_head.
    destruct (respond_id r); cbn; [|by rewrite app_nil_r].
    apply Permutation_app_comm.
  - split_and!; [|done|done].
    unfold responders_of, answered, registered. cbn. rewrite omap_app. cbn.
    rewrite (Permutation_app_comm (option_list _)), <- !app_assoc.
    do 3 apply Permutation_app_head. by destruct (respond_id r).
Qed.

Lemma keeps_react p r s : respond_id r = None → keeps s (react p r s).
Proof.
  intros Hr. destruct (promises s !! p) as [st|] eqn:Hp.
  - destruct (react_responders p r s) as (HM & Hl & Ht); [eauto|].
    rewrite Hr in HM. split; [done|lia|]. exists []. by rewrite app_nil_r.
  - unfold react. rewrite Hp. apply keeps_refl.
Qed.

Lemma keeps_analyzeTurn next c t retries rest s :
  keeps s (analyzeTurn next c t retries rest s).
Proof.
  unfold analyzeTurn. eapply keeps_trans; [|apply keeps_set_ops].
  apply keeps_emit; [done|by split_and!].
Qed.

Lemma keeps_batchLoop next c turns s : keeps s (batchLoop next c turns s).
Proof. destruct turns; [apply keeps_resolve|apply keeps_analyzeTurn]. Qed.

Lemma accounted_result alerts c t : accounted (onResult alerts ++ [ObsSettled c t true]).
Proof.
  unfold accounted, onResult, showNotification, updateBadge.
  destruct alerts as [[|a l]|]; cbn [app]; rewrite !tally_cons; cbn; lia.
Qed.

Lemma keeps_afterFetch k r s : keeps s (afterFetch k r s).
Proof.
  unfold afterFetch.
  assert (keeps s
    (if k_retries k <? MAX_RETRIES
     then set_ops (ops s ++ [OpTimer k])
            (emit [ObsSetTimeout (k_conv k) (2000 * (k_retries k + 1))] s)
     else batchLoop (k_next k) (k_conv k) (k_rest k)
            (emit [ObsSettled (k_conv k) (k_turn k) false] s))) as Hfail.
  { destruct (k_retries k <? MAX_RETRIES).
    - eapply keeps_trans; [|apply keeps_set_ops]. apply keeps_emit; [done|by split_and!].
    - eapply keeps_trans; [|apply keeps_batchLoop]. apply keeps_emit; [done|by split_and!]. }
  destruct r as [|[] [alerts|]]; try exact Hfail.
  eapply keeps_trans; [|apply keeps_batchLoop]. apply keeps_emit.
  - rewrite omap_app. by destruct alerts as [[|a l]|].
  - apply accounted_result.
Qed.

Lemma keeps_pop r q s :
  microtasks s = r :: q → keeps s (runReaction r (set_microtasks q s)).
Proof.
  intros Hq. destruct r as [next c turns|c next|next]; cbn [runReaction].
  - eapply keeps_trans; [|apply keeps_batchLoop].
    split; [|done|exists []; by rewrite app_nil_r].
    unfold responders_of, answered, registered. cbn. by rewrite Hq.
  - assert (keeps s (set_microtasks q s)) as Hs.
    { split; [|done|exists []; by rewrite app_nil_r].
      unfold responders_of, answered, registered. cbn. by rewrite Hq. }
    case_decide; [|done]. eapply keeps_trans; [exact Hs|apply keeps_set_queues].
  - split; cbn; [|done|].
    + unfold responders_of, answered, registered. cbn. rewrite Hq, omap_app. cbn.
      rewrite <- !app_assoc. apply Permutation_app_head. cbn.
      rewrite (Permutation_app_comm (promises s ≫= responders) (next :: _)). cbn.
      rewrite Permutation_middle. apply Permutation_app_comm.
    + exists [ObsSendResponse next]. by split_and!.
Qed.

Lemma keeps_drain fuel : ∀ s, keeps s (drain fuel s).
Proof.
  induction fuel as [|fuel IH]; intros s; cbn; [apply keeps_refl|].
  destruct (microtasks s) as [|r q] eqn:Hq; [apply keeps_refl|].
  eapply keeps_trans; [by apply keeps_pop|apply IH].
Qed.

Lemma keeps_settle s : keeps s (settle s).
Proof. apply keeps_drain. Qed.

Lemma keeps_new_promise st s :
  responders st = [] → keeps s (set_promises (promises s ++ [st]) s).
Proof.
  intros Hst. split; cbn.
  - unfold responders_of, answered, registered. cbn.
    rewrite bind_app. cbn. by rewrite Hst, !app_nil_r.
  - rewrite length_app. lia.
  - exists []. by rewrite app_nil_r.
Qed.

(** [handleNewTurns] allocates the promise of the batch and registers
    the batch and the clean-up, no responder. *)
Lemma keeps_handleNewTurns c turns s :
  keeps s (handleNewTurns c turns s).2 ∧
  (length (promises s) ≤ (handleNewTurns c turns s).1
     < length (promises (handleNewTurns c turns s).2))%nat.
Proof.
  unfold handleNewTurns.
  assert (∀ prev s1, keeps s s1 →
    let s2 := set_promises (promises s1 ++ [Pending []]) s1 in
    let s3 := react prev (RBatch (length (promises s1)) c turns) s2 in
    let s4 := set_queues (<[c := length (promises s1)]> (processingQueues s3)) s3 in
    let s5 := react (length (promises s1)) (RCleanup c (length (promises s1))) s4 in
    keeps s s5 ∧ (length (promises s) ≤ length (promises s1) < length (promises s5))%nat)
    as Hchain.
  { intros prev s1 H1 s2 s3 s4 s5.
    assert (keeps s1 s2) as H2 by by apply keeps_new_promise.
    assert (keeps s2 s3) as H3 by by apply keeps_react.
    assert (keeps s3 s4) as H4 by apply keeps_set_queues.
    assert (keeps s4 s5) as H5 by by apply keeps_react.
    split.
    { apply (keeps_trans _ s1); [done|]. apply (keeps_trans _ s2); [done|].
      apply (keeps_trans _ s3); [done|]. by apply (keeps_trans _ s4). }
    pose proof (keeps_promises _ _ H1). pose proof (keeps_promises _ _ H3).
    pose proof (keeps_promises _ _ H4). pose proof (keeps_promises _ _ H5).
    assert (length (promises s2) = S (length (promises s1))) as Hl.
    { subst s2. cbn. rewrite length_app. cbn. lia. }
    lia. }
  destruct (processingQueues s !! c) as [q|]; unfold new_promise.
  - apply (Hchain q s), keeps_refl.
  - apply (Hchain (length (promises s)) (set_promises (promises s ++ [Fulfilled]) s)).
    by apply keeps_new_promise.
Qed.

(** The listener registers one responder, on the promise just made. *)
Lemma onMessage_responders c turns s :
  ∃ next, (length (promises s) ≤ next < length (promises (onMessage c turns s)))%nat ∧
    responders_of (onMessage c turns s) ≡ₚ next :: responders_of s ∧
    ∃ l, trace (onMessage c turns s) = trace s ++ l ∧ accounted l.
Proof.
  unfold onMessage.
  destruct (keeps_handleNewTurns c turns s) as [Hk Hnext].
  destruct (handleNewTurns c turns s) as [next s1]. cbn [fst snd] in Hk, Hnext.
  cbv beta iota zeta.
  destruct (react_responders next (RRespond next) s1) as (HM & Hl & Ht).
  { apply lookup_lt_is_Some. lia. }
  exists next. split; [lia|split].
  - rewrite HM. cbn. by rewrite (keeps_responders _ _ Hk).
  - rewrite Ht. apply (keeps_trace _ _ Hk).
Qed.

Lemma keeps_handle ev s : is_message ev = false → keeps s (handle ev s).
Proof.
  destruct ev as [c turns|op r|op]; [done|intros _; cbn..].
  - destruct (ops s !! op) as [[k|k|]|]; try apply keeps_refl.
    eapply keeps_trans; [apply keeps_set_ops|apply keeps_afterFetch].
  - destruct (ops s !! op) as [[k|k|]|]; try apply keeps_refl.
    eapply keeps_trans; [apply keeps_set_ops|apply keeps_analyzeTurn].
Qed.

(** The accounts of a state: its responders are [n] distinct promises
    and its trace is balanced. *)
Record audited (n : nat) (s : State) : Prop := {
  audited_distinct : NoDup (responders_of s);
  audited_known : ∀ p, p ∈ responders_of s → (p < length (promises s))%nat;
  audited_count : length (responders_of s) = n;
  audited_trace : accounted (trace s)
}.

Lemma audited_keeps n s s' : keeps s s' → audited n s → audited n s'.
Proof.
  intros [HM Hl (l & Ht & Ha)] [Hd Hk Hn Htr]. split.
  - by rewrite HM.
  - intros p Hp. rewrite HM in Hp. apply Hk in Hp. lia.
  - by rewrite HM.
  - rewrite Ht. by apply accounted_app.
Qed.

Lemma audited_step n s ev :
  audited n s → audited (if is_message ev then S n else n) (step s ev).
Proof.
  intros Hs. unfold step. apply (audited_keeps _ (handle ev s)); [apply keeps_settle|].
  destruct (is_message ev) eqn:Hev; [|by apply (audited_keeps _ s), Hs; apply keeps_handle].
  destruct ev as [c turns| |]; try done. cbn [handle].
  destruct (onMessage_responders c turns s) as (next & Hnext & HM & l & Ht & Ha).
  destruct Hs as [Hd Hk Hn Htr]. split.
  - rewrite HM. constructor; [|done]. intros Hin%Hk. lia.
  - intros p. rewrite HM. intros [->|Hin%Hk]%elem_of_cons; lia.
  - rewrite HM. cbn. by rewrite Hn.
  - rewrite Ht. by apply accounted_app.
Qed.

Lemma messages_snoc evs ev :
  messages (evs ++ [ev]) = ((if is_message ev then 1 else 0) + messages evs)%nat.
Proof.
  unfold messages. rewrite filter_app, length_app, filter_cons.
  destruct (is_message ev) eqn:Hev;
    [rewrite decide_True by done|rewrite decide_False by (cbn; tauto)]; cbn; lia.
Qed.

Lemma audited_run evs : audited (messages evs) (run initial evs).
Proof.
  induction evs as [|ev evs IH] using rev_ind.
  - split; [constructor|by intros p Hp%elem_of_nil|done|apply accounted_nil].
  - rewrite run_snoc, messages_snoc. apply (audited_step _ _ ev) in IH.
    by destruct (is_message ev).
Qed.

End Accounts.

Section Resolution.

#[local] Arguments settle : simpl never.

Lemma omap_insert_done {A B} (f : A → option B) (l : list A) i x y z :
  l !! i = Some y → f x = None → z ∈ omap f l → f y = Some z ∨ z ∈ omap f (<[i := x]> l).
Proof.
  intros Hi Hx. revert i Hi. induction l as [|a l IH]; intros [|i] Hi; simplify_eq/=.
  - rewrite Hx. destruct (f y) as [b|]; [|by right].
    intros [->|Hin]%elem_of_cons; [by left|by right].
  - destruct (f a) as [b|].
    + intros [->|Hin]%elem_of_cons; [right; by left|].
      destruct (IH i Hi Hin) as [?|?]; [by left|right; by right].
    + by apply IH.
Qed.

Lemma bind_insert_1 {A B} (f : A → list B) (l : list A) i x y z :
  l !! i = Some y → z ∈ l ≫= f → z ∈ f y ∨ z ∈ <[i := x]> l ≫= f.
Proof.
  intros Hi. revert i Hi. induction l as [|a l IH]; intros [|i] Hi; simplify_eq/=.
  - rewrite !elem_of_app. tauto.
  - rewrite !elem_of_app. intros [?|Hin]; [right; by left|].
    destruct (IH i Hi Hin); tauto.
Qed.

Lemma bind_insert_2 {A B} (f : A → list B) (l : list A) i x y z :
  l !! i = Some y → z ∈ <[i := x]> l ≫= f → z ∈ f x ∨ z ∈ l ≫= f.
Proof.
  intros Hi. revert i Hi. induction l as [|a l IH]; intros [|i] Hi; simplify_eq/=.
  - rewrite !elem_of_app. tauto.
  - rewrite !elem_of_app. intros [?|Hin]; [right; by left|].
    destruct (IH i Hi Hin); tauto.
Qed.

Lemma bind_insert_more {A B} (f : A → list B) (l : list A) i x y z :
  l !! i = Some y → (∀ z, z ∈ f y → z ∈ f x) → z ∈ l ≫= f → z ∈ <[i := x]> l ≫= f.
Proof.
  intros Hi Hsub Hin. rewrite list_elem_of_bind in Hin. destruct Hin as (a & Hz & Ha).
  apply list_elem_of_lookup in Ha as [j Hj]. apply list_elem_of_bind.
  destruct (decide (j = i)) as [->|Hne].
  - exists x. split; [apply Hsub; congruence|].
    apply (list_elem_of_lookup_2 _ i). apply list_lookup_insert_eq.
    by eapply lookup_lt_Some.
  - exists a. split; [done|]. apply (list_elem_of_lookup_2 _ j).
    by rewrite list_lookup_insert_ne.
Qed.

Lemma resolver_cases s p :
  p ∈ resolvers s ↔
  p ∈ omap batch_of (microtasks s) ∨ p ∈ promises s ≫= batches ∨
  p ∈ k_next <$> in_flight s.
Proof. unfold resolvers. by rewrite !elem_of_app. Qed.

Lemma rv_same x s s' :
  processingQueues s' = processingQueues s → promises s' = promises s →
  microtasks s' = microtasks s → ops s' = ops s →
  resolvable x s → resolvable x s'.
Proof.
  intros Hq Hp Hm Ho [H1 H2 H3]. split.
  - intros c q. rewrite Hq, Hp. apply H1.
  - intros p rs. unfold resolvers, in_flight. rewrite Hp, Hm, Ho. apply H2.
  - intros q rs n. rewrite Hp. apply H3.
Qed.

Lemma rv_emit x o s : resolvable x s → resolvable x (emit o s).
Proof. by apply rv_same. Qed.

Lemma rv_set_queues x q s :
  (∀ c n, q !! c = Some n → (n < length (promises s))%nat) →
  resolvable x s → resolvable x (set_queues q s).
Proof. intros Hq [H1 H2 H3]. by split. Qed.

(** The exception is lifted once the promise has a resolver, or is no
    longer pending. *)
Lemma rv_fill p s :
  resolvable (Some p) s →
  (∀ rs, promises s !! p = Some (Pending rs) → p ∈ resolvers s) →
  resolvable None s.
Proof.
  intros [H1 H2 H3] Hp. split; [done| |done].
  intros p' rs Hl _. destruct (decide (p' = p)) as [->|Hne]; [by eapply Hp|].
  apply (H2 p' rs Hl). congruence.
Qed.

Lemma rv_weaken x s : resolvable None s → resolvable x s.
Proof. intros [H1 H2 H3]. split; [done| |done]. intros p rs Hl _. by eapply H2. Qed.

Lemma rv_resolve p s : resolvable (Some p) s → resolvable None (resolve p s).
Proof.
  intros Hs. unfold resolve. destruct (promises s !! p) as [[rs|]|] eqn:Hp;
    [|apply (rv_fill p); [done|congruence]..].
  destruct Hs as [H1 H2 H3]. pose proof (lookup_lt_Some _ _ _ Hp) as Hlt. split.
  - intros c q Hq. cbn in *. rewrite length_insert. by eapply H1.
  - intros p' rs' Hl _. cbn in Hl. destruct (decide (p' = p)) as [->|Hne].
    { rewrite list_lookup_insert_eq in Hl by done. discriminate. }
    rewrite list_lookup_insert_ne in Hl by done.
    assert (Some p' ≠ Some p) as Hx by congruence.
    pose proof (H2 p' rs' Hl Hx) as Hin.
    apply resolver_cases in Hin. apply resolver_cases. cbn. rewrite omap_app, elem_of_app.
    destruct Hin as [Hin|[Hin|Hin]]; [tauto| |tauto].
    destruct (bind_insert_1 batches _ p Fulfilled _ _ Hp Hin) as [Hin'|Hin']; cbn in Hin';
      tauto.
  - intros q rs' n Hl. cbn in Hl. destruct (decide (q = p)) as [->|Hne].
    { rewrite list_lookup_insert_eq in Hl by done. discriminate. }
    rewrite list_lookup_insert_ne in Hl by done. by eapply H3.
Qed.

Lemma rv_push o k s :
  frame_of o = Some k → resolvable (Some (k_next k)) s →
  resolvable None (set_ops (ops s ++ [o]) s).
Proof.
  intros Ho [H1 H2 H3].
  assert (in_flight (set_ops (ops s ++ [o]) s) = in_flight s ++ [k]) as Hf.
  { unfold in_flight. cbn. rewrite omap_app. cbn. by rewrite Ho. }
  split; [done| |done]. intros p rs Hl _. apply resolver_cases. rewrite Hf. cbn.
  rewrite fmap_app, elem_of_app. cbn.
  destruct (decide (p = k_next k)) as [->|Hne].
  { right; right; right. by apply list_elem_of_singleton. }
  assert (Some p ≠ Some (k_next k)) as Hx by congruence.
  pose proof (H2 p rs Hl Hx) as Hin. apply resolver_cases in Hin. tauto.
Qed.

Lemma rv_done op o k s :
  ops s !! op = Some o → frame_of o = Some k → resolvable None s →
  resolvable (Some (k_next k)) (set_ops (<[op := OpDone]> (ops s)) s).
Proof.
  intros Hop Ho [H1 H2 H3]. split; [done| |done]. intros p rs Hl Hx.
  assert (Some p ≠ None) as Hn by done.
  pose proof (H2 p rs Hl Hn) as Hin. apply resolver_cases in Hin. apply resolver_cases.
  destruct Hin as [Hin|[Hin|Hin]]; [tauto|tauto|]. right; right.
  apply list_elem_of_fmap in Hin as (k' & -> & Hk'). unfold in_flight in *. cbn.
  destruct (omap_insert_done frame_of _ op OpDone _ _ Hop eq_refl Hk') as [Hk|Hk].
  - congruence.
  - by apply list_elem_of_fmap_2.
Qed.

Lemma rv_analyzeTurn next c t retries rest s :
  resolvable (Some next) s → resolvable None (analyzeTurn next c t retries rest s).
Proof.
  intros Hs. unfold analyzeTurn.
  apply (rv_push _ {| k_next := next; k_conv := c; k_turn := t;
                      k_retries := retries; k_rest := rest |} (emit [ObsFetch c t] s));
    [done|by apply rv_emit].
Qed.

Lemma rv_batchLoop next c turns s :
  resolvable (Some next) s → resolvable None (batchLoop next c turns s).
Proof. destruct turns; [apply rv_resolve|apply rv_analyzeTurn]. Qed.

Lemma rv_afterFetch k r s :
  resolvable (Some (k_next k)) s → resolvable None (afterFetch k r s).
Proof.
  intros Hs. unfold afterFetch.
  assert (resolvable None
    (if k_retries k <? MAX_RETRIES
     then set_ops (ops s ++ [OpTimer k])
            (emit [ObsSetTimeout (k_conv k) (2000 * (k_retries k + 1))] s)
     else batchLoop (k_next k) (k_conv k) (k_rest k)
            (emit [ObsSettled (k_conv k) (k_turn k) false] s))) as Hfail.
  { destruct (k_retries k <? MAX_RETRIES).
    - apply (rv_push (OpTimer k) k (emit _ s)); [done|by apply rv_emit].
    - by apply rv_batchLoop, rv_emit. }
  destruct r as [|[] [alerts|]]; try exact Hfail.
  by apply rv_batchLoop, rv_emit.
Qed.

Lemma rv_react_other x p r s :
  batch_of r = None → resolvable x s → resolvable x (react p r s).
Proof.
  intros Hr Hs. unfold react. destruct (promises s !! p) as [[rs|]|] eqn:Hp; [| |done].
  - destruct Hs as [H1 H2 H3]. pose proof (lookup_lt_Some _ _ _ Hp) as Hlt.
    assert (omap batch_of (rs ++ [r]) = omap batch_of rs) as Hsame.
    { rewrite omap_app. cbn. by rewrite Hr, app_nil_r. }
    split.
    + intros c q Hq. cbn in *. rewrite length_insert. by eapply H1.
    + intros p' rs' Hl Hx. cbn in Hl.
      assert (∃ rs0, promises s !! p' = Some (Pending rs0)) as [rs0 Hl0].
      { destruct (decide (p' = p)) as [->|Hne]; [by eexists|].
        rewrite list_lookup_insert_ne in Hl by done. by eexists. }
      pose proof (H2 p' rs0 Hl0 Hx) as Hin. apply resolver_cases in Hin.
      apply resolver_cases. cbn. destruct Hin as [Hin|[Hin|Hin]]; [tauto| |tauto].
      right; left. eapply bind_insert_more; [exact Hp| |exact Hin].
      intros z. cbn. by rewrite Hsame.
    + intros q rs' n Hl Hn. cbn in Hl. destruct (decide (q = p)) as [->|Hne].
      * rewrite list_lookup_insert_eq in Hl by done. simplify_eq.
        rewrite Hsame in Hn. by eapply H3.
      * rewrite list_lookup_insert_ne in Hl by done. by eapply H3.
  - destruct Hs as [H1 H2 H3]. split; [done| |done]. intros p' rs' Hl Hx.
    pose proof (H2 p' rs' Hl Hx) as Hin. apply resolver_cases in Hin.
    apply resolver_cases. cbn. rewrite omap_app, elem_of_app. tauto.
Qed.

(** Chaining a batch on an existing promise gives its promise a
    resolver. *)
Lemma rv_react_batch q next c turns s :
  is_Some (promises s !! q) → (q < next)%nat → resolvable (Some next) s →
  resolvable None (react q (RBatch next c turns) s).
Proof.
  intros [st Hq] Hlt [H1 H2 H3]. unfold react. rewrite Hq.
  pose proof (lookup_lt_Some _ _ _ Hq) as Hlen. destruct st as [rs|].
  - split.
    + intros c' q' Hq'. cbn in *. rewrite length_insert. by eapply H1.
    + intros p' rs' Hl _. cbn in Hl. apply resolver_cases. cbn.
      destruct (decide (p' = next)) as [->|Hne].
      * right; left.
        apply list_elem_of_bind. exists (Pending (rs ++ [RBatch next c turns])). split.
        -- cbn. rewrite omap_app, elem_of_app. right. cbn. by apply list_elem_of_singleton.
        -- apply (list_elem_of_lookup_2 _ q). by apply list_lookup_insert_eq.
      * assert (∃ rs0, promises s !! p' = Some (Pending rs0)) as [rs0 Hl0].
        { destruct (decide (p' = q)) as [->|Hne']; [by eexists|].
          rewrite list_lookup_insert_ne in Hl by done. by eexists. }
        assert (Some p' ≠ Some next) as Hx by congruence.
        pose proof (H2 p' rs0 Hl0 Hx) as Hin. apply resolver_cases in Hin.
        destruct Hin as [Hin|[Hin|Hin]]; [tauto| |tauto].
        right; left. eapply bind_insert_more; [exact Hq| |exact Hin].
        intros z. cbn. rewrite omap_app, elem_of_app. tauto.
    + intros q' rs' n Hl Hn. cbn in Hl. destruct (decide (q' = q)) as [->|Hne].
      * rewrite list_lookup_insert_eq in Hl by done. simplify_eq.
        rewrite omap_app, elem_of_app in Hn. destruct Hn as [Hn|Hn]; [by eapply H3|].
        cbn in Hn. apply list_elem_of_singleton in Hn. lia.
      * rewrite list_lookup_insert_ne in Hl by done. by eapply H3.
  - split; [done| |done]. intros p' rs' Hl _. cbn in Hl. apply resolver_cases. cbn.
    rewrite omap_app, elem_of_app. cbn.
    destruct (decide (p' = next)) as [->|Hne].
    { left; right. by apply list_elem_of_singleton. }
    assert (Some p' ≠ Some next) as Hx by congruence.
    pose proof (H2 p' rs' Hl Hx) as Hin. apply resolver_cases in Hin. tauto.
Qed.

Lemma rv_alloc_fulfilled s :
  resolvable None s → resolvable None (set_promises (promises s ++ [Fulfilled]) s).
Proof.
  intros [H1 H2 H3]. split.
  - intros c q Hq. cbn in *. rewrite length_app. apply H1 in Hq. lia.
  - intros p rs Hl Hx. cbn in Hl. apply lookup_app_Some in Hl as [Hl|[_ Hl]].
    + pose proof (H2 p rs Hl Hx) as Hin. apply resolver_cases in Hin.
      apply resolver_cases. cbn. rewrite bind_app, elem_of_app. tauto.
    + by apply list_lookup_singleton_Some in Hl as [_ ?].
  - intros q rs n Hl. cbn in Hl. apply lookup_app_Some in Hl as [Hl|[_ Hl]].
    + by eapply H3.
    + by apply list_lookup_singleton_Some in Hl as [_ ?].
Qed.

Lemma rv_alloc_pending s :
  resolvable None s →
  resolvable (Some (length (promises s))) (set_promises (promises s ++ [Pending []]) s).
Proof.
  intros [H1 H2 H3]. split.
  - intros c q Hq. cbn in *. rewrite length_app. apply H1 in Hq. lia.
  - intros p rs Hl Hx. cbn in Hl. apply lookup_app_Some in Hl as [Hl|[Hge Hl]].
    + assert (Some p ≠ None) as Hn by done.
      pose proof (H2 p rs Hl Hn) as Hin. apply resolver_cases in Hin.
      apply resolver_cases. cbn. rewrite bind_app, elem_of_app. tauto.
    + apply list_lookup_singleton_Some in Hl as [Hp _].
      destruct Hx. f_equal. lia.
  - intros q rs n Hl. cbn in Hl. apply lookup_app_Some in Hl as [Hl|[_ Hl]].
    + by eapply H3.
    + apply list_lookup_singleton_Some in Hl as [_ Hl]. simplify_eq.
      by intros ?%elem_of_nil.
Qed.

Lemma rv_handleNewTurns c turns s :
  resolvable None s → resolvable None (handleNewTurns c turns s).2.
Proof.
  intros Hs. unfold handleNewTurns.
  assert (∀ prev s1, resolvable None s1 → (prev < length (promises s1))%nat →
    let s2 := set_promises (promises s1 ++ [Pending []]) s1 in
    let s3 := react prev (RBatch (length (promises s1)) c turns) s2 in
    let s4 := set_queues (<[c := length (promises s1)]> (processingQueues s3)) s3 in
    resolvable None (react (length (promises s1)) (RCleanup c (length (promises s1))) s4))
    as Hchain.
  { intros prev s1 H1 Hprev s2 s3 s4.
    assert (resolvable None s3) as H3.
    { apply rv_react_batch; [|done|by apply rv_alloc_pending].
      apply lookup_lt_is_Some. subst s2. cbn. rewrite length_app. lia. }
    assert (length (promises s1) < length (promises s3))%nat as Hl3.
    { subst s3. unfold react. destruct (promises s2 !! prev) as [[rs|]|]; subst s2; cbn;
        rewrite ?length_insert, length_app; cbn; lia. }
    apply rv_react_other; [done|]. apply rv_set_queues; [|done].
    intros c' n [[-> <-]|[Hne Hq]]%lookup_insert_Some; [done|].
    destruct H3 as [Hq3 _ _]. by eapply Hq3. }
  destruct (processingQueues s !! c) as [q|] eqn:Hq; unfold new_promise.
  - apply (Hchain q s Hs). destruct Hs as [H1 _ _]. by eapply H1.
  - apply (Hchain (length (promises s)) (set_promises (promises s ++ [Fulfilled]) s)).
    + by apply rv_alloc_fulfilled.
    + cbn. rewrite length_app. cbn. lia.
Qed.

Lemma rv_onMessage c turns s : resolvable None s → resolvable None (onMessage c turns s).
Proof.
  intros Hs. unfold onMessage. pose proof (rv_handleNewTurns c turns s Hs) as H1.
  destruct (handleNewTurns c turns s) as [next s1]. cbv beta iota zeta.
  by apply rv_react_other.
Qed.

Lemma rv_handle ev s : resolvable None s → resolvable None (handle ev s).
Proof.
  intros Hs. destruct ev as [c turns|op r|op]; cbn.
  - by apply rv_onMessage.
  - destruct (ops s !! op) as [[k|k|]|] eqn:Hop; try done.
    apply rv_afterFetch. by apply (rv_done op (OpFetch k)).
  - destruct (ops s !! op) as [[k|k|]|] eqn:Hop; try done.
    apply rv_analyzeTurn. by apply (rv_done op (OpTimer k) k).
Qed.

Lemma rv_pop r q s :
  microtasks s = r :: q → resolvable None s →
  resolvable None (runReaction r (set_microtasks q s)).
Proof.
  intros Hq [H1 H2 H3].
  assert (resolvable (batch_of r) (set_microtasks q s)) as Hs.
  { split; [done| |done]. intros p rs Hl Hx.
    assert (Some p ≠ None) as Hn by done.
    pose proof (H2 p rs Hl Hn) as Hin. apply resolver_cases in Hin.
    apply resolver_cases. cbn. rewrite Hq in Hin. cbn in Hin.
    destruct (batch_of r) as [n|]; [|tauto].
    rewrite elem_of_cons in Hin. destruct Hin as [[->|Hin]|Hin]; [done|tauto|tauto]. }
  destruct r as [next c turns|c next|next]; cbn [runReaction batch_of] in *.
  - by apply rv_batchLoop.
  - case_decide; [|done]. apply rv_set_queues; [|done].
    intros c' n [_ Hn]%lookup_delete_Some. by eapply H1.
  - by apply rv_emit.
Qed.

Lemma rv_drain fuel : ∀ s, resolvable None s → resolvable None (drain fuel s).
Proof.
  induction fuel as [|fuel IH]; intros s Hs; cbn; [done|].
  destruct (microtasks s) as [|r q] eqn:Hq; [done|]. by apply IH, rv_pop.
Qed.

Lemma rv_run evs : resolvable None (run initial evs).
Proof.
  induction evs as [|ev evs IH] using rev_ind.
  - split; cbn; [intros c q Hq; by rewrite lookup_empty in Hq|by intros [|p] rs ?..].
  - rewrite run_snoc. unfold step, settle. by apply rv_drain, rv_handle.
Qed.

(** When nothing is queued and the runtime holds no operation, no
    promise is pending. *)
Lemma quiet_fulfilled s :
  resolvable None s → microtasks s = [] → in_flight s = [] →
  ∀ p rs, promises s !! p ≠ Some (Pending rs).
Proof.
  intros [H1 H2 H3] Hm Hf.
  assert (∀ n p, (p < n)%nat → ∀ rs, promises s !! p ≠ Some (Pending rs)) as Hall.
  { induction n as [|n IH]; intros p Hp rs Hl; [lia|].
    assert (Some p ≠ None) as Hn by done.
    pose proof (H2 p rs Hl Hn) as Hin. apply resolver_cases in Hin.
    rewrite Hm, Hf in Hin. cbn in Hin.
    destruct Hin as [Hin|[Hin|Hin]]; [by apply elem_of_nil in Hin| |by apply elem_of_nil in Hin].
    apply list_elem_of_bind in Hin as (st & Hin & Hst).
    apply list_elem_of_lookup in Hst as [q Hq].
    destruct st as [rsq|]; [|by apply elem_of_nil in Hin]. cbn in Hin.
    pose proof (H3 q rsq p Hq Hin) as Hlt. apply (IH q) in Hq; [done|lia]. }
  intros p rs. apply (Hall (S p)). lia.
Qed.

Lemma active_in_flight c s : in_flight s = [] → active c s = [].
Proof.
  unfold in_flight, active. induction (ops s) as [|o l IH]; [done|]. cbn.
  unfold owned at 1. destruct (frame_of o); [done|]. apply IH.
Qed.

Lemma registered_fulfilled (l : list PromiseState) :
  (∀ p rs, l !! p ≠ Some (Pending rs)) → l ≫= responders = [].
Proof.
  induction l as [|st l IH]; intros Hl; [done|]. cbn.
  rewrite IH by (intros p rs; apply (Hl (S p))).
  destruct st as [rs|]; [|done]. by destruct (Hl 0%nat rs).
Qed.

End Resolution.

Section Responses.

(** Whatever tasks the worker has run: every NEW_TURNS message has
    exactly one responder, which has either answered (one
    [sendResponse] in the trace) or still waits on a pending promise;
    no message is answered twice, and none is dropped. *)
Theorem every_message_is_answered_at_most_once evs :
  let s := run initial evs in
  NoDup (answered s ++ registered s) ∧
  (length (answered s) + length (registered s) = messages evs)%nat.
Proof.
  intros s. destruct (audited_run evs) as [Hd _ Hn _]. fold s in Hd, Hn.
  assert (responders_of s = answered s ++ registered s) as HM.
  { unfold responders_of. destruct (run_ok evs) as [Hq _]. fold s in Hq.
    by rewrite Hq, app_nil_r. }
  rewrite HM in Hd, Hn. split; [done|]. by rewrite <- length_app.
Qed.

(** Whatever tasks the worker has run: the badge has been updated
    once per turn delivered (never for a turn given up or retried),
    and a notification was shown exactly when alerts were written to
    storage, at most once per delivery. *)
Theorem one_badge_update_per_delivery evs :
  let s := run initial evs in
  tally is_badge (trace s) = tally is_delivery (trace s) ∧
  tally is_notification (trace s) = tally is_store (trace s) ∧
  (tally is_notification (trace s) ≤ tally is_delivery (trace s))%nat.
Proof.
  intros s. destruct (audited_trace _ _ (audited_run evs)) as (H1 & H2 & H3).
  fold s in H1, H2, H3. split_and!; [done|done|lia].
Qed.

(** When the runtime holds no operation of the worker (no fetch
    outstanding, no back-off timer armed), every NEW_TURNS message
    received so far has been answered, each exactly once; no
    [sendResponse] is left waiting, no promise is pending and
    [processingQueues] is empty. *)
Theorem idle_worker_has_answered_every_message evs :
  let s := run initial evs in
  in_flight s = [] →
  NoDup (answered s) ∧ length (answered s) = messages evs ∧
  registered s = [] ∧
  (∀ p st, promises s !! p = Some st → st = Fulfilled) ∧
  processingQueues s = ∅.
Proof.
  intros s Hidle. destruct (run_ok evs) as [Hq Hok]. fold s in Hq, Hok.
  pose proof (quiet_fulfilled s (rv_run evs) Hq Hidle) as Hful.
  assert (registered s = []) as Hreg by by apply registered_fulfilled.
  destruct (audited_run evs) as [Hd _ Hn _]. fold s in Hd, Hn.
  unfold responders_of in Hd, Hn. rewrite Hreg, Hq, app_nil_r in Hd, Hn.
  split_and!; try done.
  - intros p [rs|] Hp; [by destruct (Hful p rs)|done].
  - apply map_eq. intros c. rewrite lookup_empty.
    destruct (Hok c) as [_ Hnone _|k tl Ha _ _]; [done|].
    by rewrite (active_in_flight c s Hidle) in Ha.
Qed.

Lemma idle_worker_has_answered_every_message_witness :
  let evs := [EvMessage "abc" [Samples.t1]; EvMessage "abc" [Samples.t2];
              EvFetchDone 0 Samples.accepted; EvFetchDone 1 Samples.refused;
              EvTimer 2; EvFetchDone 3 Samples.accepted] in
  answered (run initial evs) = [1; 2]%nat ∧ messages evs = 2%nat ∧
  processingQueues (run initial evs) = ∅.
Proof.
  intros evs.
  destruct (idle_worker_has_answered_every_message evs) as (_ & Hn & _ & _ & Hq).
  { vm_compute. reflexivity. }
  split; [vm_compute; reflexivity|]. split; [vm_compute; reflexivity|exact Hq].
Defined.

End Responses.

Section Properties.

#[local] Arguments settle : simpl never.

(** [processingQueues] has an entry for a conversation exactly while
    the runtime holds an operation (a fetch or a back-off timer) of
    that conversation: the entry is removed when the last batch
    chained for it has finished, and not before.  Every turn ever
    enqueued for a conversation without an entry has settled
    (delivered or given up), and no conversation has more
    settlements than turns enqueued. *)
Theorem queue_entry_iff_delivery_running evs c :
  let s := run initial evs in
  (processingQueues s !! c = None ↔ active c s = []) ∧
  (tally (is_settled c) (trace s) ≤ length (enqueued c evs))%nat ∧
  (processingQueues s !! c = None →
   tally (is_settled c) (trace s) = length (enqueued c evs)).
Proof.
  cbn zeta. destruct (run_ok evs) as [_ Hok].
  destruct (Hok c) as [Ha HQ Hf|k tl Ha Hc Hf]; apply fifo_settled in Hf; cbn in Hf.
  - split_and!; [done|lia|intros _; lia].
  - destruct (chain_tail _ _ _ _ Hc) as (q & _ & HQ).
    rewrite HQ, Ha. split_and!; [done|lia|done].
Qed.

(** An empty batch for a conversation with no delivery running is
    answered in the task that receives it: no fetch is issued, no
    operation is left with the runtime, and [processingQueues] is as
    before. *)
Theorem empty_batch_is_answered_at_once s c :
  microtasks s = [] → processingQueues s !! c = None →
  step s (EvMessage c []) =
  {| processingQueues := processingQueues s;
     promises := promises s ++ [Fulfilled; Fulfilled];
     microtasks := []; ops := ops s;
     trace := trace s ++ [ObsSendResponse (S (length (promises s)))] |}.
Proof.
  intros Hq HQ. unfold step; cbn [handle]. rewrite onMessage_idle by done.
  rewrite Hq. cbn [app].
  assert ((promises s ++ [Fulfilled; Pending [RCleanup c (S (length (promises s)));
                                              RRespond (S (length (promises s)))]])
          !! S (length (promises s))
          = Some (Pending [RCleanup c (S (length (promises s)));
                           RRespond (S (length (promises s)))])) as Hnext.
  { rewrite lookup_app_r by lia.
    by replace (S (length (promises s)) - length (promises s))%nat with 1%nat by lia. }
  erewrite settle_cons by reflexivity. cbn. unfold resolve. cbn. rewrite Hnext. cbn.
  erewrite settle_cons by reflexivity. cbn.
  rewrite lookup_insert_eq, decide_True by done.
  erewrite settle_cons by reflexivity. cbn. rewrite settle_nil by done.
  unfold emit, set_microtasks, set_queues, set_promises. cbn. f_equal.
  - by apply delete_insert_id.
  - rewrite insert_app_r_alt by lia.
    by replace (S (length (promises s)) - length (promises s))%nat with 1%nat by lia.
Qed.

Lemma empty_batch_is_answered_at_once_witness :
  trace (step initial (EvMessage "abc" [])) = [ObsSendResponse 1] ∧
  processingQueues (step initial (EvMessage "abc" [])) = ∅.
Proof.
  rewrite (empty_batch_is_answered_at_once initial "abc") by reflexivity. done.
Defined.

End Properties.

End LedgerFacts.

Module PanelFacts.

Import Sidebar SidebarFacts Panel.

Section Display.









(** What the escalation card shows in a state the panel can reach.
    It is absent exactly in the idle state.  While the state is
    pending it is in its loading state, with the reason as subtitle.
    In every other state its message is the explanation the panel
    stored, which is never empty, so the fallback texts of the card
    are never shown; and the confidence badge is shown for a
    confirmed contradiction only. *)
#[local] Arguments str_or : simpl never.



End Display.

Section Timers.





End Timers.

Section Requests.

Lemma extends_refl c s : extends c s s.
Proof. split; [done|]. exists []. by rewrite app_nil_r. Qed.



(** A state update other than [setConversationId], with the
    [setEscalationState] calls it makes. *)
Lemma extends_update c s s' l :
  conversationId (view s') = conversationId (view s) → trace s' = trace s ++ l →
  Forall (λ o, match o with ObsSetEscalation _ _ => True | _ => False end) l →
  extends c s s'.
Proof.
  intros Hv Ht Hl. split; [done|]. exists l. split; [done|].
  eapply Forall_impl; [exact Hl|]. by intros [].
Qed.

Lemma extends_pollMetrics g c s : extends c s (pollMetrics g c s).
Proof.
  unfold pollMetrics. destruct (bool_decide (c = "")) eqn:Hc; [apply extends_refl|].
  apply bool_decide_eq_false in Hc. cbn [orb].
  destruct (negb (mounted g s)); [apply extends_refl|].
  split; [done|]. exists [ObsMetricsFetch (now s) c]. split; [done|].
  by repeat constructor.
Qed.

Lemma extends_pollK2 g c s : c ≠ "" → extends c s (pollK2 g c s).
Proof.
  intros Hc. unfold pollK2. destruct (negb (mounted g s)); [apply extends_refl|].
  split; [done|]. exists [ObsK2Fetch (now s) c]. split; [done|].
  by repeat constructor.
Qed.

Lemma extends_k2Timeout c g s : extends c s (k2Timeout g s).
Proof.
  unfold k2Timeout. destruct (mounted g s); [|apply extends_refl].
  apply (extends_update _ _ _ [ObsSetEscalation (now s) k2_failed]); [done|done|].
  by repeat constructor.
Qed.

















(** A URL of the tab that names the conversation already shown
    (another query string, a reload) changes nothing but the clock:
    no reset of the metrics or of the escalation state, no effect
    re-run, no timer re-armed, no request. *)
Theorem same_conversation_url_changes_nothing s at_ url s' :
  reachable s → step s (EvTabUrl at_ url) = Some s' →
  extractConversationId url = conversationId (view s) →
  s' = set_now at_ s.
Proof.
  intros Hwf%reachable_wf Hstep Heq. unfold step in Hstep.
  destruct (can_be at_ s) eqn:Hcan; [|done]. injection Hstep as <-.
  pose proof (wf_advance at_ s Hwf Hcan) as Hwf0.
  assert (setConversationId (extractConversationId url) (set_now at_ s) = set_now at_ s)
    as ->.
  { rewrite Heq. apply state_ext; cbn; try done. by destruct (view s). }
  apply commit_synced, (wf_synced _ Hwf0).
Qed.

Lemma same_conversation_url_changes_nothing_witness :
  step Samples.panel_pending (EvTabUrl 3200 "https://chatgpt.com/c/abc?model=gpt-4")
  = Some (set_now 3200 Samples.panel_pending).
Proof.
  assert (step Samples.panel_pending (EvTabUrl 3200 "https://chatgpt.com/c/abc?model=gpt-4")
          = Some (Samples.after Samples.panel_pending
                    [EvTabUrl 3200 "https://chatgpt.com/c/abc?model=gpt-4"])) as Hstep
    by (vm_compute; reflexivity).
  rewrite Hstep. apply (f_equal Some).
  apply (same_conversation_url_changes_nothing Samples.panel_pending 3200
           "https://chatgpt.com/c/abc?model=gpt-4").
  - exists (EvTabUrl 0 Samples.url_abc ::
            Samples.quiet_polls ++ [EvMetricsReply 3100 2 (Samples.reading 1)]).
    vm_compute. reflexivity.
  - exact Hstep.
  - vm_compute. reflexivity.
Defined.

End Requests.

End PanelFacts.

(** ** Facts about the path from the page to the backend *)

Module PipelineFacts.

Import Scans ScansFacts Pipeline.

Section Page.

Import ContentScript.

(** On one conversation, the script labels what it sends with that
    conversation. *)
Lemma step_labels s ev c :
  currentConversationId s = c → extractConversationId (href s) = c →
  stays c ev = true →
  extractConversationId (href (step s ev)) = c ∧
  ∀ m, m ∈ sent (step s ev) → m ∈ sent s ∨ conversationId m = c.
Proof.
  intros Hc Hh Hst.
  assert (∀ alive l,
    let p := sendTurnsToBackground alive l s in
    extractConversationId (href p) = c ∧
    ∀ m, m ∈ sent p → m ∈ sent s ∨ conversationId m = c) as Hscan.
  { intros alive l. cbn zeta. unfold sendTurnsToBackground.
    destruct l as [|t l]; [by eauto|]. destruct alive; [|by eauto]. cbn.
    split; [done|]. intros m [Hm|Hm]%elem_of_app; [by left|right].
    apply list_elem_of_singleton in Hm as ->. done. }
  destruct ev as [alive now d|url|alive now d]; cbn [step]; [apply Hscan| |apply Hscan].
  cbn in Hst. apply bool_decide_eq_true in Hst.
  unfold onConversationChanged, getConversationId. cbn.
  rewrite decide_True by congruence. cbn. eauto.
Qed.

Lemma ascending_prefix l1 : ∀ lo l2, ascending lo (l1 ++ l2) = true → ascending lo l1 = true.
Proof.
  induction l1 as [|x l1 IH]; intros lo l2 H; [done|]. cbn in *.
  apply andb_true_iff in H as [H1 H2]. rewrite H1. cbn. by eapply IH.
Qed.

End Page.

Section Worker.

Import Background BackgroundFacts.

(** With nothing enqueued and nothing in hand, a trace that follows
    the discipline has no attempt. *)
Lemma fifo_attempts c tr : ∀ b cur left t,
  fifo c b cur tr = Some left → ObsFetch c t ∈ tr → t ∈ b ∨ cur = Some t.
Proof.
  induction tr as [|o tr IH]; intros b cur left t Hf Hin; [by apply elem_of_nil in Hin|].
  apply elem_of_cons in Hin as [<-|Hin].
  - cbn in Hf. rewrite decide_True in Hf by done.
    destruct cur as [t'|]; [case_decide; [by right; subst|done]|].
    destruct b as [|t' b]; [done|]. case_decide; [|done]. left. subst. by left.
  - destruct o as [c' t'| | | | | |]; cbn in Hf; try by eapply IH.
    + case_decide; [|by eapply IH].
      destruct cur as [t''|].
      * case_decide; [|done]. by eapply IH.
      * destruct b as [|t'' b]; [done|]. case_decide; [|done].
        destruct (IH _ _ _ _ Hf Hin) as [?|[= <-]]; [left; by right|left; subst; by left].
    + case_decide; [|by eapply IH].
      destruct cur as [t''|]; [|done]. case_decide; [|done].
      destruct (IH _ _ _ _ Hf Hin) as [?|?]; [by left|done].
Qed.

End Worker.

Section System.

Import System.

Lemma turns_for_app c l1 l2 : turns_for c (l1 ++ l2) = turns_for c l1 ++ turns_for c l2.
Proof. unfold turns_for. by rewrite bind_app. Qed.

Lemma turns_for_own c l :
  (∀ m, m ∈ l → ContentScript.conversationId m = c) → turns_for c l = turns_sent l.
Proof.
  induction l as [|m l IH]; intros Hl; [done|]. unfold turns_for, turns_sent in *. cbn.
  rewrite decide_True by (apply Hl; by left). f_equal. apply IH.
  intros m' Hm'. apply Hl. by right.
Qed.

Lemma turns_for_other c c' l :
  (∀ m, m ∈ l → ContentScript.conversationId m = c) → c' ≠ c → turns_for c' l = [].
Proof.
  induction l as [|m l IH]; intros Hl Hne; [done|]. unfold turns_for in *. cbn.
  rewrite decide_False by (rewrite (Hl m) by (by left); congruence). cbn. apply IH; [|done].
  intros m' Hm'. apply Hl. by right.
Qed.

Lemma piped_initial url : piped (extractConversationId url) (initial url).
Proof.
  split; cbn; try done.
  - by intros m ?%elem_of_nil.
  - exists []. split; [done|]. by intros c'.
Qed.

Lemma piped_step c s ev s' :
  piped c s → on_conversation c ev = true → step s ev = Some s' → piped c s'.
Proof.
  intros [Hc Hh Hl Ho Hm Hb (tasks & Hw & He)] Hon Hstep.
  destruct ev as [pev| |wev|qev]; cbn in Hstep.
  - injection Hstep as <-. cbn in Hon.
    destruct (step_stays (page s) pev) as (new & Hsent & Hasc & Hlast & Hcur);
      [by rewrite Hc|].
    destruct (step_labels (page s) pev c Hc Hh Hon) as [Hh' Hl'].
    rewrite Hm in Hasc, Hlast.
    destruct (ascending_app _ _ _ Ho Hasc) as [Ha Hla].
    split; cbn [page worker delivered].
    + by rewrite Hcur.
    + done.
    + intros m Hin. destruct (Hl' m Hin) as [?|?]; eauto.
    + by rewrite Hsent, turns_sent_app, fmap_app.
    + by rewrite Hlast, Hsent, turns_sent_app, fmap_app, Hla.
    + rewrite Hsent, length_app. lia.
    + exists tasks. split; [done|]. intros c'. rewrite He. unfold received.
      cbn [page delivered]. by rewrite Hsent, take_app_le.
  - destruct (ContentScript.sent (page s) !! delivered s) as [m|] eqn:Hd; [|done].
    injection Hstep as <-. pose proof (lookup_lt_Some _ _ _ Hd) as Hlt.
    split; cbn [page worker delivered]; try done.
    exists (tasks ++ [Background.EvMessage (ContentScript.conversationId m)
                        (ContentScript.turns m)]).
    split; [by rewrite BackgroundFacts.run_snoc, Hw|].
    intros c'. rewrite BackgroundFacts.enqueued_snoc, He. unfold received.
    cbn [page delivered].
    rewrite (take_S_r _ _ _ Hd), turns_for_app. f_equal.
    unfold turns_for. cbn. by rewrite app_nil_r.
  - assert (s' = {| page := page s; worker := Background.step (worker s) wev;
                    panel := panel s; delivered := delivered s |} ∧
            Background.enqueued_by c wev = [] ∧
            ∀ c', Background.enqueued_by c' wev = []) as (-> & _ & Hnone).
    { destruct wev; [done|by injection Hstep as <-..]. }
    split; cbn [page worker delivered]; try done.
    exists (tasks ++ [wev]). split; [by rewrite BackgroundFacts.run_snoc, Hw|].
    intros c'. by rewrite BackgroundFacts.enqueued_snoc, He, Hnone, app_nil_r.
  - destruct (Sidebar.step (panel s) qev) as [p|]; [|done]. injection Hstep as <-.
    split; cbn [page worker delivered]; try done. by exists tasks.
Qed.

Lemma piped_run c evs : ∀ s s',
  piped c s → forallb (on_conversation c) evs = true → run s evs = Some s' → piped c s'.
Proof.
  induction evs as [|ev evs IH]; intros s s' Hp Hon Hrun; cbn in Hrun, Hon.
  - by injection Hrun as <-.
  - apply andb_true_iff in Hon as [Hev Hon].
    destruct (step s ev) as [s1|] eqn:Hstep; [|done]. cbn in Hrun.
    eapply (IH s1); [by eapply piped_step|done|done].
Qed.

(** From the page to the backend.  As long as the page stays on the
    conversation it was opened on, the turns of the messages the
    worker has received are in page order (their ids, the positions
    on the page, increase strictly), the worker's submissions follow
    them in that order (an attempt is a retry of the turn in hand or,
    once that has settled, the first attempt of the next turn
    received), and nothing else is ever submitted: every attempt is
    for that conversation and for a turn received. *)
Theorem turns_reach_the_backend_in_page_order url evs s :
  run (initial url) evs = Some s →
  forallb (on_conversation (extractConversationId url)) evs = true →
  let c := extractConversationId url in
  let queued := turns_sent (received s) in
  ascending 0 (id <$> queued) = true ∧
  is_Some (Background.fifo c queued None (Background.trace (worker s))) ∧
  ∀ c' t, Background.ObsFetch c' t ∈ Background.trace (worker s) → c' = c ∧ t ∈ queued.
Proof.
  intros Hrun Hon c queued.
  destruct (piped_run c evs _ _ (piped_initial url) Hon Hrun)
    as [Hc Hh Hl Ho Hm Hb (tasks & Hw & He)].
  assert (∀ m, m ∈ received s → ContentScript.conversationId m = c) as Hrl.
  { intros m Hin. apply Hl. unfold received in Hin.
    apply elem_of_take in Hin as (i & Hi & _). by eapply list_elem_of_lookup_2. }
  assert (∀ c', is_Some (Background.fifo c' (turns_for c' (received s)) None
                           (Background.trace (worker s)))) as Hfifo.
  { intros c'. rewrite <- He, Hw. destruct (BackgroundFacts.run_ok tasks) as [_ Hok].
    destruct (Hok c') as [_ _ Hf|k tl _ _ Hf]; rewrite Hf; eauto. }
  split_and!.
  - subst queued. unfold received.
    rewrite <- (take_drop (delivered s) (ContentScript.sent (page s))) in Ho.
    rewrite turns_sent_app, fmap_app in Ho. by eapply ascending_prefix.
  - subst queued. rewrite <- (turns_for_own c) by done. apply Hfifo.
  - intros c' t Hin. destruct (Hfifo c') as [left Hleft].
    destruct (fifo_attempts _ _ _ _ _ _ Hleft Hin) as [Ht|?]; [|done].
    destruct (decide (c' = c)) as [->|Hne].
    + split; [done|]. subst queued. by rewrite <- (turns_for_own c).
    + rewrite (turns_for_other c) in Ht by done. by apply elem_of_nil in Ht.
Qed.

Lemma turns_reach_the_backend_in_page_order_witness :
  let evs := [Page (ContentScript.EvObserve true "t0" Samples.doc_abc); Deliver;
              Worker (Background.EvFetchDone 0 Samples.accepted);
              Page (ContentScript.EvObserve true "t1" MoreSamples.doc_more)] in
  ∃ s, run (initial Samples.url_abc) evs = Some s ∧
       id <$> turns_sent (ContentScript.sent (page s)) = [1; 2; 3] ∧
       ascending 0 (id <$> turns_sent (received s)) = true ∧
       ∀ c' t, Background.ObsFetch c' t ∈ Background.trace (worker s) → c' = "abc".
Proof.
  intros evs. eexists. split; [vm_compute; reflexivity|].
  split; [vm_compute; reflexivity|].
  match goal with |- context [received ?x] => set (s := x) end.
  destruct (turns_reach_the_backend_in_page_order Samples.url_abc evs s)
    as (Ha & _ & Hall); [vm_compute; reflexivity|vm_compute; reflexivity|].
  split; [exact Ha|]. intros c' t Hin. by destruct (Hall c' t Hin).
Defined.

End System.

End PipelineFacts.

(** ** Facts about the schedule of the panel's timers *)

Module ScheduleFacts.

Import Sidebar SidebarFacts Schedule.

Section Timely.























End Timely.

Section Properties.



End Properties.

End ScheduleFacts.
